(** * caosde: stock / stochastic-volatility path simulation

    A shallow embedding of

    - [src/stocksim/stocksim.c]  (the MEX path simulator: [stockPath], [mexFunction]),
    - [src/euler_weak.m]         (the weak-convergence script),
    - [src/NumWrapper.m]         (the MATLAB path simulator),

    and the properties their specification states about them.

    The programs compute on C / MATLAB doubles.  The embedding is written over
    an interface [Arith] that only names the operations the sources use; no
    algebraic law is assumed unless a theorem says so.  Two instances are
    given: IEEE binary64 (Rocq's primitive floats), on which the programs can
    be run, and exact rationals. *)

From Stdlib Require Import ZArith QArith Qcanon Qcabs Floats String Lia.
From stdpp Require Import base list.

Set Warnings "-abstract-large-number,-inexact-float".
Local Open Scope nat_scope.

(* ===================================================================== *)
(** * Arithmetic on doubles *)
(* ===================================================================== *)

(** The operations on [double] that the sources use.  [flit q] is the double
    denoted by the decimal (or integer) literal [q] of the source text. *)
Class Arith (F : Type) : Type := {
  flit   : Q -> F;
  fadd   : F -> F -> F;
  fsub   : F -> F -> F;
  fmul   : F -> F -> F;
  fdiv   : F -> F -> F;
  fsqrt  : F -> F;
  fabs   : F -> F;
  fgt    : F -> F -> bool;       (* C's [x > y] *)
  lround : F -> Z;               (* C99 [lround]: nearest, halves away from zero *)
}.
Arguments flit {F _} q%_Q.

Declare Scope fl_scope.
Delimit Scope fl_scope with fl.
Infix "+" := fadd : fl_scope.
Infix "-" := fsub : fl_scope.
Infix "*" := fmul : fl_scope.
Infix "/" := fdiv : fl_scope.

(** The GNU Scientific Library generator used by [stocksim.c].  GSL is not
    part of the repository: its generator is a parameter of the model.
    [gsl_rng_alloc] is the state of a freshly allocated generator,
    [gsl_rng_set r seed] reseeds it (the seed is passed as the double read
    from the argument), [gsl_ran_gaussian r sigma] draws one variate. *)
Class Gsl (F : Type) : Type := {
  gsl_rng          : Type;
  gsl_rng_alloc    : gsl_rng;
  gsl_rng_set      : gsl_rng -> F -> gsl_rng;
  gsl_ran_gaussian : gsl_rng -> F -> F * gsl_rng;
}.

(** The type of the six step functions declared in [numerical.h]. *)
Definition step_fn (F : Type) : Type := F -> F -> F -> F -> F -> F.

(** [numerical.h] also declares [rk_stock] and [rk_vol]; neither the header
    nor the specification gives their formulas, so they are parameters. *)
Class RungeKutta (F : Type) : Type := {
  rk_stock : step_fn F;
  rk_vol   : step_fn F;
}.

(* ===================================================================== *)
(** * The MEX execution monad *)
(* ===================================================================== *)

(** Which of the three output buffers / two generators an event is about. *)
Inductive buffer := StockBuf | VolBuf | XiBuf.
Inductive stream := StockStream | VolStream.

(** Observable effects of a run, in the order they happen. *)
Inductive event :=
  | EvCreateMatrix (m n : Z)        (* mxCreateDoubleMatrix(m, n, mxREAL) *)
  | EvRngAlloc                      (* gsl_rng_alloc *)
  | EvRngSet                        (* gsl_rng_set *)
  | EvRngFree                       (* gsl_rng_free *)
  | EvDraw (s : stream)             (* gsl_ran_gaussian *)
  | EvStore (b : buffer) (i : nat). (* buf[i] = ... *)

Inductive fault :=
  | OutOfMemory      (* the host cannot allocate the matrix *)
  | OutOfBounds.     (* access outside an allocated buffer *)

(** How a computation ends: normally, by [mexErrMsgTxt], or by a fault. *)
Inductive outcome (A : Type) :=
  | Done (a : A)
  | MexErr (msg : string)
  | Faulted (f : fault).
Arguments Done {A} a.
Arguments MexErr {A} msg.
Arguments Faulted {A} f.

Definition mex (A : Type) : Type := list event -> outcome A * list event.

#[global] Instance mex_ret : MRet mex := fun A a t => (Done a, t).
#[global] Instance mex_bind : MBind mex := fun A B f m t =>
  match m t with
  | (Done a, t') => f a t'
  | (MexErr msg, t') => (MexErr msg, t')
  | (Faulted e, t') => (Faulted e, t')
  end.

Definition emit (e : event) : mex unit := fun t => (Done tt, t ++ [e]).
Definition mexErrMsgTxt {A} (msg : string) : mex A := fun t => (MexErr msg, t).
Definition raise_fault {A} (f : fault) : mex A := fun t => (Faulted f, t).
Arguments mexErrMsgTxt {A} msg%_string.

(** [for (i = ...; ...; i++) body] over the successive values [l] of [i]. *)
Fixpoint for_each {S : Type} (l : list nat) (body : nat -> S -> mex S) (s : S)
  : mex S :=
  match l with
  | [] => mret s
  | i :: l' => s' ← body i s; for_each l' body s'
  end.

(** Reading and writing a cell of a [double *] buffer. *)
Definition load {F} (buf : list F) (i : nat) : mex F :=
  match buf !! i with
  | Some v => mret v
  | None => raise_fault OutOfBounds
  end.

(** [buf[index - 1]]: [index] is unsigned, so for [index = 0] the read is
    far outside the buffer. *)
Definition load_before {F} (buf : list F) (index : nat) : mex F :=
  match index with
  | 0 => raise_fault OutOfBounds
  | S i => load buf i
  end.

Definition store {F} (b : buffer) (buf : list F) (i : nat) (v : F)
  : mex (list F) :=
  if decide (i < length buf)
  then _ ← emit (EvStore b i); mret (<[i:=v]> buf)
  else raise_fault OutOfBounds.

(* ===================================================================== *)
(** * src/stocksim/stocksim.c *)
(* ===================================================================== *)

Inductive method := EULER | MILSTEIN | RK | NO_METHOD.

Section Stocksim.
Context {F : Type} `{Arith F} `{Gsl F} `{RungeKutta F}.
Local Open Scope fl_scope.

(** Modelled from the spec: [numerical.h] / [numerical.c] ([euler_stock],
    [euler_vol], [milstein_stock], [milstein_vol]) are not under [src/].
    The formulas are those of section 4.2, written in the association that
    [euler_weak.m] uses for the same expressions (lines 32-35, 56-57). *)
Definition euler_stock : step_fn F := fun stock vol mu Dt phi =>
  stock + mu * stock * Dt + vol * stock * phi.

Definition euler_vol : step_fn F := fun vol xi p Dt phi =>
  vol - (vol - xi) * Dt + p * vol * phi.

Definition milstein_stock : step_fn F := fun stock vol mu Dt phi =>
  stock + mu * stock * Dt + vol * stock * phi
    + flit 0.5 * vol * vol * stock * (phi * phi - Dt).

Definition milstein_vol : step_fn F := fun vol xi p Dt phi =>
  vol - (vol - xi) * Dt + p * vol * phi
    + flit 0.5 * p * p * vol * (phi * phi - Dt).

(** Lines 92-102: the fourth-order Runge-Kutta update of xi. *)
Definition rk4_xi (vol_prev xi_prev Dt alpha : F) : F :=
  let k_1 := flit 1 / alpha * (vol_prev - xi_prev) in
  let k_2 := flit 1 / alpha * (vol_prev + flit 0.5 * Dt * k_1 - xi_prev) in
  let k_3 := flit 1 / alpha * (vol_prev + flit 0.5 * Dt * k_2 - xi_prev) in
  let k_4 := flit 1 / alpha * (vol_prev + Dt * k_3 - xi_prev) in
  xi_prev + Dt / flit 6 * (k_1 + flit 2 * k_2 + flit 2 * k_3 + k_4).

(** What [stockPath] reads and writes through its pointer arguments. *)
Record sp_state := SpState {
  sp_rng_stock : gsl_rng;
  sp_rng_vol   : gsl_rng;
  sp_stock     : list F;
  sp_vol       : list F;
  sp_xi        : list F;
  sp_index     : nat;
}.

Definition draw (s : stream) (r : gsl_rng) : mex (F * gsl_rng) :=
  _ ← emit (EvDraw s); mret (gsl_ran_gaussian r (flit 1)).

(** Lines 55-66. *)
Definition select_method (num_method : method) : mex (step_fn F * step_fn F) :=
  match num_method with
  | EULER => mret (euler_stock, euler_vol)
  | MILSTEIN => mret (milstein_stock, milstein_vol)
  | RK => mret (rk_stock, rk_vol)
  | NO_METHOD => mexErrMsgTxt "Only 'euler', 'milstein' and 'rk' are implemented"
  end.

(** Lines 79-104: the body of the loop over [j]. *)
Definition stockPath_step (num_method_stock num_method_vol : step_fn F)
    (Dt mu p alpha : F) (j : nat) (st : sp_state) : mex sp_state :=
  '(g_stock, rng_stock) ← draw StockStream (sp_rng_stock st);
  let phi_stock := g_stock * fsqrt Dt in
  '(g_vol, rng_vol) ← draw VolStream (sp_rng_vol st);
  let phi_vol := g_vol * fsqrt Dt in
  let index := sp_index st in
  s_prev ← load_before (sp_stock st) index;
  v_prev ← load_before (sp_vol st) index;
  stock_paths ← store StockBuf (sp_stock st) index
                  (num_method_stock s_prev v_prev mu Dt phi_stock);
  v_prev ← load_before (sp_vol st) index;
  x_prev ← load_before (sp_xi st) index;
  vol_paths ← store VolBuf (sp_vol st) index
                (num_method_vol v_prev x_prev p Dt phi_vol);
  v_prev ← load_before vol_paths index;
  x_prev ← load_before (sp_xi st) index;
  xi_paths ← store XiBuf (sp_xi st) index (rk4_xi v_prev x_prev Dt alpha);
  mret (SpState rng_stock rng_vol stock_paths vol_paths xi_paths (S index)).

(** Lines 71-105: the body of the loop over [i]. *)
Definition stockPath_sample (num_method_stock num_method_vol : step_fn F)
    (Dt sigma_0 S_0 xi_0 mu p alpha : F) (N : nat) (i : nat) (st : sp_state)
    : mex sp_state :=
  let index := sp_index st in
  stock_paths ← store StockBuf (sp_stock st) index S_0;
  vol_paths ← store VolBuf (sp_vol st) index sigma_0;
  xi_paths ← store XiBuf (sp_xi st) index xi_0;
  for_each (seq 1 (N - 1))
    (stockPath_step num_method_stock num_method_vol Dt mu p alpha)
    (SpState (sp_rng_stock st) (sp_rng_vol st)
       stock_paths vol_paths xi_paths (S index)).

(** Lines 37-109.  [samples] and [N] are [mwSize] (unsigned) values. *)
Definition stockPath (rng_stock rng_vol : gsl_rng) (samples : nat)
    (Dt sigma_0 S_0 xi_0 mu p alpha : F) (N : nat) (num_method : method)
    (stock_paths vol_paths xi_paths : list F) : mex sp_state :=
  '(num_method_stock, num_method_vol) ← select_method num_method;
  for_each (seq 0 samples)
    (stockPath_sample num_method_stock num_method_vol
       Dt sigma_0 S_0 xi_0 mu p alpha N)
    (SpState rng_stock rng_vol stock_paths vol_paths xi_paths 0).

End Stocksim.

(** ** The gateway routine *)

(** An argument handed over by the host: a real double scalar, a char array,
    or a value of any other class. *)
Inductive mxArray (F : Type) :=
  | MxDouble (x : F)
  | MxChar (s : string)
  | MxOther.
Arguments MxDouble {F} x.
Arguments MxChar {F} s%_string.
Arguments MxOther {F}.

(** A matrix returned to the host: [mx_m] rows, [mx_n] columns, and the
    data in MATLAB's column-major order (entry (r, c) at [r + c * mx_m]). *)
Record mxMatrix (F : Type) := MxMatrix {
  mx_m  : Z;
  mx_n  : Z;
  mx_pr : list F;
}.
Arguments MxMatrix {F} mx_m mx_n mx_pr.
Arguments mx_m {F} _.
Arguments mx_n {F} _.
Arguments mx_pr {F} _.

(** C's [strncmp(s1, s2, n) == 0] on NUL-terminated strings. *)
Fixpoint strncmp_eq0 (s1 s2 : string) (n : nat) : bool :=
  match n with
  | 0 => true
  | S n' =>
      match s1, s2 with
      | EmptyString, EmptyString => true
      | String c1 r1, String c2 r2 => Ascii.eqb c1 c2 && strncmp_eq0 r1 r2 n'
      | _, _ => false
      end
  end.
Arguments strncmp_eq0 s1%_string s2%_string n.

Section Gateway.
Context {F : Type} `{Arith F} `{Gsl F} `{RungeKutta F}.
Local Open Scope fl_scope.

Definition mxIsDouble (a : mxArray F) : bool :=
  match a with MxDouble _ => true | _ => false end.

Definition mxIsChar (a : mxArray F) : bool :=
  match a with MxChar _ => true | _ => false end.

(** [*mxGetPr(a)]; there is no data to read in a non-double argument. *)
Definition mxGetPr (a : mxArray F) : mex F :=
  match a with
  | MxDouble x => mret x
  | _ => raise_fault OutOfBounds
  end.

Definition mxArrayToString (a : mxArray F) : mex string :=
  match a with
  | MxChar s => mret s
  | _ => raise_fault OutOfBounds
  end.

(** [mxCreateDoubleMatrix(m, n, mxREAL)], zero-initialised.  [mwSize] is
    unsigned: a negative [lround] result converts to a dimension of at
    least 2^63, which the host cannot allocate, and the MEX-file is
    terminated. *)
Definition mxCreateDoubleMatrix (m n : Z) : mex (list F) :=
  if decide (0 ≤ m ∧ 0 ≤ n)%Z
  then _ ← emit (EvCreateMatrix m n);
       mret (replicate (Z.to_nat (m * n)) (flit 0))
  else raise_fault OutOfMemory.

(** Lines 158-166. *)
Definition parse_method (name : string) : mex method :=
  if strncmp_eq0 name "euler" (String.length "euler") then mret EULER
  else if strncmp_eq0 name "milstein" (String.length "milstein") then mret MILSTEIN
  else if strncmp_eq0 name "rk" (String.length "rk") then mret RK
  else mexErrMsgTxt "Only 'euler', 'milstein' and 'rk' are implemented".

(** Lines 112-185.  [nrhs] is the length of [prhs]. *)
Definition mexFunction (nlhs : Z) (prhs : list (mxArray F))
    : mex (mxMatrix F * mxMatrix F * mxMatrix F) :=
  match prhs with
  | [RANDSTATE_IN; SAMPLES_IN; DT_IN; SIGMA0_IN; S_0_IN; XI0_IN; MU_IN;
     P_IN; ALPHA_IN; T_IN; NUMMETHOD_IN] =>
      if decide (nlhs ≠ 3%Z)
      then mexErrMsgTxt "Three output arguments required."
      else if negb (mxIsDouble RANDSTATE_IN) || negb (mxIsDouble SAMPLES_IN)
              || negb (mxIsDouble DT_IN) || negb (mxIsDouble SIGMA0_IN)
              || negb (mxIsDouble S_0_IN) || negb (mxIsDouble XI0_IN)
              || negb (mxIsDouble MU_IN) || negb (mxIsDouble P_IN)
              || negb (mxIsDouble ALPHA_IN) || negb (mxIsDouble T_IN)
      then mexErrMsgTxt "All parameters have to be numbers except num_method."
      else
        alpha ← mxGetPr ALPHA_IN;
        if negb (fgt alpha (flit 0))
        then mexErrMsgTxt "alpha must be larger than zero"
        else if negb (mxIsChar NUMMETHOD_IN)
        then mexErrMsgTxt "num_method must be a char"
        else
          T ← mxGetPr T_IN;
          Dt ← mxGetPr DT_IN;
          let N := lround (T / Dt) in
          samples_in ← mxGetPr SAMPLES_IN;
          let samples := lround samples_in in
          stock_paths ← mxCreateDoubleMatrix N samples;
          vol_paths ← mxCreateDoubleMatrix N samples;
          xi_paths ← mxCreateDoubleMatrix N samples;
          name ← mxArrayToString NUMMETHOD_IN;
          num_method ← parse_method name;
          _ ← emit EvRngAlloc;
          let rng_stock := gsl_rng_alloc in
          _ ← emit EvRngAlloc;
          let rng_vol := gsl_rng_alloc in
          randstate ← mxGetPr RANDSTATE_IN;
          _ ← emit EvRngSet;
          let rng_stock := gsl_rng_set rng_stock randstate in
          _ ← emit EvRngSet;
          let rng_vol := gsl_rng_set rng_vol (randstate + flit 1) in
          sigma_0 ← mxGetPr SIGMA0_IN;
          S_0 ← mxGetPr S_0_IN;
          xi_0 ← mxGetPr XI0_IN;
          mu ← mxGetPr MU_IN;
          p ← mxGetPr P_IN;
          st ← stockPath rng_stock rng_vol (Z.to_nat samples) Dt sigma_0 S_0
                 xi_0 mu p alpha (Z.to_nat N) num_method
                 stock_paths vol_paths xi_paths;
          _ ← emit EvRngFree;
          _ ← emit EvRngFree;
          mret (MxMatrix N samples (sp_stock st),
                MxMatrix N samples (sp_vol st),
                MxMatrix N samples (sp_xi st))
  | _ => mexErrMsgTxt "Eleven input arguments required."
  end.

End Gateway.

(* ===================================================================== *)
(** * MATLAB vectors and the MATLAB generator *)
(* ===================================================================== *)

(** MATLAB's [randn] is a builtin of the host, not of the repository: the
    generator is a parameter.  [randn_set_state s] is the generator after
    [randn('state', s)]; [randn g] draws one variate. *)
Class Matlab (F : Type) : Type := {
  randn_state     : Type;
  randn_set_state : F -> randn_state;
  randn           : randn_state -> F * randn_state;
}.

(** MATLAB scripts fail with an error ([None]) or go on ([Some]). *)
Fixpoint for_opt {S : Type} (l : list nat) (body : nat -> S -> option S) (s : S)
  : option S :=
  match l with
  | [] => Some s
  | i :: l' => s' ← body i s; for_opt l' body s'
  end.

(** [v(i)] for a vector [v]: indices start at 1; reading outside is an error. *)
Definition mat_get {F} (v : list F) (i : nat) : option F :=
  match i with
  | 0 => None
  | S i' => v !! i'
  end.

(** [v(i) = x]: writing past the end grows the vector, padding with zeros. *)
Definition mat_set {F} `{Arith F} (v : list F) (i : nat) (x : F)
  : option (list F) :=
  match i with
  | 0 => None
  | S i' =>
      if decide (i' < length v) then Some (<[i':=x]> v)
      else Some (v ++ replicate (i' - length v) (flit 0) ++ [x])
  end.

(** [randn(n,1)]: [n] successive draws. *)
Fixpoint randn_vec {F} `{Matlab F} (n : nat) (g : randn_state)
  : list F * randn_state :=
  match n with
  | 0 => ([], g)
  | S n' =>
      let '(x, g) := randn g in
      let '(xs, g) := randn_vec n' g in
      (x :: xs, g)
  end.

(* ===================================================================== *)
(** * src/euler_weak.m *)
(* ===================================================================== *)

Section EulerWeak.
Context {F : Type} `{Arith F} `{Matlab F}.
Local Open Scope fl_scope.

(** The three work vectors [S], [sig], [xi] of the script. *)
Record paths := Paths {
  S_  : list F;
  sig : list F;
  xi  : list F;
}.

(** Lines 32-36: the three assignments of the reference loop. *)
Definition fine_update (dtex mu p alfa deltaw deltaw1 : F) (i : nat) (a : paths)
    : option paths :=
  s ← mat_get (S_ a) (i - 1);
  v ← mat_get (sig a) (i - 1);
  S' ← mat_set (S_ a) i
         (s + mu * s * dtex + v * s * deltaw
            + flit 0.5 * v * v * s * (deltaw * deltaw - dtex));
  x ← mat_get (xi a) (i - 1);
  sig' ← mat_set (sig a) i
           (v - (v - x) * dtex + p * v * deltaw1
              + flit 0.5 * p * p * v * (deltaw1 * deltaw1 - dtex));
  v ← mat_get sig' (i - 1);
  xi' ← mat_set (xi a) i (x + (flit 1.0 / alfa) * (v - x) * dtex);
  Some (Paths S' sig' xi').

(** Lines 29-36: the body of the reference loop. *)
Definition fine_body (dtex mu p alfa : F) (r r1 : list F) (i : nat) (a : paths)
    : option paths :=
  r_i ← mat_get r i;
  let deltaw := fsqrt dtex * r_i in
  r1_i ← mat_get r1 i;
  let deltaw1 := fsqrt dtex * r1_i in
  fine_update dtex mu p alfa deltaw deltaw1 i a.

(** Lines 47-52: the sums [tmp], [tmp1] of [k] consecutive draws. *)
Definition sum_draws (k i : nat) (r r1 : list F) : option (F * F) :=
  for_opt (seq 1 k)
    (fun z '(tmp, tmp1) =>
       r_z ← mat_get r (k * i - (k - z));
       r1_z ← mat_get r1 (k * i - (k - z));
       Some (tmp + r_z, tmp1 + r1_z))
    (flit 0.0, flit 0.0).

(** Lines 56-58: the three assignments of a coarse loop. *)
Definition coarse_update (dt mu p alfa deltaw deltaw1 : F) (i : nat) (a : paths)
    : option paths :=
  s ← mat_get (S_ a) (i - 1);
  v ← mat_get (sig a) (i - 1);
  S' ← mat_set (S_ a) i (s + mu * s * dt + v * s * deltaw);
  x ← mat_get (xi a) (i - 1);
  sig' ← mat_set (sig a) i (v - (v - x) * dt + p * v * deltaw1);
  v ← mat_get sig' (i - 1);
  xi' ← mat_set (xi a) i (x + (flit 1.0 / alfa) * (v - x) * dt);
  Some (Paths S' sig' xi').

(** Lines 47-58 (and 65-77, 85-97, 105-116): the body of a coarse loop
    that groups [k] draws. *)
Definition coarse_body (k : nat) (dtex dt mu p alfa : F) (r r1 : list F)
    (i : nat) (a : paths) : option paths :=
  '(tmp, tmp1) ← sum_draws k i r r1;
  let deltaw := fsqrt dtex * tmp in
  let deltaw1 := fsqrt dtex * tmp1 in
  coarse_update dt mu p alfa deltaw deltaw1 i a.

(** The variables that live across the repetitions of the outer loop. *)
Record ew_state := EwState {
  ew_paths       : paths;
  ew_mean        : list F;
  ew_meanew32000 : F;
  ew_gen         : randn_state;
}.

(** Lines 44-61 (63-80, 82-100, 102-119): the coarse run number [lvl],
    with [dt = timestep(lvl)], [n] grid points and groups of [k] draws,
    and the update of [mean(lvl)]. *)
Definition coarse_run (timestep : list F) (lvl k n : nat)
    (dtex mu p alfa : F) (r r1 : list F) (am : paths * list F)
    : option (paths * list F) :=
  let '(a, mean) := am in
  dt ← mat_get timestep lvl;
  a ← for_opt (seq 2 (n - 1)) (coarse_body k dtex dt mu p alfa r r1) a;
  m ← mat_get mean lvl;
  s ← mat_get (S_ a) n;
  mean ← mat_set mean lvl (m + s);
  Some (a, mean).

(** Lines 18-119: one pass of the loop over [j]. *)
Definition repetition (timestep : list F) (j : nat) (st : ew_state)
    : option ew_state :=
  let dtex := flit 0.0001 in
  let '(r, g) := randn_vec 32000 (ew_gen st) in
  let '(r1, g) := randn_vec 32000 g in
  S' ← mat_set (S_ (ew_paths st)) 1 (flit 50.0);
  sig' ← mat_set (sig (ew_paths st)) 1 (flit 0.2);
  xi' ← mat_set (xi (ew_paths st)) 1 (flit 0.2);
  let mu := flit 0.1 in
  let p := flit 1 in
  let alfa := flit 1 in
  a ← for_opt (seq 2 31999) (fine_body dtex mu p alfa r r1) (Paths S' sig' xi');
  solution ← mat_get (S_ a) 32000;
  let meanew32000 := ew_meanew32000 st + solution in
  am ← coarse_run timestep 1 32 1000 dtex mu p alfa r r1 (a, ew_mean st);
  am ← coarse_run timestep 2 64 500 dtex mu p alfa r r1 am;
  am ← coarse_run timestep 3 128 250 dtex mu p alfa r r1 am;
  am ← coarse_run timestep 4 256 125 dtex mu p alfa r r1 am;
  Some (EwState am.1 am.2 meanew32000 g).

(** Lines 1-123: the script; its result is [eweaknorm].  [g] is the state
    of the host's generator when the script starts. *)
Definition euler_weak (g : randn_state) : option (list F) :=
  let timestep := [flit 0.0032; flit 0.0064; flit 0.0128; flit 0.0256] in
  let mean := replicate 4 (flit 0) in
  let meanew32000 := flit 0 in
  let nsample := 10000 in
  let zeros32000 := replicate 32000 (flit 0) in
  st ← for_opt (seq 1 nsample) (repetition timestep)
         (EwState (Paths zeros32000 zeros32000 zeros32000) mean meanew32000 g);
  Some ((fun m => fabs (m / flit 10000 - ew_meanew32000 st / flit 10000))
          <$> ew_mean st).

End EulerWeak.

(* ===================================================================== *)
(** * src/NumWrapper.m *)
(* ===================================================================== *)

Section NumWrapper.
Context {F : Type} `{Arith F} `{Matlab F} `{RungeKutta F}.
Local Open Scope fl_scope.

(** Line 9: the number of steps, as the function computes it. *)
Definition NumWrapper_N (T Dt : F) : F := T / Dt.

(** A matrix is the list of its rows. *)
Definition zeros (m n : nat) : list (list F) := replicate m (replicate n (flit 0)).

(** [M(i,j)] *)
Definition mat2_get (M : list (list F)) (i j : nat) : option F :=
  row ← mat_get M i; mat_get row j.

(** [M(i,j) = x] inside the matrix.  (MATLAB grows a matrix that is
    written outside; [NumWrapper] never does, see [NumWrapper_runs].) *)
Definition mat2_set (M : list (list F)) (i j : nat) (x : F)
    : option (list (list F)) :=
  row ← mat_get M i;
  if decide (1 ≤ j ≤ length row)%nat then Some (<[(i - 1)%nat := <[(j - 1)%nat := x]> row]> M)
  else None.

(** [M(:,1) = x]: a matrix without columns gets one. *)
Definition set_column_1 (M : list (list F)) (x : F) : list (list F) :=
  (fun row => match row with [] => [x] | _ :: row' => x :: row' end) <$> M.

(** Lines 12-27.  The functions [EulerStock], ..., [RKVol] are the MATLAB
    counterparts of [numerical.h] and are modelled by the same
    definitions.  With any other name the two handles stay undefined. *)
Definition select_numMethod (numMethod : string)
    : option (step_fn F * step_fn F) :=
  if String.eqb numMethod "Euler" then Some (euler_stock, euler_vol)
  else if String.eqb numMethod "Milstein" then Some (milstein_stock, milstein_vol)
  else if String.eqb numMethod "RK" then Some (rk_stock, rk_vol)
  else None.

(** Lines 64-69. *)
Definition rk4_xit (volt xit Dt alpha : F) : F :=
  let k1 := flit 1 / alpha * (volt - xit) in
  let k2 := flit 1 / alpha * (volt + Dt / flit 2 * k1 - xit) in
  let k3 := flit 1 / alpha * (volt + Dt / flit 2 * k2 - xit) in
  let k4 := flit 1 / alpha * (volt + Dt * k3 - xit) in
  xit + Dt / flit 6 * (k1 + flit 2 * k2 + flit 2 * k3 + k4).

Record nw_paths := NwPaths {
  stockPaths : list (list F);
  volPaths   : list (list F);
  xiPaths    : list (list F);
}.

(** Lines 56-74: the body of the loop over [j], for sample [i]. *)
Definition NumWrapper_step (methods : option (step_fn F * step_fn F))
    (Dt mu p alpha : F) (phiStock phiVol : list F) (i j : nat) (a : nw_paths)
    : option nw_paths :=
  volt ← mat2_get (volPaths a) i (j - 1);
  xit ← mat2_get (xiPaths a) i (j - 1);
  '(numMethodStock, numMethodVol) ← methods;
  phi ← mat_get phiVol (j - 1);
  volPaths' ← mat2_set (volPaths a) i j (numMethodVol volt xit p Dt phi);
  xiPaths' ← mat2_set (xiPaths a) i j (rk4_xit volt xit Dt alpha);
  s ← mat2_get (stockPaths a) i (j - 1);
  v ← mat2_get volPaths' i (j - 1);
  phi ← mat_get phiStock (j - 1);
  stockPaths' ← mat2_set (stockPaths a) i j (numMethodStock s v mu Dt phi);
  Some (NwPaths stockPaths' volPaths' xiPaths').

(** Lines 46-75: the body of the loop over [i].  [randn(N - 1)] is a
    square matrix of (N-1)^2 draws; [phi(j - 1)] reads its first column. *)
Definition NumWrapper_sample (methods : option (step_fn F * step_fn F))
    (Dt mu p alpha : F) (N : nat) (i : nat) (ag : nw_paths * randn_state)
    : option (nw_paths * randn_state) :=
  let '(a, g) := ag in
  let '(phiStock, g) := randn_vec ((N - 1) * (N - 1)) g in
  let '(phiVol, g) := randn_vec ((N - 1) * (N - 1)) g in
  let phiStock := (fun x => x * fsqrt Dt) <$> phiStock in
  let phiVol := (fun x => x * fsqrt Dt) <$> phiVol in
  a ← for_opt (seq 2 (N - 1))
        (NumWrapper_step methods Dt mu p alpha phiStock phiVol i) a;
  Some (a, g).

(** Lines 1-76, for the case where [samples] and [T / Dt] are the natural
    numbers [samples] and [N].  The result is the three path matrices
    (the three averages of lines 78-80 are left out). *)
Definition NumWrapper (randstate : F) (samples : nat)
    (Dt sigma0 S0 xi0 mu p alpha : F) (N : nat) (numMethod : string)
    : option nw_paths :=
  let g := randn_set_state randstate in
  let methods := select_numMethod numMethod in
  let stockPaths := set_column_1 (zeros samples N) S0 in
  let volPaths := set_column_1 (zeros samples N) sigma0 in
  let xiPaths := set_column_1 (zeros samples N) xi0 in
  ag ← for_opt (seq 1 samples) (NumWrapper_sample methods Dt mu p alpha N)
         (NwPaths stockPaths volPaths xiPaths, g);
  Some ag.1.

End NumWrapper.

(* ===================================================================== *)
(** * Instances *)
(* ===================================================================== *)

(** ** IEEE binary64 *)

Module Binary64.

Definition of_Z (z : Z) : float :=
  match z with
  | Z0 => PrimFloat.zero
  | Zpos _ => PrimFloat.of_uint63 (Uint63.of_Z z)
  | Zneg p => PrimFloat.opp (PrimFloat.of_uint63 (Uint63.of_Z (Zpos p)))
  end.

(** A literal [n / d] with [n] and [d] below 2^53 is the correctly rounded
    quotient of two exactly represented integers. *)
Definition literal (q : Q) : float :=
  PrimFloat.div (of_Z (Qnum q)) (of_Z (Zpos (Qden q))).

(** [lround] on the exact value [(-1)^s * m * 2^e].  The result is a
    [long]: the C standard leaves it unspecified when the rounded value is
    outside [-2^63, 2^63 - 1] and for infinities and NaN; x86-64 gives
    [LONG_MIN] in all these cases. *)
Definition round_half_away (x : float) : Z :=
  match Prim2SF x with
  | S754_zero _ => 0
  | S754_finite s m e =>
      let a := if (0 <=? e)%Z then (Zpos m * 2 ^ e)%Z
               else ((Zpos m + 2 ^ (- e - 1)) / 2 ^ (- e))%Z in
      let z := if s then (- a)%Z else a in
      if ((- 2 ^ 63 <=? z) && (z <? 2 ^ 63))%Z then z else (- 2 ^ 63)%Z
  | _ => (- 2 ^ 63)%Z
  end.

#[export] Instance arith : Arith float := {|
  flit := literal;
  fadd := PrimFloat.add;
  fsub := PrimFloat.sub;
  fmul := PrimFloat.mul;
  fdiv := PrimFloat.div;
  fsqrt := PrimFloat.sqrt;
  fabs := PrimFloat.abs;
  fgt := fun x y => PrimFloat.ltb y x;
  lround := round_half_away;
|}.

(** Classes of doubles: a zero of either sign; neither an infinity nor NaN;
    NaN; a zero or NaN; the zero +0 or NaN. *)
Definition double_zero (x : float) : bool :=
  match Prim2SF x with S754_zero _ => true | _ => false end.
Definition double_finite (x : float) : bool :=
  match Prim2SF x with S754_zero _ | S754_finite _ _ _ => true | _ => false end.
Definition double_nan (x : float) : bool :=
  match Prim2SF x with S754_nan => true | _ => false end.
Definition zero_or_nan (x : float) : bool :=
  match Prim2SF x with S754_zero _ | S754_nan => true | _ => false end.
Definition pos_zero_or_nan (x : float) : bool :=
  match Prim2SF x with S754_zero false | S754_nan => true | _ => false end.

(** The same double, or two zeros (which may differ in sign). *)
Definition same_but_zero_sign (x y : float) : Prop :=
  x = y \/ (double_zero x = true /\ double_zero y = true).

End Binary64.

(** ** Exact rational arithmetic *)

Module Exact.

(** Exact on squares of rationals, which is all the examples need. *)
Definition sqrt (x : Qc) : Qc :=
  Q2Qc (Z.sqrt (Qnum x) # Pos.sqrt (Qden x)).

Definition round_half_away (x : Qc) : Z :=
  let n := Qnum x in
  let d := Zpos (Qden x) in
  if (0 <=? n)%Z then ((2 * n + d) / (2 * d))%Z
  else (- ((2 * - n + d) / (2 * d)))%Z.

#[export] Instance arith : Arith Qc := {|
  flit := Q2Qc;
  fadd := Qcplus;
  fsub := Qcminus;
  fmul := Qcmult;
  fdiv := Qcdiv;
  fsqrt := sqrt;
  fabs := Qcabs;
  fgt := fun x y => match (y ?= x)%Qc with Lt => true | _ => false end;
  lround := round_half_away;
|}.

End Exact.

(** ** Scripted generators

    A generator that replays a given list of draws (and then zeros); the
    list replayed after seeding is chosen by [script]. *)

Definition replay {F} `{Arith F} (r : list F) : F * list F :=
  match r with
  | [] => (flit 0, [])
  | x :: r' => (x, r')
  end.

Definition scripted_gsl {F} `{Arith F} (script : F -> list F) : Gsl F := {|
  gsl_rng := list F;
  gsl_rng_alloc := [];
  gsl_rng_set := fun _ seed => script seed;
  gsl_ran_gaussian := fun r sigma => let '(x, r') := replay r in (fmul sigma x, r');
|}.

Definition scripted_matlab {F} `{Arith F} (script : F -> list F) : Matlab F := {|
  randn_state := list F;
  randn_set_state := script;
  randn := replay;
|}.

(** A stand-in for the two Runge-Kutta step functions in examples. *)
Definition rk_stand_in {F} `{Arith F} : RungeKutta F := {|
  rk_stock := euler_stock;
  rk_vol := euler_vol;
|}.

(* ===================================================================== *)
(** * Notions used in the statements *)
(* ===================================================================== *)

#[global] Instance buffer_eq_dec : EqDecision buffer.
Proof. solve_decision. Defined.

(** The indices stored into buffer [b], in the order of the stores. *)
Definition stores (b : buffer) (t : list event) : list nat :=
  omap (fun e => match e with
                 | EvStore b' i => if decide (b = b') then Some i else None
                 | _ => None
                 end) t.

(* ===================================================================== *)
(** * The schemes as recurrences *)
(* ===================================================================== *)

Section Schemes.
Context {F : Type} `{Arith F}.
Local Open Scope fl_scope.

(** [v(i)] when it exists. *)
Definition vec_at (v : list F) (i : nat) : F := default (flit 0) (mat_get v i).

(** The point number [i] of the three paths held in the work vectors. *)
Definition triple_at (a : @paths F) (i : nat) : F * F * F :=
  (vec_at (S_ a) i, vec_at (sig a) i, vec_at (xi a) i).

Definition vec_lengths (a : @paths F) (L : nat) : Prop :=
  length (S_ a) = L /\ length (sig a) = L /\ length (xi a) = L.

(** The explicit Euler step of the relaxation equation, as [euler_weak.m]
    writes it (lines 36, 58). *)
Definition euler_xi (v x alfa dt : F) : F := x + (flit 1.0 / alfa) * (v - x) * dt.

(** Section 4.3 in its own words: [rk4_step(vol_prev, xi_prev, Dt, alpha)],
    the four stages [k1 .. k4], each a quotient by alpha, and their
    weighted sum. *)
Definition rk4_step (vol_prev xi_prev Dt alpha : F) : F :=
  let k1 := (vol_prev - xi_prev) / alpha in
  let k2 := (vol_prev + flit 0.5 * Dt * k1 - xi_prev) / alpha in
  let k3 := (vol_prev + flit 0.5 * Dt * k2 - xi_prev) / alpha in
  let k4 := (vol_prev + Dt * k3 - xi_prev) / alpha in
  xi_prev + Dt / flit 6 * (k1 + flit 2 * k2 + flit 2 * k3 + k4).

(** The stages and the weighted sum of section 4.3 when the quotient of
    [y] by alpha is computed as [rate y] and the half step is [half]. *)
Definition rk4_stages (rate : F -> F) (half : F) (vol_prev xi_prev Dt : F) : F :=
  let k1 := rate (vol_prev - xi_prev) in
  let k2 := rate (vol_prev + half * k1 - xi_prev) in
  let k3 := rate (vol_prev + half * k2 - xi_prev) in
  let k4 := rate (vol_prev + Dt * k3 - xi_prev) in
  xi_prev + Dt / flit 6 * (k1 + flit 2 * k2 + flit 2 * k3 + k4).

(** One step of a scheme from the point [(s, v, x)] with the Wiener
    increments [dW], [dW1]: the given stock and volatility step functions,
    and the explicit Euler step for xi. *)
Definition scheme_step (f_stock f_vol : step_fn F) (dt mu p alfa : F)
    (dW dW1 : nat -> F) (i : nat) (y : F * F * F) : F * F * F :=
  let '(s, v, x) := y in
  (f_stock s v mu dt (dW i), f_vol v x p dt (dW1 i), euler_xi v x alfa dt).

(** The grid points [i, i+1, ..., i+count-1] computed one after the other. *)
Fixpoint run_scheme (step : nat -> F * F * F -> F * F * F) (i count : nat)
    (y : F * F * F) : F * F * F :=
  match count with
  | 0 => y
  | S count' => run_scheme step (S i) count' (step i y)
  end.

(** The Wiener increment of the fine grid that drives the reference step to
    the point [i] (lines 29-30). *)
Definition fine_increment (dtex : F) (r : list F) (i : nat) : F :=
  fsqrt dtex * vec_at r i.

(** The sum of the [k] draws number [k*i-k+1 .. k*i], added in that order to
    [0.0], and the increment a coarse loop makes of it (lines 47-54). *)
Definition group_sum (r : list F) (k i : nat) : F :=
  foldl fadd (flit 0.0) (vec_at r <$> seq (k * i - k + 1) k).

Definition coarse_increment (dtex : F) (r : list F) (k i : nat) : F :=
  fsqrt dtex * group_sum r k i.

(** Section 4.5 in its own words: "aggregate consecutive groups of k fine
    increments by summation". *)
Definition aggregated_increment (dtex : F) (r : list F) (k i : nat) : F :=
  foldl fadd (flit 0.0) (fine_increment dtex r <$> seq (k * i - k + 1) k).

(** The initial point and the parameters that the script fixes
    (lines 18, 22-25). *)
Definition ew_init : F * F * F := (flit 50.0, flit 0.2, flit 0.2).
Definition ew_dtex : F := flit 0.0001.
Definition ew_mu : F := flit 0.1.
Definition ew_p : F := flit 1.
Definition ew_alfa : F := flit 1.

(** The terminal stock value of the reference path: the Milstein scheme on
    the fine grid of 32000 points. *)
Definition fine_terminal (rr : list F * list F) : F :=
  (run_scheme
     (scheme_step milstein_stock milstein_vol ew_dtex ew_mu ew_p ew_alfa
        (fine_increment ew_dtex rr.1) (fine_increment ew_dtex rr.2))
     2 31999 ew_init).1.1.

(** The terminal stock value of the Euler scheme on the coarse grid of [n]
    points and step [dt], driven by the increments [inc k]. *)
Definition coarse_terminal (inc : list F -> nat -> nat -> F) (k n : nat) (dt : F)
    (rr : list F * list F) : F :=
  (run_scheme
     (scheme_step euler_stock euler_vol dt ew_mu ew_p ew_alfa
        (inc rr.1 k) (inc rr.2 k))
     2 (n - 1) ew_init).1.1.

(** The four coarse grids of the script: group size, number of points,
    step. *)
Definition ew_levels : list (nat * nat * F) :=
  [(32, 1000, flit 0.0032); (64, 500, flit 0.0064);
   (128, 250, flit 0.0128); (256, 125, flit 0.0256)].

(** Section 4.5 in its own words: for each coarse grid, the distance
    between the mean terminal stock of the coarse paths and that of the
    reference paths, over the repetitions [reps] (the pairs of draw vectors). *)
Definition weak_error (inc : list F -> nat -> nat -> F)
    (reps : list (list F * list F)) : list F :=
  (fun '(k, n, dt) =>
     fabs (foldl fadd (flit 0) (coarse_terminal inc k n dt <$> reps) / flit 10000
           - foldl fadd (flit 0) (fine_terminal <$> reps) / flit 10000))
  <$> ew_levels.

End Schemes.

(** The draw vectors [r], [r1] of [n] successive repetitions. *)
Fixpoint repetition_draws {F} `{Matlab F} (n : nat) (g : randn_state)
  : list (list F * list F) :=
  match n with
  | 0 => []
  | S n' =>
      let '(r, g) := randn_vec 32000 g in
      let '(r1, g) := randn_vec 32000 g in
      (r, r1) :: repetition_draws n' g
  end.

(** A matrix of [m] rows and [n] columns. *)
Definition mat_shape {F} (M : list (list F)) (m n : nat) : Prop :=
  length M = m /\ Forall (fun row => length row = n) M.

(** The three matrices of [NumWrapper] have [samples] rows and [n] columns
    and hold the initial values in their first column. *)
Definition nw_ok {F} (samples n : nat) (S0 sigma0 xi0 : F) (a : @nw_paths F)
    : Prop :=
  (mat_shape (stockPaths a) samples n /\ mat_shape (volPaths a) samples n /\
   mat_shape (xiPaths a) samples n) /\
  forall i, 1 <= i <= samples ->
    mat2_get (stockPaths a) i 1 = Some S0 /\
    mat2_get (volPaths a) i 1 = Some sigma0 /\
    mat2_get (xiPaths a) i 1 = Some xi0.

(** Two runs that end the same way, with the same events, and in states
    related by [R]. *)
Definition sim {S} (R : S -> S -> Prop) (r1 r2 : outcome S * list event) : Prop :=
  r1.2 = r2.2 /\
  match r1.1, r2.1 with
  | Done a, Done b => R a b
  | MexErr m1, MexErr m2 => m1 = m2
  | Faulted f1, Faulted f2 => f1 = f2
  | _, _ => False
  end.

(** What exact arithmetic knows about quotients, and doubles do not (the
    quotient [1 / alpha] is rounded before it is multiplied). *)
Class DivLaws (F : Type) `{Arith F} : Prop := {
  mul_inv_l : forall a x : F, fmul (fdiv (flit 1) a) x = fdiv x a;
  div_2 : forall x : F, fdiv x (flit 2) = fmul (flit 0.5) x;
}.

(** What exact arithmetic knows about sums, and doubles do not (rounding
    breaks distributivity). *)
Class SumLaws (F : Type) `{Arith F} : Prop := {
  mul_add_distr_l : forall a b c : F, fmul a (fadd b c) = fadd (fmul a b) (fmul a c);
  mul_zero : forall a : F, fmul a (flit 0.0) = flit 0.0;
}.

Section GslStreams.
Context {F : Type} `{Arith F} `{Gsl F}.

(** The generator after one draw and after [k] draws, and the variate of
    the draw number [k] (counted from 0) of the stream that starts in [r]. *)
Definition gsl_next (r : gsl_rng) : gsl_rng := (gsl_ran_gaussian r (flit 1)).2.
Definition gsl_state_after (k : nat) (r : gsl_rng) : gsl_rng := Nat.iter k gsl_next r.
Definition gsl_variate (k : nat) (r : gsl_rng) : F :=
  (gsl_ran_gaussian (gsl_state_after k r) (flit 1)).1.

End GslStreams.

Section RunsAtRest.
#[local] Existing Instance Binary64.arith.
Context `{Gsl float}.

(** The Wiener increment [dW = g * sqrt(Dt)] made of the variate [g] has a
    finite Milstein factor [dW * dW - Dt]: neither an infinity nor NaN. *)
Definition finite_increment (Dt g : float) : bool :=
  Binary64.double_finite (g * fsqrt Dt * (g * fsqrt Dt) - Dt)%fl.

(** Two states of [stockPath] on doubles that are equal except that cells
    of the two stock buffers may hold zeros of different signs. *)
Definition same_but_zero_signs (s1 s2 : sp_state) : Prop :=
  sp_rng_stock s1 = sp_rng_stock s2 /\ sp_rng_vol s1 = sp_rng_vol s2 /\
  sp_vol s1 = sp_vol s2 /\ sp_xi s1 = sp_xi s2 /\ sp_index s1 = sp_index s2 /\
  Forall2 Binary64.same_but_zero_sign (sp_stock s1) (sp_stock s2).

(** Such states over buffers of [L] cells, after [d] draws from each of the
    streams that start in [rs] and [rv]. *)
Definition same_after (rs rv : gsl_rng) (L d : nat) (s1 s2 : sp_state) : Prop :=
  same_but_zero_signs s1 s2 /\
  (sp_rng_stock s1 = gsl_state_after d rs /\ sp_rng_vol s1 = gsl_state_after d rv) /\
  (length (sp_stock s1) = L /\ length (sp_vol s1) = L /\ length (sp_xi s1) = L).

(** Such states in which, moreover, the cell before the current one holds a
    volatility that is +0 or NaN and a xi that is a zero or NaN. *)
Definition same_at_rest (rs rv : gsl_rng) (L d : nat) (s1 s2 : sp_state) : Prop :=
  same_after rs rv L d s1 s2 /\
  (forall v, sp_vol s1 !! (sp_index s1 - 1) = Some v ->
     Binary64.pos_zero_or_nan v = true) /\
  (forall x, sp_xi s1 !! (sp_index s1 - 1) = Some x -> Binary64.zero_or_nan x = true).

End RunsAtRest.

(** Work vectors of [euler_weak.m] on doubles that are equal except that
    cells of the two vectors [S] may hold zeros of different signs. *)
Definition paths_same_but_zero_signs (a1 a2 : @paths float) : Prop :=
  sig a1 = sig a2 /\ xi a1 = xi a2 /\
  Forall2 Binary64.same_but_zero_sign (S_ a1) (S_ a2).

(** The library [G] when a generator that has just been allocated is in the
    state [r0].  [gsl_rng_alloc] seeds the new generator from the global
    variable [gsl_rng_default_seed], which the environment of the process
    can set: state that the arguments of a call do not determine. *)
Definition allocating {F} (G : Gsl F) (r0 : @gsl_rng F G) : Gsl F := {|
  gsl_rng := @gsl_rng F G;
  gsl_rng_alloc := r0;
  gsl_rng_set := @gsl_rng_set F G;
  gsl_ran_gaussian := @gsl_ran_gaussian F G;
|}.

(** A state of [stockPath] run with the library [allocating G r0], read as a
    state of [stockPath] run with [G]. *)
Definition sp_state_of {F} {G : Gsl F} (r0 : @gsl_rng F G)
    (st : @sp_state F (allocating G r0)) : @sp_state F G :=
  @SpState F G (sp_rng_stock st) (sp_rng_vol st) (sp_stock st) (sp_vol st)
    (sp_xi st) (sp_index st).

(** The result of a computation with [f] applied to the value returned. *)
Definition outcome_map {A B} (f : A -> B) (r : outcome A * list event)
    : outcome B * list event :=
  (match r.1 with
   | Done a => Done (f a)
   | MexErr msg => MexErr msg
   | Faulted e => Faulted e
   end, r.2).

(** Two states of [stockPath] over buffers of [L] cells that agree on the
    generators, on the current cell and on the cells written so far: the
    cells before the current one. *)
Definition same_written {F} `{Gsl F} (L : nat) (s1 s2 : sp_state) : Prop :=
  sp_rng_stock s1 = sp_rng_stock s2 /\ sp_rng_vol s1 = sp_rng_vol s2 /\
  sp_index s1 = sp_index s2 /\
  (length (sp_stock s1) = L /\ length (sp_vol s1) = L /\ length (sp_xi s1) = L) /\
  (length (sp_stock s2) = L /\ length (sp_vol s2) = L /\ length (sp_xi s2) = L) /\
  forall c, c < sp_index s1 ->
    sp_stock s1 !! c = sp_stock s2 !! c /\ sp_vol s1 !! c = sp_vol s2 !! c /\
    sp_xi s1 !! c = sp_xi s2 !! c.

(** The eleven arguments of a well-typed call of the MEX-file, in the order
    of lines 13-23. *)
Definition stocksim_args {F} (randstate samples Dt sigma_0 S_0 xi_0 mu p alpha T : F)
    (num_method : string) : list (mxArray F) :=
  [MxDouble randstate; MxDouble samples; MxDouble Dt; MxDouble sigma_0;
   MxDouble S_0; MxDouble xi_0; MxDouble mu; MxDouble p; MxDouble alpha;
   MxDouble T; MxChar num_method].

(** A call with eleven arguments, ten doubles and a char array. *)
Definition well_typed {F} (prhs : list (mxArray F)) : Prop :=
  exists randstate samples Dt sigma_0 S_0 xi_0 mu p alpha T num_method,
    prhs = stocksim_args randstate samples Dt sigma_0 S_0 xi_0 mu p alpha T
             num_method.

(** The method names that lines 158-166 accept, and what they select. *)
Definition recognised (name : string) : bool :=
  String.prefix "euler" name || String.prefix "milstein" name
  || String.prefix "rk" name.

Definition method_of (name : string) : method :=
  if String.prefix "euler" name then EULER
  else if String.prefix "milstein" name then MILSTEIN
  else if String.prefix "rk" name then RK
  else NO_METHOD.

(** A computation is oblivious of the history when its outcome and the
    events it adds do not depend on the trace it starts from. *)
Definition oblivious {A} (m : mex A) : Prop :=
  exists (o : outcome A) (evs : list event), forall t, m t = (o, t ++ evs).

(** A computation that never ends by [mexErrMsgTxt]. *)
Definition quiet {A} (m : mex A) : Prop :=
  forall t msg t', m t <> (MexErr msg, t').

(** The state of [stockPath] once the cells [0 .. idx-1] of the three
    buffers (each of [L] cells) have been written, for paths of [N] steps:
    the cells that start a path hold the initial values, every other cell of
    [xi_paths] is the Runge-Kutta update of the cells before it, and each
    cell has been stored exactly once, in increasing order.  [t0] is the
    trace when [stockPath] was entered. *)
Definition sp_inv {F} `{Arith F} `{Gsl F} (Dt sigma_0 S_0 xi_0 alpha : F)
    (N L : nat) (t0 : list event) (idx : nat) (st : sp_state) (t : list event)
    : Prop :=
  sp_index st = idx /\
  (length (sp_stock st) = L /\ length (sp_vol st) = L /\ length (sp_xi st) = L) /\
  (forall c, c < idx -> c mod N = 0 ->
     sp_stock st !! c = Some S_0 /\ sp_vol st !! c = Some sigma_0 /\
     sp_xi st !! c = Some xi_0) /\
  (forall c, c < idx -> c mod N <> 0 ->
     exists v x, sp_vol st !! (c - 1) = Some v /\ sp_xi st !! (c - 1) = Some x /\
                 sp_xi st !! c = Some (rk4_xi v x Dt alpha)) /\
  (forall b, stores b t = stores b t0 ++ seq 0 idx).

(* ===================================================================== *)
(** * Notions used in the further properties *)
(* ===================================================================== *)

(** The events of one pass of the loop over [j] that writes the cell [idx]
    (lines 79-104), of the pass of the loop over [i] for the path number [i]
    (lines 71-105), and of a whole run of [stockPath]. *)
Definition step_events (idx : nat) : list event :=
  [EvDraw StockStream; EvDraw VolStream;
   EvStore StockBuf idx; EvStore VolBuf idx; EvStore XiBuf idx].
Definition sample_events (N i : nat) : list event :=
  [EvStore StockBuf (i * N); EvStore VolBuf (i * N); EvStore XiBuf (i * N)]
  ++ flat_map (fun j => step_events (i * N + j)) (seq 1 (N - 1)).
Definition stockPath_events (samples N : nat) : list event :=
  flat_map (sample_events N) (seq 0 samples).

#[global] Instance stream_eq_dec : EqDecision stream.
Proof. solve_decision. Defined.
#[global] Instance event_eq_dec : EqDecision event.
Proof. solve_decision. Defined.

(** How often the stream [s] is drawn in the events [t]. *)
Definition draw_count (s : stream) (t : list event) : nat :=
  length (filter (fun e => e = EvDraw s) t).

(** The state of [stockPath] after [d] draws from each of the streams that
    start in [rs] and [rv], when the cells before [idx] are written and the
    events [evs] have been added to [t0]: every cell [j >= 1] of a path is the
    step of the scheme [(fs, fv)] from the cell before it, driven by the next
    variate of its stream times [sqrt(Dt)]. *)
Definition run_inv {F} `{Arith F} `{Gsl F} (fs fv : step_fn F) (Dt mu p : F)
    (rs rv : gsl_rng) (N L : nat) (t0 : list event)
    (idx d : nat) (evs : list event) (st : sp_state) (t : list event) : Prop :=
  sp_index st = idx /\
  (length (sp_stock st) = L /\ length (sp_vol st) = L /\ length (sp_xi st) = L) /\
  (sp_rng_stock st = gsl_state_after d rs /\ sp_rng_vol st = gsl_state_after d rv) /\
  t = t0 ++ evs /\
  forall s j, 1 <= j < N -> s * N + j < idx ->
    exists s_prev v_prev x_prev,
      sp_stock st !! (s * N + j - 1) = Some s_prev /\
      sp_vol st !! (s * N + j - 1) = Some v_prev /\
      sp_xi st !! (s * N + j - 1) = Some x_prev /\
      sp_stock st !! (s * N + j)
        = Some (fs s_prev v_prev mu Dt
                  (fmul (gsl_variate (s * (N - 1) + j - 1) rs) (fsqrt Dt))) /\
      sp_vol st !! (s * N + j)
        = Some (fv v_prev x_prev p Dt
                  (fmul (gsl_variate (s * (N - 1) + j - 1) rv) (fsqrt Dt))).

(** Two states of [stockPath] over buffers of [L] cells that agree on the
    volatility side: the volatility generator, the volatility and xi
    buffers and the current cell. *)
Definition same_vol_side {F} `{Gsl F} (L : nat) (s1 s2 : sp_state) : Prop :=
  sp_rng_vol s1 = sp_rng_vol s2 /\ sp_vol s1 = sp_vol s2 /\ sp_xi s1 = sp_xi s2 /\
  sp_index s1 = sp_index s2 /\
  length (sp_stock s1) = L /\ length (sp_stock s2) = L /\
  length (sp_vol s1) = L /\ length (sp_xi s1) = L.

Section MatlabStreams.
Context {F : Type} `{Matlab F}.

(** The host's generator after one draw and after [k] draws, and the
    variate of the draw number [k] (counted from 0) from the state [g]. *)
Definition randn_next (g : randn_state) : randn_state := (randn g).2.
Definition randn_state_after (k : nat) (g : randn_state) : randn_state :=
  Nat.iter k randn_next g.
Definition randn_variate (k : nat) (g : randn_state) : F :=
  (randn (randn_state_after k g)).1.

End MatlabStreams.

(** The cell [(i, j)] of the three matrices of [NumWrapper] is the step from
    the cell [(i, j - 1)] with the increments [dW] (stock) and [dW1]
    (volatility): lines 59-73. *)
Definition nw_cell {F} `{Arith F} (fs fv : step_fn F) (Dt mu p alpha : F)
    (a : nw_paths) (i j : nat) (dW dW1 : F) : Prop :=
  exists s v x,
    mat2_get (stockPaths a) i (j - 1) = Some s /\
    mat2_get (volPaths a) i (j - 1) = Some v /\
    mat2_get (xiPaths a) i (j - 1) = Some x /\
    mat2_get (stockPaths a) i j = Some (fs s v mu Dt dW) /\
    mat2_get (volPaths a) i j = Some (fv v x p Dt dW1) /\
    mat2_get (xiPaths a) i j = Some (rk4_xit v x Dt alpha).

(** Two sets of matrices with the same cells outside [(i, j)]. *)
Definition nw_same_but {F} (i j : nat) (a a' : @nw_paths F) : Prop :=
  forall i' j', i' <> i \/ j' <> j ->
    mat2_get (stockPaths a') i' j' = mat2_get (stockPaths a) i' j' /\
    mat2_get (volPaths a') i' j' = mat2_get (volPaths a) i' j' /\
    mat2_get (xiPaths a') i' j' = mat2_get (xiPaths a) i' j'.

(** ** The averages of [NumWrapper.m] *)

(** MATLAB's [sum] of the elements of a vector.  The host does not document
    the order in which it adds doubles, so the sum is a parameter. *)
Class MatlabSum (F : Type) : Type := {
  sum_elements : list F -> F;
}.

Section Averages.
Context {F : Type} `{Arith F} `{MatlabSum F}.

(** [M(:, j)] *)
Definition mat2_column (M : list (list F)) (j : nat) : list F :=
  omap (fun row => mat_get row j) M.

(** [sum(M)] for a matrix with at least one row: [sum] works along the
    first dimension whose size is not 1, so it adds up the elements of a
    single row, and the columns of any other matrix.  (The list of rows of
    a matrix without rows does not record its width.) *)
Definition mat2_sum (M : list (list F)) : list F :=
  match M with
  | [row] => [sum_elements row]
  | _ => (fun j => sum_elements (mat2_column M j)) <$> seq 1 (length (hd [] M))
  end.

(** Lines 78-80: [stockAvg], [volAvg] and [xiAvg], for at least one sample. *)
Definition NumWrapper_averages (samples : nat) (a : @nw_paths F)
    : list F * list F * list F :=
  let avg M := (fun x => fdiv x (flit (inject_Z (Z.of_nat samples)))) <$> mat2_sum M in
  (avg (stockPaths a), avg (volPaths a), avg (xiPaths a)).

(** What lines 78-80 make of a matrix [M] of [samples] rows and [n] columns:
    with one row a single number, the sum of the row over [samples]; with
    more rows one number per column, the sum of the column over [samples]. *)
Definition averaged (samples n : nat) (M : list (list F)) (avg : list F) : Prop :=
  let c := flit (inject_Z (Z.of_nat samples)) in
  (samples = 1 ->
   exists row, M = [row] /\ length row = n /\ avg = [fdiv (sum_elements row) c]) /\
  (2 <= samples ->
   length avg = n /\
   forall j, 1 <= j <= n ->
     length (mat2_column M j) = samples /\
     mat_get avg j = Some (fdiv (sum_elements (mat2_column M j)) c)).

End Averages.

(* ===================================================================== *)
(** * Example runs on binary64 *)
(* ===================================================================== *)

Module Examples.
Import Binary64 Exact.

(** Generators that draw 2.0 every time, twelve times. *)
Definition draws : list float := replicate 12 2%float.
Definition gsl : Gsl float := scripted_gsl (fun _ => draws).
Definition matlab : Matlab float := scripted_matlab (fun _ => draws).

(** A call of the MEX-file with three outputs and
    [randstate = 42], [Dt = 0.25], [sigma_0 = 0], [S_0 = 1], [xi_0 = 1],
    [mu = 0], [p = 0], [alpha = 1], run from an empty trace. *)
Definition call (samples T : float) (num_method : string)
    : outcome (mxMatrix float * mxMatrix float * mxMatrix float) * list event :=
  @mexFunction float Binary64.arith gsl rk_stand_in 3
    (stocksim_args 42 samples 0.25 0 1 1 0 0 1 T num_method)%float [].

(** The work vectors of [euler_weak.m] when the reference loop starts
    (lines 12-14, 22-24), and draw vectors made of ones. *)
Definition ones : list float := replicate 32000 1%float.
Definition start : @paths float :=
  Paths (<[0%nat := flit 50.0]> (replicate 32000 (flit 0)))
        (<[0%nat := flit 0.2]> (replicate 32000 (flit 0)))
        (<[0%nat := flit 0.2]> (replicate 32000 (flit 0))).

(** The reference loop of the script with these draws (lines 28-38). *)
Definition reference_pass (i : nat) (a : @paths float) : option paths :=
  fine_body (flit 0.0001) (flit 0.1) (flit 1) (flit 1) ones ones i a.

(** [stockPath] for one path of three steps, on zeroed buffers, with the
    parameters of [call]. *)
Definition path_run (num_method : method) : outcome sp_state * list event :=
  @stockPath float Binary64.arith gsl rk_stand_in draws draws
    1%nat 0.25%float 0%float 1%float 1%float 0%float 0%float 1%float 3%nat
    num_method
    (replicate 3 0%float) (replicate 3 0%float) (replicate 3 0%float) [].

(** Work vectors of two points, and one pass of the reference loop on them
    with [dtex = 1], [mu = 0], [p = 0], [alfa = 1] and draws equal to 0. *)
Definition tiny : @paths float :=
  Paths [1%float; 0%float] [1%float; 0%float] [0%float; 0%float].
Definition tiny_pass : option (@paths float) :=
  fine_body 1%float 0%float 0%float 1%float
    [0%float; 0%float] [0%float; 0%float] 2 tiny.

(** [stockPath] for one path of two steps with [Dt = 0.25], [sigma_0 = 1],
    [S_0 = 1], [xi_0 = 0], [mu = 0], [p = 0] and [alpha = 3]. *)
Definition relaxation_run : outcome sp_state * list event :=
  @stockPath float Binary64.arith gsl rk_stand_in draws draws
    1%nat 0.25%float 1%float 1%float 0%float 0%float 0%float 3%float 2%nat
    EULER
    (replicate 2 0%float) (replicate 2 0%float) (replicate 2 0%float) [].

(** Generators that draw 0.5 every time. *)
Definition halves : list float := replicate 12 0.5%float.
Definition gsl_halves : Gsl float := scripted_gsl (fun _ => halves).

(** A call of the MEX-file with [p = 0] for one sample, with [mu = 0] and
    [alpha = 1], run from an empty trace. *)
Definition call_p0 (G : Gsl float) (Dt sigma_0 S_0 xi_0 T : float)
    (num_method : string)
    : outcome (mxMatrix float * mxMatrix float * mxMatrix float) * list event :=
  @mexFunction float Binary64.arith G rk_stand_in 3
    (stocksim_args 42 1 Dt sigma_0 S_0 xi_0 0 0 1 T num_method)%float [].

(** [stockPath] at rest for one path of three steps, on zeroed buffers:
    [Dt = 0.25], [sigma_0 = 0], [S_0 = 1], [xi_0 = 0], [mu = 0], [p = 0],
    [alpha = 1] and draws equal to 2. *)
Definition rest_run (num_method : method) : outcome sp_state * list event :=
  @stockPath float Binary64.arith gsl rk_stand_in draws draws
    1%nat 0.25%float (flit 0) 1%float (flit 0) 0%float (flit 0) 1%float 3%nat
    num_method
    (replicate 3 0%float) (replicate 3 0%float) (replicate 3 0%float) [].

(** [NumWrapper] on binary64 for two paths of three steps, with the
    parameters of [call]. *)
Definition wrapper_run (numMethod : string) : option (@nw_paths float) :=
  @NumWrapper float Binary64.arith matlab rk_stand_in
    42%float 2 0.25%float 0%float 1%float 1%float 0%float 0%float 1%float 3
    numMethod.

(** The MATLAB generator in exact arithmetic, drawing 2 every time. *)
Definition exact_matlab : Matlab Qc := scripted_matlab (fun _ => [2; 2; 2; 2]%Qc).

(** Eleven draws, for groups of two. *)
Definition eleven : list float :=
  [9; 1; 2; 3; 4; 5; 6; 7; 8; 9; 10]%float.

(** The assignments of lines 32-36 (Milstein) and of lines 56-58 (Euler)
    of [euler_weak.m], each made twice on the same three points with
    [S(1) = 1], [sig(1) = 0], [xi(1) = 1], step 0.25, [mu = 0], [p = 0],
    [alfa = 1] and both increments equal to 1. *)
Definition at_rest : @paths float :=
  Paths [1; 0; 0]%float [0; 0; 0]%float [1; 0; 0]%float.
Definition milstein_passes : option (@paths float) :=
  a ← fine_update 0.25%float 0%float 0%float 1%float 1%float 1%float 2 at_rest;
  fine_update 0.25%float 0%float 0%float 1%float 1%float 1%float 3 a.
Definition euler_passes : option (@paths float) :=
  a ← coarse_update 0.25%float 0%float 0%float 1%float 1%float 1%float 2 at_rest;
  coarse_update 0.25%float 0%float 0%float 1%float 1%float 1%float 3 a.

(** [sig(2)], [xi(2)] and [xi(3)] after the first two passes. *)
Definition reference_xi3 : option (float * float * float) :=
  a2 ← reference_pass 2 start;
  a3 ← reference_pass 3 a2;
  v ← mat_get (sig a2) 2;
  x ← mat_get (xi a2) 2;
  y ← mat_get (xi a3) 3;
  Some (v, x, y).

End Examples.

(* ===================================================================== *)
(** * Example runs for the further properties *)
(* ===================================================================== *)

Module Runs.
Import Binary64 Exact.

(** The sum of a vector added from left to right. *)
Definition left_sum : MatlabSum float :=
  {| sum_elements := foldl PrimFloat.add 0%float |}.

(** A second generator, drawing 3.0 every time. *)
Definition threes : list float := replicate 12 3%float.

(** [stockPath] as in [Examples.path_run], but with [S_0 = 5], [mu = 1], the
    stock generator [threes] and a stock buffer filled with sevens. *)
Definition other_stock_run (num_method : method) : outcome sp_state * list event :=
  @stockPath float Binary64.arith Examples.gsl rk_stand_in threes Examples.draws
    1%nat 0.25%float 0%float 5%float 1%float 1%float 0%float 1%float 3%nat
    num_method
    (replicate 3 7%float) (replicate 3 0%float) (replicate 3 0%float) [].

(** Two states of [euler_weak.m] before a repetition that differ in the work
    vectors only, in exact arithmetic. *)
Definition before (x : Qc) : @ew_state Qc Examples.exact_matlab :=
  @EwState Qc Examples.exact_matlab
    (Paths (replicate 32000 x) (replicate 32000 x) (replicate 32000 x))
    (replicate 4 (flit 0)) (flit 0) ([] : list Qc).

(** Work vectors of four points that start in (1, 1, 0), and a draw vector
    of eight ones. *)
Definition tiny4 (x : float) : @paths float :=
  Paths [1; x; x; x]%float [1; x; x; x]%float [0; x; x; x]%float.
Definition eight : list float := replicate 8 1%float.

End Runs.

(* ===================================================================== *)
(** * Reasoning about MEX computations *)
(* ===================================================================== *)

Section MexFacts.
Context {A B : Type}.

Lemma mex_bind_unfold (m : mex A) (f : A -> mex B) t :
  (m ≫= f) t = match m t with
               | (Done a, t') => f a t'
               | (MexErr msg, t') => (MexErr msg, t')
               | (Faulted e, t') => (Faulted e, t')
               end.
Proof. reflexivity. Qed.

Lemma bind_done (m : mex A) (f : A -> mex B) t a t' :
  m t = (Done a, t') -> (m ≫= f) t = f a t'.
Proof. intros E. rewrite mex_bind_unfold, E. reflexivity. Qed.

Lemma bind_done_inv (m : mex A) (f : A -> mex B) t b t2 :
  (m ≫= f) t = (Done b, t2) ->
  exists a t1, m t = (Done a, t1) /\ f a t1 = (Done b, t2).
Proof.
  rewrite mex_bind_unfold. destruct (m t) as [[a|msg|e] t1]; try discriminate.
  eauto.
Qed.

End MexFacts.

Lemma load_done {F} (buf : list F) i v t :
  buf !! i = Some v -> load buf i t = (Done v, t).
Proof. intros E. unfold load. rewrite E. reflexivity. Qed.

Lemma load_before_done {F} (buf : list F) i v t :
  i <> 0 -> buf !! (i - 1) = Some v -> load_before buf i t = (Done v, t).
Proof.
  intros Hi E. destruct i; [congruence|]. simpl in *.
  rewrite Nat.sub_0_r in E. apply load_done. exact E.
Qed.

Lemma store_done {F} b (buf : list F) i v t :
  i < length buf -> store b buf i v t = (Done (<[i:=v]> buf), t ++ [EvStore b i]).
Proof. intros E. unfold store. destruct (decide _); [reflexivity | lia]. Qed.

Lemma stores_app b t1 t2 : stores b (t1 ++ t2) = stores b t1 ++ stores b t2.
Proof. apply omap_app. Qed.

(** A loop invariant proves the whole loop: [I k] holds before the pass
    number [k] (counted from 0). *)
Lemma for_each_invariant {S} (I : nat -> S -> list event -> Prop)
    (l : list nat) (body : nat -> S -> mex S) :
  (forall k i s t, l !! k = Some i -> I k s t ->
     exists s' t', body i s t = (Done s', t') /\ I (Datatypes.S k) s' t') ->
  forall s t, I 0 s t ->
    exists s' t', for_each l body s t = (Done s', t') /\ I (length l) s' t'.
Proof.
  revert I. induction l as [|i l IH]; intros I Hbody s t H0; simpl.
  - eauto.
  - destruct (Hbody 0 i s t eq_refl H0) as (s1 & t1 & E1 & H1).
    rewrite (bind_done _ _ _ _ _ E1).
    apply (IH (fun k => I (Datatypes.S k))); [|assumption].
    intros k j s2 t2 Hk. apply (Hbody (Datatypes.S k)). exact Hk.
Qed.

Section Closure.
Context {A B : Type}.

Lemma oblivious_ret (a : A) : oblivious (mret a).
Proof. exists (Done a), []. intros t. rewrite app_nil_r. reflexivity. Qed.

Lemma oblivious_err (msg : string) : oblivious (@mexErrMsgTxt A msg).
Proof. exists (MexErr msg), []. intros t. rewrite app_nil_r. reflexivity. Qed.

Lemma oblivious_fault (f : fault) : oblivious (@raise_fault A f).
Proof. exists (Faulted f), []. intros t. rewrite app_nil_r. reflexivity. Qed.

Lemma oblivious_bind (m : mex A) (f : A -> mex B) :
  oblivious m -> (forall a, oblivious (f a)) -> oblivious (m ≫= f).
Proof.
  intros (o & evs & Hm) Hf. destruct o as [a|msg|e].
  - destruct (Hf a) as (o' & evs' & Hfa). exists o', (evs ++ evs').
    intros t. rewrite (bind_done _ _ _ _ _ (Hm t)), Hfa, app_assoc. reflexivity.
  - exists (MexErr msg), evs. intros t. rewrite mex_bind_unfold, Hm. reflexivity.
  - exists (Faulted e), evs. intros t. rewrite mex_bind_unfold, Hm. reflexivity.
Qed.

Lemma quiet_ret (a : A) : quiet (mret a).
Proof. intros t msg t'. discriminate. Qed.

Lemma quiet_fault (f : fault) : quiet (@raise_fault A f).
Proof. intros t msg t'. discriminate. Qed.

Lemma quiet_bind (m : mex A) (f : A -> mex B) :
  quiet m -> (forall a, quiet (f a)) -> quiet (m ≫= f).
Proof.
  intros Hm Hf t msg t'. rewrite mex_bind_unfold.
  destruct (m t) as [[a|msg1|e] t1] eqn:E.
  - apply Hf.
  - exfalso. exact (Hm _ _ _ E).
  - discriminate.
Qed.

End Closure.

Lemma oblivious_emit e : oblivious (emit e).
Proof. exists (Done tt), [e]. reflexivity. Qed.

Lemma quiet_emit e : quiet (emit e).
Proof. intros t msg t'. discriminate. Qed.

Lemma oblivious_load {F} (buf : list F) i : oblivious (load buf i).
Proof.
  unfold load. destruct (buf !! i); [apply oblivious_ret | apply oblivious_fault].
Qed.

Lemma quiet_load {F} (buf : list F) i : quiet (load buf i).
Proof. unfold load. destruct (buf !! i); [apply quiet_ret | apply quiet_fault]. Qed.

Lemma oblivious_load_before {F} (buf : list F) i : oblivious (load_before buf i).
Proof. destruct i; [apply oblivious_fault | apply oblivious_load]. Qed.

Lemma quiet_load_before {F} (buf : list F) i : quiet (load_before buf i).
Proof. destruct i; [apply quiet_fault | apply quiet_load]. Qed.

Lemma oblivious_store {F} b (buf : list F) i v : oblivious (store b buf i v).
Proof.
  unfold store. destruct (decide _); [|apply oblivious_fault].
  apply oblivious_bind; [apply oblivious_emit | intros; apply oblivious_ret].
Qed.

Lemma quiet_store {F} b (buf : list F) i v : quiet (store b buf i v).
Proof.
  unfold store. destruct (decide _); [|apply quiet_fault].
  apply quiet_bind; [apply quiet_emit | intros; apply quiet_ret].
Qed.

Lemma oblivious_for_each {S} (l : list nat) (body : nat -> S -> mex S) :
  (forall i s, oblivious (body i s)) -> forall s, oblivious (for_each l body s).
Proof.
  intros Hbody. induction l as [|i l IH]; intros s; simpl.
  - apply oblivious_ret.
  - apply oblivious_bind; [apply Hbody | exact IH].
Qed.

Lemma quiet_for_each {S} (l : list nat) (body : nat -> S -> mex S) :
  (forall i s, quiet (body i s)) -> forall s, quiet (for_each l body s).
Proof.
  intros Hbody. induction l as [|i l IH]; intros s; simpl.
  - apply quiet_ret.
  - apply quiet_bind; [apply Hbody | exact IH].
Qed.

Create HintDb mexdb.
#[local] Hint Resolve oblivious_ret oblivious_err oblivious_fault oblivious_emit
  oblivious_load oblivious_load_before oblivious_store quiet_ret quiet_fault
  quiet_emit quiet_load quiet_load_before quiet_store : mexdb.

(** Goals [oblivious m] and [quiet m] for a straight-line [m]. *)
Ltac mex_closure :=
  repeat first
    [ solve [auto with mexdb]
    | apply oblivious_bind; [|intros]
    | apply quiet_bind; [|intros]
    | match goal with
      | |- oblivious (let '(_, _) := ?x in _) => destruct x
      | |- quiet (let '(_, _) := ?x in _) => destruct x
      | |- oblivious (if ?b then _ else _) => destruct b
      | |- quiet (if ?b then _ else _) => destruct b
      end ].

(* ===================================================================== *)
(** * Facts about [stockPath] *)
(* ===================================================================== *)

Section StockPathFacts.
Context {F : Type} `{Arith F} `{Gsl F} `{RungeKutta F}.
Variables (f_stock f_vol : step_fn F) (Dt sigma_0 S_0 xi_0 mu p alpha : F).
Variables (N L : nat) (t0 : list event).

Abbreviation inv := (sp_inv Dt sigma_0 S_0 xi_0 alpha N L t0).

Lemma stores_snoc_same b t i : stores b (t ++ [EvStore b i]) = stores b t ++ [i].
Proof.
  rewrite stores_app. f_equal. unfold stores. simpl.
  destruct (decide (b = b)); [reflexivity | congruence].
Qed.

Lemma stores_snoc_other b b' t i :
  b <> b' -> stores b (t ++ [EvStore b' i]) = stores b t.
Proof.
  intros Hne. rewrite stores_app. unfold stores at 2. simpl.
  destruct (decide (b = b')); [congruence | apply app_nil_r].
Qed.

Lemma stores_snoc_draw b t s : stores b (t ++ [EvDraw s]) = stores b t.
Proof. rewrite stores_app. apply app_nil_r. Qed.

Lemma stores_three b t i :
  stores b (((t ++ [EvStore StockBuf i]) ++ [EvStore VolBuf i]) ++ [EvStore XiBuf i])
  = stores b t ++ [i].
Proof.
  destruct b.
  - rewrite stores_snoc_other, stores_snoc_other, stores_snoc_same by discriminate.
    reflexivity.
  - rewrite stores_snoc_other, stores_snoc_same, stores_snoc_other by discriminate.
    reflexivity.
  - rewrite stores_snoc_same, stores_snoc_other, stores_snoc_other by discriminate.
    reflexivity.
Qed.

(** The first three stores of a path (lines 72-74). *)
Lemma sample_start_invariant idx st t :
  inv idx st t -> idx < L -> idx mod N = 0 ->
  exists sp vp xp t',
    (store StockBuf (sp_stock st) idx S_0 t = (Done sp, t ++ [EvStore StockBuf idx])) /\
    (store VolBuf (sp_vol st) idx sigma_0 (t ++ [EvStore StockBuf idx])
       = (Done vp, (t ++ [EvStore StockBuf idx]) ++ [EvStore VolBuf idx])) /\
    (store XiBuf (sp_xi st) idx xi_0
       ((t ++ [EvStore StockBuf idx]) ++ [EvStore VolBuf idx]) = (Done xp, t')) /\
    inv (S idx) (SpState (sp_rng_stock st) (sp_rng_vol st) sp vp xp (S idx)) t'.
Proof.
  intros (Hidx & (Hls & Hlv & Hlx) & Hinit & Hrk & Hst) Hlt Hmod.
  exists (<[idx:=S_0]> (sp_stock st)), (<[idx:=sigma_0]> (sp_vol st)),
         (<[idx:=xi_0]> (sp_xi st)).
  eexists. unfold sp_inv. cbn [sp_index sp_stock sp_vol sp_xi]. split_and!.
  1-3: apply store_done; lia.
  all: rewrite ?length_insert; try done.
  - intros c Hc Hcm. destruct (decide (c = idx)) as [->|Hne].
    + rewrite !list_lookup_insert_eq by lia. auto.
    + rewrite !list_lookup_insert_ne by lia. apply Hinit; [lia | assumption].
  - intros c Hc Hcm. destruct (decide (c = idx)) as [->|Hne]; [congruence|].
    rewrite !list_lookup_insert_ne by lia. apply Hrk; [lia | assumption].
  - intros b. rewrite stores_three, Hst, <- app_assoc. f_equal.
    rewrite seq_S. reflexivity.
Qed.

Lemma draw_done s (r : gsl_rng) t :
  draw s r t = (Done (gsl_ran_gaussian r (flit 1)), t ++ [EvDraw s]).
Proof. reflexivity. Qed.

(** One pass of the loop over [j] (lines 79-104). *)
Lemma step_invariant j idx st t :
  inv idx st t -> idx < L -> idx mod N <> 0 ->
  exists st' t',
    stockPath_step f_stock f_vol Dt mu p alpha j st t = (Done st', t') /\
    inv (S idx) st' t'.
Proof.
  intros (Hidx & (Hls & Hlv & Hlx) & Hinit & Hrk & Hst) Hlt Hmod.
  assert (idx <> 0) as Hnz by (intros ->; apply Hmod, Nat.Div0.mod_0_l).
  destruct (lookup_lt_is_Some_2 (sp_stock st) (idx - 1)) as [s_prev Hs]; [lia|].
  destruct (lookup_lt_is_Some_2 (sp_vol st) (idx - 1)) as [v_prev Hv]; [lia|].
  destruct (lookup_lt_is_Some_2 (sp_xi st) (idx - 1)) as [x_prev Hx]; [lia|].
  unfold stockPath_step. rewrite Hidx.
  rewrite (bind_done _ _ _ _ _ (draw_done _ _ _)).
  destruct (gsl_ran_gaussian (sp_rng_stock st) (flit 1)) as [g_stock rs].
  rewrite (bind_done _ _ _ _ _ (draw_done _ _ _)).
  destruct (gsl_ran_gaussian (sp_rng_vol st) (flit 1)) as [g_vol rv].
  rewrite (bind_done _ _ _ _ _ (load_before_done _ _ _ _ Hnz Hs)).
  rewrite (bind_done _ _ _ _ _ (load_before_done _ _ _ _ Hnz Hv)).
  erewrite bind_done by (apply store_done; lia).
  rewrite (bind_done _ _ _ _ _ (load_before_done _ _ _ _ Hnz Hv)).
  rewrite (bind_done _ _ _ _ _ (load_before_done _ _ _ _ Hnz Hx)).
  erewrite bind_done by (apply store_done; lia).
  erewrite (bind_done (load_before _ _)); cycle 1.
  { apply load_before_done; [exact Hnz|].
    rewrite list_lookup_insert_ne by lia. exact Hv. }
  rewrite (bind_done _ _ _ _ _ (load_before_done _ _ _ _ Hnz Hx)).
  erewrite bind_done by (apply store_done; lia).
  eexists _, _. split; [reflexivity|].
  unfold sp_inv. cbn [sp_index sp_stock sp_vol sp_xi]. split_and!.
  all: rewrite ?length_insert; try done.
  - intros c Hc Hcm. destruct (decide (c = idx)) as [->|Hne]; [congruence|].
    rewrite !list_lookup_insert_ne by lia. apply Hinit; [lia | assumption].
  - intros c Hc Hcm. destruct (decide (c = idx)) as [->|Hne].
    + exists v_prev, x_prev.
      rewrite !list_lookup_insert_ne by lia.
      rewrite list_lookup_insert_eq by lia. auto.
    + rewrite !list_lookup_insert_ne by lia. apply Hrk; [lia | assumption].
  - intros b. rewrite stores_three, !stores_snoc_draw, Hst, <- app_assoc.
    f_equal. rewrite seq_S. reflexivity.
Qed.

(** One pass of the loop over [i] (lines 71-105). *)
Lemma sample_invariant i st t :
  1 <= N -> S i * N <= L -> inv (i * N) st t ->
  exists st' t',
    stockPath_sample f_stock f_vol Dt sigma_0 S_0 xi_0 mu p alpha N i st t
      = (Done st', t') /\
    inv (S i * N) st' t'.
Proof.
  intros HN HL Hinv.
  assert (sp_index st = i * N) as Hidx by apply Hinv.
  destruct (sample_start_invariant (i * N) st t Hinv) as
    (sp & vp & xp & t1 & E1 & E2 & E3 & Hinv1).
  { simpl in HL. lia. }
  { apply Nat.Div0.mod_mul. }
  unfold stockPath_sample. rewrite Hidx.
  rewrite (bind_done _ _ _ _ _ E1), (bind_done _ _ _ _ _ E2),
    (bind_done _ _ _ _ _ E3).
  destruct (for_each_invariant (fun k => inv (i * N + 1 + k)) (seq 1 (N - 1))
              (stockPath_step f_stock f_vol Dt mu p alpha)) with
    (s := SpState (sp_rng_stock st) (sp_rng_vol st) sp vp xp (S (i * N)))
    (t := t1) as (st' & t' & E & Hinv').
  - intros k j s2 t2 Hk Hk2. apply lookup_seq in Hk as [-> Hk].
    replace (S (i * N + 1 + k)) with (S (i * N + 1 + k)) by reflexivity.
    destruct (step_invariant (1 + k) (i * N + 1 + k) s2 t2 Hk2) as (s3 & t3 & E & H3).
    + simpl in HL. lia.
    + replace (i * N + 1 + k) with ((1 + k) + i * N) by lia.
      rewrite Nat.Div0.mod_add, Nat.mod_small by lia. lia.
    + exists s3, t3. split; [exact E|].
      replace (i * N + 1 + S k) with (S (i * N + 1 + k)) by lia. exact H3.
  - replace (i * N + 1 + 0) with (S (i * N)) by lia. exact Hinv1.
  - exists st', t'. split; [exact E|].
    rewrite length_seq in Hinv'.
    replace (S i * N) with (i * N + 1 + (N - 1)) by (simpl; lia). exact Hinv'.
Qed.

End StockPathFacts.

Section StockPathTotal.
Context {F : Type} `{Arith F} `{Gsl F} `{RungeKutta F}.

(** [stockPath] runs to completion on buffers of [samples * N] cells when
    the paths have at least one step (or there is no path at all), and
    leaves the buffers in the state described by [sp_inv]. *)
Lemma stockPath_invariant (rs rv : gsl_rng) samples Dt sigma_0 S_0 xi_0 mu p alpha
    N num_method (sp vp xp : list F) t0 :
  num_method <> NO_METHOD ->
  samples = 0 \/ 1 <= N ->
  length sp = samples * N -> length vp = samples * N -> length xp = samples * N ->
  exists st' t',
    stockPath rs rv samples Dt sigma_0 S_0 xi_0 mu p alpha N num_method sp vp xp t0
      = (Done st', t') /\
    sp_inv Dt sigma_0 S_0 xi_0 alpha N (samples * N) t0 (samples * N) st' t'.
Proof.
  intros Hm HN Hls Hlv Hlx. unfold stockPath.
  assert (exists fs fv, select_method num_method t0 = (Done (fs, fv), t0))
    as (fs & fv & Esel).
  { destruct num_method; [eexists _, _; reflexivity .. | congruence]. }
  rewrite (bind_done _ _ _ _ _ Esel).
  destruct (for_each_invariant
              (fun k => sp_inv Dt sigma_0 S_0 xi_0 alpha N (samples * N) t0 (k * N))
              (seq 0 samples)
              (stockPath_sample fs fv Dt sigma_0 S_0 xi_0 mu p alpha N)) with
    (s := SpState rs rv sp vp xp 0) (t := t0) as (st' & t' & E & Hinv').
  - intros k i s t Hk Hinv. apply lookup_seq in Hk as [-> Hk]. simpl.
    apply sample_invariant; [lia | | exact Hinv].
    apply Nat.mul_le_mono_r. lia.
  - unfold sp_inv. cbn [sp_index sp_stock sp_vol sp_xi]. simpl.
    split_and!; try done; try (intros; lia).
    intros b. symmetry. apply app_nil_r.
  - exists st', t'. split; [exact E|]. rewrite length_seq in Hinv'. exact Hinv'.
Qed.

Lemma oblivious_stockPath_step (fs fv : step_fn F) Dt mu p alpha j st :
  oblivious (stockPath_step fs fv Dt mu p alpha j st).
Proof. unfold stockPath_step, draw. mex_closure. Qed.

Lemma quiet_stockPath_step (fs fv : step_fn F) Dt mu p alpha j st :
  quiet (stockPath_step fs fv Dt mu p alpha j st).
Proof. unfold stockPath_step, draw. mex_closure. Qed.

Lemma oblivious_stockPath (rs rv : gsl_rng) samples Dt sigma_0 S_0 xi_0 mu p alpha
    N num_method (sp vp xp : list F) :
  oblivious
    (stockPath rs rv samples Dt sigma_0 S_0 xi_0 mu p alpha N num_method sp vp xp).
Proof.
  unfold stockPath. apply oblivious_bind.
  - destruct num_method; simpl; auto with mexdb.
  - intros [fs fv]. apply oblivious_for_each. intros i s.
    unfold stockPath_sample. mex_closure.
    apply oblivious_for_each. intros. apply oblivious_stockPath_step.
Qed.

Lemma quiet_stockPath (rs rv : gsl_rng) samples Dt sigma_0 S_0 xi_0 mu p alpha
    N num_method (sp vp xp : list F) :
  num_method <> NO_METHOD ->
  quiet (stockPath rs rv samples Dt sigma_0 S_0 xi_0 mu p alpha N num_method sp vp xp).
Proof.
  intros Hm. unfold stockPath. apply quiet_bind.
  - destruct num_method; simpl; auto with mexdb. congruence.
  - intros [fs fv]. apply quiet_for_each. intros i s.
    unfold stockPath_sample. mex_closure.
    apply quiet_for_each. intros. apply quiet_stockPath_step.
Qed.

(** Paths without a single step cannot be stored: the first store of the
    first path already falls outside the (empty) buffers. *)
Lemma stockPath_no_steps (rs rv : gsl_rng) samples Dt sigma_0 S_0 xi_0 mu p alpha
    num_method (vp xp : list F) t :
  num_method <> NO_METHOD -> 0 < samples ->
  stockPath rs rv samples Dt sigma_0 S_0 xi_0 mu p alpha 0 num_method [] vp xp t
    = (Faulted OutOfBounds, t).
Proof.
  intros Hm Hs. destruct samples as [|n]; [lia|].
  destruct num_method; try congruence; reflexivity.
Qed.

End StockPathTotal.

(* ===================================================================== *)
(** * Facts about [mexFunction] *)
(* ===================================================================== *)

Lemma strncmp_prefix (p s : string) :
  strncmp_eq0 s p (String.length p) = String.prefix p s.
Proof.
  revert s. induction p as [|c p IH]; intros s; simpl.
  - destruct s; reflexivity.
  - destruct s as [|c' s]; [reflexivity|]. simpl. rewrite IH.
    destruct (Ascii.ascii_dec c c') as [->|Hne].
    + rewrite Ascii.eqb_refl. reflexivity.
    + assert (Ascii.eqb c' c = false) as ->;
        [apply Ascii.eqb_neq; congruence | reflexivity].
Qed.

Section GatewayFacts.
Context {F : Type} `{Arith F} `{Gsl F} `{RungeKutta F}.

Lemma parse_method_eq name t :
  parse_method name t =
    if recognised name then (Done (method_of name), t)
    else (MexErr "Only 'euler', 'milstein' and 'rk' are implemented", t).
Proof.
  unfold parse_method, recognised, method_of. rewrite !strncmp_prefix.
  destruct (String.prefix "euler" name); [reflexivity|].
  destruct (String.prefix "milstein" name); [reflexivity|].
  destruct (String.prefix "rk" name); reflexivity.
Qed.

Lemma method_of_recognised name : recognised name = true -> method_of name <> NO_METHOD.
Proof.
  unfold recognised, method_of.
  destruct (String.prefix "euler" name); [discriminate|].
  destruct (String.prefix "milstein" name); [discriminate|].
  destruct (String.prefix "rk" name); discriminate.
Qed.

(** What [mexFunction] does on a well-typed call with three outputs. *)
Lemma mexFunction_on_args randstate samples_in Dt sigma_0 S_0 xi_0 mu p alpha T name t :
  mexFunction 3
    (stocksim_args randstate samples_in Dt sigma_0 S_0 xi_0 mu p alpha T name) t =
  if fgt alpha (flit 0) then
    let N := lround (T / Dt)%fl in
    let samples := lround samples_in in
    if decide (0 <= N /\ 0 <= samples)%Z then
      let zeros := replicate (Z.to_nat (N * samples)) (flit 0) in
      let t1 := t ++ [EvCreateMatrix N samples; EvCreateMatrix N samples;
                      EvCreateMatrix N samples] in
      if recognised name then
        match stockPath (gsl_rng_set gsl_rng_alloc randstate)
                (gsl_rng_set gsl_rng_alloc (randstate + flit 1)%fl)
                (Z.to_nat samples) Dt sigma_0 S_0 xi_0 mu p alpha (Z.to_nat N)
                (method_of name) zeros zeros zeros
                (t1 ++ [EvRngAlloc; EvRngAlloc; EvRngSet; EvRngSet]) with
        | (Done st, t3) =>
            (Done (MxMatrix N samples (sp_stock st),
                   MxMatrix N samples (sp_vol st),
                   MxMatrix N samples (sp_xi st)),
             t3 ++ [EvRngFree; EvRngFree])
        | (MexErr msg, t3) => (MexErr msg, t3)
        | (Faulted f, t3) => (Faulted f, t3)
        end
      else (MexErr "Only 'euler', 'milstein' and 'rk' are implemented", t1)
    else (Faulted OutOfMemory, t)
  else (MexErr "alpha must be larger than zero", t).
Proof.
  unfold mexFunction, stocksim_args.
  destruct (decide (3%Z <> 3%Z)) as [Hne|_]; [congruence|].
  cbn [mxIsDouble mxIsChar negb orb mxGetPr mxArrayToString].
  unfold mxCreateDoubleMatrix.
  cbv beta iota zeta delta [mbind mex_bind mret mex_ret emit raise_fault mexErrMsgTxt].
  destruct (fgt alpha (flit 0)); cbn [negb]; [|reflexivity].
  destruct (decide (0 <= lround (T / Dt)%fl /\ 0 <= lround samples_in)%Z);
    [|reflexivity].
  rewrite parse_method_eq.
  destruct (recognised name).
  2:{ rewrite <- !app_assoc. reflexivity. }
  rewrite <- !app_assoc. cbn [app].
  destruct (stockPath _ _ _ _ _ _ _ _ _ _ _ _ _ _ _ _) as [[st|msg|f] t3];
    [|reflexivity..].
  rewrite <- !app_assoc. reflexivity.
Qed.

(** A call that returns has passed every check, and its matrices are the
    buffers that [stockPath] filled. *)
Lemma mexFunction_done_inv randstate samples_in Dt sigma_0 S_0 xi_0 mu p alpha T
    name t ms mv mx t' :
  mexFunction 3
    (stocksim_args randstate samples_in Dt sigma_0 S_0 xi_0 mu p alpha T name) t
    = (Done (ms, mv, mx), t') ->
  let N := lround (T / Dt)%fl in
  let samples := lround samples_in in
  let t2 := t ++ [EvCreateMatrix N samples; EvCreateMatrix N samples;
                  EvCreateMatrix N samples; EvRngAlloc; EvRngAlloc;
                  EvRngSet; EvRngSet] in
  fgt alpha (flit 0) = true /\ (0 <= N /\ 0 <= samples)%Z /\
  recognised name = true /\
  (Z.to_nat samples = 0 \/ 1 <= Z.to_nat N) /\
  exists st tmid,
    ms = MxMatrix N samples (sp_stock st) /\
    mv = MxMatrix N samples (sp_vol st) /\
    mx = MxMatrix N samples (sp_xi st) /\
    t' = tmid ++ [EvRngFree; EvRngFree] /\
    sp_inv Dt sigma_0 S_0 xi_0 alpha (Z.to_nat N)
      (Z.to_nat samples * Z.to_nat N) t2 (Z.to_nat samples * Z.to_nat N) st tmid.
Proof.
  intros Hrun N samples t2. rewrite mexFunction_on_args in Hrun.
  destruct (fgt alpha (flit 0)); [|discriminate].
  cbv zeta in Hrun. fold N samples in Hrun.
  destruct (decide (0 <= N /\ 0 <= samples)%Z) as [[HN Hs]|]; [|discriminate].
  destruct (recognised name) eqn:Hrec; [|discriminate].
  pose proof (method_of_recognised _ Hrec) as Hm.
  rewrite <- app_assoc in Hrun. cbn [app] in Hrun. fold t2 in Hrun.
  assert (Z.to_nat (N * samples) = Z.to_nat samples * Z.to_nat N) as Hlen.
  { rewrite Z.mul_comm. apply Z2Nat.inj_mul; assumption. }
  rewrite Hlen in Hrun.
  assert (Z.to_nat samples = 0 \/ 1 <= Z.to_nat N) as Hsteps.
  { destruct (Z.to_nat samples) as [|n] eqn:En; [left; reflexivity|].
    destruct (Z.to_nat N) as [|k] eqn:Ek; [|right; lia].
    exfalso. rewrite Nat.mul_0_r in Hrun. simpl replicate in Hrun.
    rewrite stockPath_no_steps in Hrun by (assumption || lia). discriminate. }
  split_and!; try done.
  destruct (stockPath_invariant (gsl_rng_set gsl_rng_alloc randstate)
              (gsl_rng_set gsl_rng_alloc (randstate + flit 1)%fl)
              (Z.to_nat samples) Dt sigma_0 S_0 xi_0 mu p alpha (Z.to_nat N)
              (method_of name)
              (replicate (Z.to_nat samples * Z.to_nat N) (flit 0))
              (replicate (Z.to_nat samples * Z.to_nat N) (flit 0))
              (replicate (Z.to_nat samples * Z.to_nat N) (flit 0)) t2)
    as (st & tmid & Erun & Hinv);
    [assumption | assumption | apply length_replicate .. |].
  rewrite Erun in Hrun. injection Hrun as <- <- <- <-.
  exists st, tmid. split_and!; done.
Qed.

Lemma oblivious_mxGetPr (a : mxArray F) : oblivious (mxGetPr a).
Proof. destruct a; simpl; auto with mexdb. Qed.

Lemma oblivious_mxArrayToString (a : mxArray F) : oblivious (mxArrayToString a).
Proof. destruct a; simpl; auto with mexdb. Qed.

Lemma oblivious_mxCreateDoubleMatrix m n : oblivious (mxCreateDoubleMatrix m n).
Proof. unfold mxCreateDoubleMatrix. mex_closure. Qed.

Lemma oblivious_parse_method name : oblivious (parse_method name).
Proof. unfold parse_method. mex_closure. Qed.

(** The outcome of a call and the events it adds do not depend on what
    happened before the call. *)
Lemma oblivious_mexFunction nlhs (prhs : list (mxArray F)) :
  oblivious (mexFunction nlhs prhs).
Proof.
  unfold mexFunction.
  repeat (destruct prhs as [|? prhs]; [apply oblivious_err|]).
  destruct prhs; [|apply oblivious_err].
  repeat first
    [ apply oblivious_err | apply oblivious_mxGetPr | apply oblivious_mxArrayToString
    | apply oblivious_mxCreateDoubleMatrix | apply oblivious_parse_method
    | apply oblivious_stockPath | apply oblivious_emit | apply oblivious_ret
    | apply oblivious_bind; [|intros]
    | match goal with |- oblivious (if ?b then _ else _) => destruct b end ].
Qed.

(** A call that is not well typed, or does not ask for three outputs, is
    rejected before anything else happens. *)
Lemma mexFunction_ill_typed nlhs (prhs : list (mxArray F)) t :
  nlhs <> 3%Z \/ ~ well_typed prhs ->
  exists msg, mexFunction nlhs prhs t = (MexErr msg, t).
Proof.
  intros Hbad. unfold mexFunction.
  repeat (destruct prhs as [|? prhs]; [eexists; reflexivity|]).
  destruct prhs; [|eexists; reflexivity].
  destruct (decide (nlhs <> 3%Z)) as [|Hn]; [eexists; reflexivity|].
  repeat match goal with
         | a : mxArray F |- context [mxIsDouble ?a] =>
             destruct a; cbn [mxIsDouble negb orb];
             [ | eexists; reflexivity | eexists; reflexivity ]
         end.
  cbn [mxGetPr]. cbv beta iota zeta delta [mbind mex_bind mret mex_ret mexErrMsgTxt].
  destruct (fgt _ _); cbn [negb]; [|eexists; reflexivity].
  match goal with a : mxArray F |- _ => destruct a end; cbn [mxIsChar negb];
    try (eexists; reflexivity).
  exfalso. destruct Hbad as [Hbad|Hbad]; [apply Hn; intros ?; apply Hbad; assumption|].
  apply Hbad. unfold well_typed, stocksim_args. repeat eexists.
Qed.

End GatewayFacts.

(* ===================================================================== *)
(** * Facts about MATLAB vectors *)
(* ===================================================================== *)

Section VectorFacts.
Context {F : Type} `{Arith F}.
Implicit Types v : list F.

Lemma mat_get_Some v i x : mat_get v i = Some x -> 1 <= i <= length v.
Proof.
  destruct i; simpl; [discriminate|]. intros E. apply lookup_lt_Some in E. lia.
Qed.

Lemma mat_get_in_range v i : 1 <= i <= length v -> mat_get v i = Some (vec_at v i).
Proof.
  intros [H1 H2]. destruct i; [lia|]. unfold vec_at. simpl.
  destruct (lookup_lt_is_Some_2 v i) as [x ->]; [lia | reflexivity].
Qed.

Lemma mat_get_vec_at v i x : mat_get v i = Some x -> vec_at v i = x.
Proof. unfold vec_at. intros ->. reflexivity. Qed.

Lemma mat_set_in_range v i x :
  1 <= i <= length v -> mat_set v i x = Some (<[(i - 1)%nat := x]> v).
Proof.
  intros [H1 H2]. destruct i; [lia|]. simpl.
  destruct (decide _); [|lia]. rewrite Nat.sub_0_r. reflexivity.
Qed.

Lemma mat_set_get_eq v i x v' : mat_set v i x = Some v' -> mat_get v' i = Some x.
Proof.
  destruct i; simpl; [discriminate|].
  destruct (decide _) as [Hlt|Hge]; intros [= <-].
  - apply list_lookup_insert_eq. exact Hlt.
  - rewrite lookup_app_r by lia. rewrite lookup_app_r; rewrite length_replicate; [|lia].
    rewrite Nat.sub_diag. reflexivity.
Qed.

Lemma mat_set_get_ne v i x v' j y :
  mat_set v i x = Some v' -> j <> i -> mat_get v j = Some y -> mat_get v' j = Some y.
Proof.
  destruct i; simpl; [discriminate|]. intros E Hne Hj.
  pose proof (mat_get_Some _ _ _ Hj) as Hr.
  destruct j; [lia|]. simpl in *.
  destruct (decide _) as [Hlt|Hge]; injection E as <-.
  - rewrite list_lookup_insert_ne by lia. exact Hj.
  - rewrite lookup_app_l by lia. exact Hj.
Qed.

Lemma vec_at_insert_eq v i x : 1 <= i <= length v -> vec_at (<[(i - 1)%nat := x]> v) i = x.
Proof.
  intros Hr. apply mat_get_vec_at. destruct i; [lia|]. simpl.
  rewrite Nat.sub_0_r. apply list_lookup_insert_eq. lia.
Qed.

Lemma vec_at_insert_ne v i j x :
  1 <= i -> j <> i -> vec_at (<[(i - 1)%nat := x]> v) j = vec_at v j.
Proof.
  intros Hi Hne. unfold vec_at. destruct j; [reflexivity|]. simpl.
  rewrite list_lookup_insert_ne by lia. reflexivity.
Qed.

End VectorFacts.

(** A loop invariant proves a MATLAB loop, as for [for_each]. *)
Lemma for_opt_invariant {S} (I : nat -> S -> Prop) (l : list nat)
    (body : nat -> S -> option S) :
  (forall k i s, l !! k = Some i -> I k s ->
     exists s', body i s = Some s' /\ I (Datatypes.S k) s') ->
  forall s, I 0 s -> exists s', for_opt l body s = Some s' /\ I (length l) s'.
Proof.
  revert I. induction l as [|i l IH]; intros I Hbody s H0; simpl.
  - eauto.
  - destruct (Hbody 0 i s eq_refl H0) as (s1 & E1 & H1). rewrite E1. simpl.
    apply (IH (fun k => I (Datatypes.S k))); [|assumption].
    intros k j s2 Hk. apply (Hbody (Datatypes.S k)). exact Hk.
Qed.

(** Two loop bodies that agree on the values the loop takes give the same
    loop. *)
Lemma for_opt_ext {S} (l : list nat) (body1 body2 : nat -> S -> option S) :
  (forall i s, i ∈ l -> body1 i s = body2 i s) ->
  forall s, for_opt l body1 s = for_opt l body2 s.
Proof.
  induction l as [|i l IH]; intros Hext s; simpl; [reflexivity|].
  rewrite (Hext i s) by left. destruct (body2 i s) as [s'|]; simpl; [|reflexivity].
  apply IH. intros j s2 Hj. apply Hext. right. exact Hj.
Qed.

(* ===================================================================== *)
(** * Facts about [euler_weak.m] *)
(* ===================================================================== *)

Section HarnessFacts.
Context {F : Type} `{Arith F}.

Lemma run_scheme_snoc (step : nat -> F * F * F -> F * F * F) i count y :
  run_scheme step i (S count) y = step (i + count) (run_scheme step i count y).
Proof.
  revert i y. induction count as [|c IH]; intros i y.
  - simpl. rewrite Nat.add_0_r. reflexivity.
  - change (run_scheme step i (S (S c)) y)
      with (run_scheme step (S i) (S c) (step i y)).
    rewrite IH. simpl. rewrite Nat.add_succ_r. reflexivity.
Qed.

Lemma run_scheme_ext (step1 step2 : nat -> F * F * F -> F * F * F) i count y :
  (forall j z, i <= j < i + count -> step1 j z = step2 j z) ->
  run_scheme step1 i count y = run_scheme step2 i count y.
Proof.
  revert i y. induction count as [|c IH]; intros i y Hext; simpl; [reflexivity|].
  rewrite Hext by lia. apply IH. intros j z Hj. apply Hext. lia.
Qed.

(** The three assignments of a loop body write the point [i] from the point
    [i - 1] and leave the other points alone. *)
Ltac update_step HS Hsig Hxi :=
  rewrite (mat_get_in_range (S_ _) (_ - 1)) by lia; cbn [mbind option_bind];
  rewrite (mat_get_in_range (sig _) (_ - 1)) by lia; cbn [mbind option_bind];
  rewrite (mat_set_in_range (S_ _)) by lia; cbn [mbind option_bind];
  rewrite (mat_get_in_range (xi _) (_ - 1)) by lia; cbn [mbind option_bind];
  rewrite (mat_set_in_range (sig _)) by lia; cbn [mbind option_bind];
  rewrite (mat_get_in_range (<[_ := _]> _)) by (rewrite length_insert; lia);
  cbn [mbind option_bind];
  rewrite (mat_set_in_range (xi _)) by lia; cbn [mbind option_bind];
  rewrite (vec_at_insert_ne (sig _)) by lia;
  eexists; split; [reflexivity|];
  unfold vec_lengths, triple_at; cbn [S_ sig xi]; split_and!;
  [ rewrite length_insert; assumption
  | rewrite length_insert; assumption
  | rewrite length_insert; assumption
  | rewrite !vec_at_insert_eq by lia; reflexivity
  | intros j Hj; rewrite !vec_at_insert_ne by lia; reflexivity ].

Lemma fine_update_step dtex mu p alfa dw dw1 i (a : paths) L :
  vec_lengths a L -> 2 <= i <= L ->
  exists a',
    fine_update dtex mu p alfa dw dw1 i a = Some a' /\ vec_lengths a' L /\
    triple_at a' i
      = scheme_step milstein_stock milstein_vol dtex mu p alfa
          (fun _ => dw) (fun _ => dw1) i (triple_at a (i - 1)) /\
    forall j, j <> i -> triple_at a' j = triple_at a j.
Proof.
  intros (HS & Hsig & Hxi) Hi. unfold fine_update. update_step HS Hsig Hxi.
Qed.

Lemma coarse_update_step dt mu p alfa dw dw1 i (a : paths) L :
  vec_lengths a L -> 2 <= i <= L ->
  exists a',
    coarse_update dt mu p alfa dw dw1 i a = Some a' /\ vec_lengths a' L /\
    triple_at a' i
      = scheme_step euler_stock euler_vol dt mu p alfa
          (fun _ => dw) (fun _ => dw1) i (triple_at a (i - 1)) /\
    forall j, j <> i -> triple_at a' j = triple_at a j.
Proof.
  intros (HS & Hsig & Hxi) Hi. unfold coarse_update. update_step HS Hsig Hxi.
Qed.

(** A loop that writes the points [2 .. 1 + count] one after the other holds
    the recurrence at its last point and keeps the first. *)
Lemma scheme_loop (body : nat -> paths -> option paths)
    (step : nat -> F * F * F -> F * F * F) L count (a : paths) init :
  (forall i a, 2 <= i <= 1 + count -> vec_lengths a L ->
     exists a', body i a = Some a' /\ vec_lengths a' L /\
                triple_at a' i = step i (triple_at a (i - 1)) /\
                forall j, j <> i -> triple_at a' j = triple_at a j) ->
  1 + count <= L -> vec_lengths a L -> triple_at a 1 = init ->
  exists a',
    for_opt (seq 2 count) body a = Some a' /\ vec_lengths a' L /\
    triple_at a' 1 = init /\
    triple_at a' (1 + count) = run_scheme step 2 count init.
Proof.
  intros Hbody HL Hlen Hinit.
  destruct (for_opt_invariant
              (fun k a' => vec_lengths a' L /\ triple_at a' 1 = init /\
                           triple_at a' (1 + k) = run_scheme step 2 k init)
              (seq 2 count) body) with (s := a) as (a' & E & Hl & H1 & Hn).
  - intros k i a1 Hk (Hl1 & H11 & H1k). apply lookup_seq in Hk as [-> Hk].
    destruct (Hbody (2 + k) a1) as (a2 & E2 & Hl2 & Hi & Hother); [lia | assumption |].
    exists a2. split_and!; try assumption.
    + rewrite Hother by lia. assumption.
    + replace (1 + S k) with (2 + k) by lia. rewrite Hi.
      replace (2 + k - 1) with (1 + k) by lia. rewrite H1k.
      symmetry. apply run_scheme_snoc.
  - split_and!; assumption.
  - rewrite length_seq in Hn. exists a'. split_and!; assumption.
Qed.

(** The group of [k] draws that the coarse step to the point [i] sums. *)
Lemma group_indices k i :
  1 <= i -> (fun z => k * i - (k - z)) <$> seq 1 k = seq (k * i - k + 1) k.
Proof.
  intros Hi. assert (k * 1 <= k * i) by (apply Nat.mul_le_mono_l; lia).
  apply list_eq. intros j. rewrite list_lookup_fmap.
  destruct (decide (j < k)) as [Hj|Hj].
  - rewrite !lookup_seq_lt by assumption. simpl. f_equal. lia.
  - rewrite !lookup_seq_ge by lia. reflexivity.
Qed.

Lemma sum_draws_fold k i (r r1 : list F) (l : list nat) tmp tmp1 :
  (forall z, z ∈ l -> 1 <= k * i - (k - z) <= length r /\
                      1 <= k * i - (k - z) <= length r1) ->
  for_opt l
    (fun z '(tmp, tmp1) =>
       r_z ← mat_get r (k * i - (k - z));
       r1_z ← mat_get r1 (k * i - (k - z));
       Some (fadd tmp r_z, fadd tmp1 r1_z))
    (tmp, tmp1)
  = Some (foldl fadd tmp (vec_at r <$> ((fun z => k * i - (k - z)) <$> l)),
          foldl fadd tmp1 (vec_at r1 <$> ((fun z => k * i - (k - z)) <$> l))).
Proof.
  revert tmp tmp1. induction l as [|z l IH]; intros tmp tmp1 Hr; [reflexivity|].
  destruct (Hr z) as [Hz Hz1]; [left|].
  cbn [for_opt]. rewrite (mat_get_in_range r), (mat_get_in_range r1) by assumption.
  cbn [mbind option_bind]. rewrite IH; [reflexivity|].
  intros z' Hz'. apply Hr. right. exact Hz'.
Qed.

(** Lines 47-52: the two sums of a coarse step. *)
Lemma sum_draws_in_range k i (r r1 : list F) :
  1 <= i -> k * i <= length r -> k * i <= length r1 ->
  sum_draws k i r r1 = Some (group_sum r k i, group_sum r1 k i).
Proof.
  intros Hi Hr Hr1. unfold sum_draws, group_sum.
  rewrite sum_draws_fold.
  - rewrite group_indices by assumption. reflexivity.
  - intros z Hz. apply elem_of_seq in Hz.
    assert (k * 1 <= k * i) by (apply Nat.mul_le_mono_l; lia). lia.
Qed.

Lemma fine_body_step dtex mu p alfa (r r1 : list F) i (a : paths) L :
  vec_lengths a L -> 2 <= i <= L -> i <= length r -> i <= length r1 ->
  exists a',
    fine_body dtex mu p alfa r r1 i a = Some a' /\ vec_lengths a' L /\
    triple_at a' i
      = scheme_step milstein_stock milstein_vol dtex mu p alfa
          (fine_increment dtex r) (fine_increment dtex r1) i (triple_at a (i - 1)) /\
    forall j, j <> i -> triple_at a' j = triple_at a j.
Proof.
  intros Hlen Hi Hr Hr1. unfold fine_body.
  rewrite (mat_get_in_range r), (mat_get_in_range r1) by lia.
  cbn [mbind option_bind].
  apply (fine_update_step dtex mu p alfa _ _ i a L Hlen Hi).
Qed.

Lemma coarse_body_step k dtex dt mu p alfa (r r1 : list F) i (a : paths) L :
  vec_lengths a L -> 2 <= i <= L -> k * i <= length r -> k * i <= length r1 ->
  exists a',
    coarse_body k dtex dt mu p alfa r r1 i a = Some a' /\ vec_lengths a' L /\
    triple_at a' i
      = scheme_step euler_stock euler_vol dt mu p alfa
          (fun i => coarse_increment dtex r k i)
          (fun i => coarse_increment dtex r1 k i) i (triple_at a (i - 1)) /\
    forall j, j <> i -> triple_at a' j = triple_at a j.
Proof.
  intros Hlen Hi Hr Hr1. unfold coarse_body.
  rewrite sum_draws_in_range by (assumption || lia).
  cbn [mbind option_bind].
  apply (coarse_update_step dt mu p alfa _ _ i a L Hlen Hi).
Qed.

End HarnessFacts.

Section ScriptFacts.
Context {F : Type} `{Arith F} `{Matlab F}.

Lemma randn_vec_length n (g : randn_state) : length (randn_vec n g).1 = n.
Proof.
  revert g. induction n as [|n IH]; intros g; [reflexivity|].
  cbn [randn_vec]. destruct (randn g) as [x g1].
  specialize (IH g1). destruct (randn_vec n g1) as [xs g2].
  simpl in *. rewrite IH. reflexivity.
Qed.

(** Lines 44-61: a coarse run leaves in [S(n)] the terminal value of the
    Euler recurrence on its grid, adds it to [mean(lvl)], and keeps the
    first point of the work vectors. *)
Lemma coarse_run_spec timestep lvl k n dtex mu p alfa (r r1 : list F)
    (a : paths) mean L dt init :
  mat_get timestep lvl = Some dt -> 1 <= lvl <= length mean -> 1 <= n <= L ->
  k * n <= length r -> k * n <= length r1 ->
  vec_lengths a L -> triple_at a 1 = init ->
  exists a',
    coarse_run timestep lvl k n dtex mu p alfa r r1 (a, mean)
      = Some (a',
              <[(lvl - 1)%nat :=
                  fadd (vec_at mean lvl)
                    (run_scheme
                       (scheme_step euler_stock euler_vol dt mu p alfa
                          (fun i => coarse_increment dtex r k i)
                          (fun i => coarse_increment dtex r1 k i))
                       2 (n - 1) init).1.1]> mean) /\
    vec_lengths a' L /\ triple_at a' 1 = init.
Proof.
  intros Hdt Hlvl Hn Hr Hr1 Hlen Hinit.
  destruct (scheme_loop (coarse_body k dtex dt mu p alfa r r1)
              (scheme_step euler_stock euler_vol dt mu p alfa
                 (fun i => coarse_increment dtex r k i)
                 (fun i => coarse_increment dtex r1 k i))
              L (n - 1) a init) as (a' & E & Hlen' & Hinit' & Hlast);
    try assumption; [|lia|].
  { intros i a1 Hi Hl1.
    assert (k * i <= k * n) by (apply Nat.mul_le_mono_l; lia).
    apply coarse_body_step; [assumption | lia | lia | lia]. }
  exists a'. split_and!; try assumption.
  unfold coarse_run. rewrite Hdt. cbn [mbind option_bind]. rewrite E.
  cbn [mbind option_bind].
  rewrite (mat_get_in_range mean) by assumption. cbn [mbind option_bind].
  destruct Hlen' as (HS & _ & _).
  rewrite (mat_get_in_range (S_ a')) by lia. cbn [mbind option_bind].
  rewrite mat_set_in_range by assumption. cbn [mbind option_bind].
  replace (1 + (n - 1)) with n in Hlast by lia.
  unfold triple_at in Hlast. rewrite <- Hlast. reflexivity.
Qed.

Lemma big_32000 : 32000 = 32 * 1000.
Proof. apply Nat.eqb_eq. vm_compute. reflexivity. Qed.

Lemma big_31999 : 1 + 31999 = 32 * 1000.
Proof. apply Nat.eqb_eq. vm_compute. reflexivity. Qed.

(** Lines 18-119: one repetition adds to the five sums the terminal values of
    the reference path and of the four coarse paths driven by its draws. *)
Lemma repetition_spec timestep j (st : ew_state) m1 m2 m3 m4 :
  timestep = [flit 0.0032; flit 0.0064; flit 0.0128; flit 0.0256] ->
  vec_lengths (ew_paths st) 32000 -> ew_mean st = [m1; m2; m3; m4] ->
  let rg := randn_vec 32000 (ew_gen st) in
  let rg1 := randn_vec 32000 rg.2 in
  let rr := (rg.1, rg1.1) in
  let inc := coarse_increment ew_dtex in
  exists a',
    repetition timestep j st
      = Some (EwState a'
                [fadd m1 (coarse_terminal inc 32 1000 (flit 0.0032) rr);
                 fadd m2 (coarse_terminal inc 64 500 (flit 0.0064) rr);
                 fadd m3 (coarse_terminal inc 128 250 (flit 0.0128) rr);
                 fadd m4 (coarse_terminal inc 256 125 (flit 0.0256) rr)]
                (fadd (ew_meanew32000 st) (fine_terminal rr)) rg1.2) /\
    vec_lengths a' 32000.
Proof.
  intros -> Hlen Hmean rg rg1 rr inc. subst rg rg1 rr inc.
  unfold repetition, fine_terminal, coarse_terminal. cbv zeta.
  pose proof big_32000 as B. pose proof big_31999 as B'.
  remember 32000 as L eqn:EL. remember 31999 as count eqn:Ecount. clear EL Ecount.
  pose proof (randn_vec_length L (ew_gen st)) as Hr.
  destruct (randn_vec L (ew_gen st)) as [r g1]. cbn [fst snd] in *.
  pose proof (randn_vec_length L g1) as Hr1.
  destruct (randn_vec L g1) as [r1 g2]. cbn [fst snd] in *.
  destruct Hlen as (HS & Hsig & Hxi).
  rewrite (mat_set_in_range (S_ _) 1), (mat_set_in_range (sig _) 1),
    (mat_set_in_range (xi _) 1) by lia.
  cbn [mbind option_bind].
  destruct (scheme_loop (fine_body (flit 0.0001) (flit 0.1) (flit 1) (flit 1) r r1)
              (scheme_step milstein_stock milstein_vol ew_dtex ew_mu ew_p ew_alfa
                 (fine_increment ew_dtex r) (fine_increment ew_dtex r1))
              L count
              (Paths (<[(1 - 1)%nat := flit 50.0]> (S_ (ew_paths st)))
                     (<[(1 - 1)%nat := flit 0.2]> (sig (ew_paths st)))
                     (<[(1 - 1)%nat := flit 0.2]> (xi (ew_paths st))))
              ew_init) as (a0 & E0 & Hlen0 & Hinit0 & Hlast0).
  { intros i a Hi Hl. apply fine_body_step; [assumption | lia ..]. }
  { lia. }
  { unfold vec_lengths. cbn [S_ sig xi]. rewrite !length_insert. done. }
  { unfold triple_at, ew_init. cbn [S_ sig xi].
    rewrite !vec_at_insert_eq by lia. reflexivity. }
  rewrite E0. cbn [mbind option_bind].
  replace (1 + count) with L in Hlast0 by lia.
  rewrite (mat_get_in_range (S_ a0) L) by (destruct Hlen0 as (-> & _); lia).
  cbn [mbind option_bind].
  change (vec_at (S_ a0) L) with (triple_at a0 L).1.1. rewrite Hlast0.
  set (timestep := [flit 0.0032; flit 0.0064; flit 0.0128; flit 0.0256]).
  destruct (coarse_run_spec timestep 1 32 1000
              (flit 0.0001) (flit 0.1) (flit 1) (flit 1) r r1 a0 (ew_mean st)
              L (flit 0.0032) ew_init)
    as (a1 & E1 & Hlen1 & Hinit1);
    [reflexivity | rewrite Hmean; cbn [length]; lia | lia .. | assumption
    | assumption |].
  rewrite E1. cbn [mbind option_bind]. clear E1.
  match goal with |- context [coarse_run _ 2 _ _ _ _ _ _ _ _ (_, ?m)] =>
    destruct (coarse_run_spec timestep 2 64 500
                (flit 0.0001) (flit 0.1) (flit 1) (flit 1) r r1 a1 m
                L (flit 0.0064) ew_init)
      as (a2 & E2 & Hlen2 & Hinit2);
      [reflexivity | rewrite length_insert, Hmean; cbn [length]; lia | lia ..
      | assumption | assumption |]
  end.
  rewrite E2. cbn [mbind option_bind]. clear E2.
  match goal with |- context [coarse_run _ 3 _ _ _ _ _ _ _ _ (_, ?m)] =>
    destruct (coarse_run_spec timestep 3 128 250
                (flit 0.0001) (flit 0.1) (flit 1) (flit 1) r r1 a2 m
                L (flit 0.0128) ew_init)
      as (a3 & E3 & Hlen3 & Hinit3);
      [reflexivity | rewrite !length_insert, Hmean; cbn [length]; lia | lia ..
      | assumption | assumption |]
  end.
  rewrite E3. cbn [mbind option_bind]. clear E3.
  match goal with |- context [coarse_run _ 4 _ _ _ _ _ _ _ _ (_, ?m)] =>
    destruct (coarse_run_spec timestep 4 256 125
                (flit 0.0001) (flit 0.1) (flit 1) (flit 1) r r1 a3 m
                L (flit 0.0256) ew_init)
      as (a4 & E4 & Hlen4 & Hinit4);
      [reflexivity | rewrite !length_insert, Hmean; cbn [length]; lia | lia ..
      | assumption | assumption |]
  end.
  rewrite E4. cbn [mbind option_bind fst snd]. clear E4.
  exists a4. split; [|assumption].
  rewrite Hmean. reflexivity.
Qed.

(** Lines 16-121: the loop over the repetitions. *)
Lemma repetitions_spec timestep n start (st : ew_state) m1 m2 m3 m4 :
  timestep = [flit 0.0032; flit 0.0064; flit 0.0128; flit 0.0256] ->
  vec_lengths (ew_paths st) 32000 -> ew_mean st = [m1; m2; m3; m4] ->
  let reps := repetition_draws n (ew_gen st) in
  let inc := coarse_increment ew_dtex in
  exists a' g',
    for_opt (seq start n) (repetition timestep) st
      = Some (EwState a'
                [foldl fadd m1 (coarse_terminal inc 32 1000 (flit 0.0032) <$> reps);
                 foldl fadd m2 (coarse_terminal inc 64 500 (flit 0.0064) <$> reps);
                 foldl fadd m3 (coarse_terminal inc 128 250 (flit 0.0128) <$> reps);
                 foldl fadd m4 (coarse_terminal inc 256 125 (flit 0.0256) <$> reps)]
                (foldl fadd (ew_meanew32000 st) (fine_terminal <$> reps)) g').
Proof.
  intros Hts. revert start st m1 m2 m3 m4.
  induction n as [|n IH]; intros start st m1 m2 m3 m4 Hlen Hmean reps inc.
  - destruct st as [a mean meanew g]. simpl in Hmean. subst mean.
    exists a, g. reflexivity.
  - destruct (repetition_spec timestep start st m1 m2 m3 m4 Hts Hlen Hmean)
      as (a1 & E1 & Hlen1).
    subst reps inc. cbn [seq for_opt repetition_draws]. rewrite E1. clear E1.
    cbn [mbind option_bind].
    destruct (randn_vec 32000 (ew_gen st)) as [r g1]. cbn [fst snd].
    destruct (randn_vec 32000 g1) as [r1 g2]. cbn [fst snd].
    match goal with |- context [for_opt _ _ ?st1] =>
      destruct (IH (S start) st1 _ _ _ _ Hlen1 eq_refl) as (a' & g' & E)
    end.
    cbn [ew_gen ew_meanew32000] in E. rewrite E. exists a', g'.
    cbn [fmap list_fmap foldl]. reflexivity.
Qed.

(** The script computes the weak-error curve of the recurrences: the
    reference path by the Milstein scheme, each coarse path by the Euler
    scheme driven by [sqrt(dtex)] times the sums of [k] consecutive draws. *)
Lemma euler_weak_spec (g : randn_state) :
  euler_weak g
    = Some (weak_error (coarse_increment ew_dtex) (repetition_draws 10000 g)).
Proof.
  unfold euler_weak. cbv zeta.
  match goal with |- context [for_opt _ _ ?st0] =>
    destruct (repetitions_spec
                [flit 0.0032; flit 0.0064; flit 0.0128; flit 0.0256] 10000 1 st0
                (flit 0) (flit 0) (flit 0) (flit 0) eq_refl)
      as (a' & g' & E)
  end.
  - unfold vec_lengths. cbn [ew_paths S_ sig xi]. rewrite !length_replicate. done.
  - reflexivity.
  - cbn [ew_gen ew_meanew32000] in E. rewrite E.
    unfold weak_error, ew_levels. cbn [fmap list_fmap ew_mean ew_meanew32000].
    reflexivity.
Qed.

End ScriptFacts.

(* ===================================================================== *)
(** * Facts about [NumWrapper.m] *)
(* ===================================================================== *)

Section MatrixFacts.
Context {F : Type} `{Arith F}.
Implicit Types M : list (list F).

Lemma mat2_set_inv M i j x M' :
  mat2_set M i j x = Some M' ->
  exists row, mat_get M i = Some row /\ 1 <= j <= length row /\
              M' = <[(i - 1)%nat := <[(j - 1)%nat := x]> row]> M.
Proof.
  unfold mat2_set. destruct (mat_get M i) as [row|] eqn:Erow; [|discriminate].
  cbn [mbind option_bind]. destruct (decide _) as [Hj|]; [|discriminate].
  intros [= <-]. exists row. auto.
Qed.

Lemma mat2_set_in_range M i j x row :
  mat_get M i = Some row -> 1 <= j <= length row ->
  mat2_set M i j x = Some (<[(i - 1)%nat := <[(j - 1)%nat := x]> row]> M).
Proof.
  intros Erow Hj. unfold mat2_set. rewrite Erow. cbn [mbind option_bind].
  destruct (decide _); [reflexivity | lia].
Qed.

Lemma mat_shape_insert M m n i row :
  mat_shape M m n -> length row = n -> mat_shape (<[i := row]> M) m n.
Proof.
  intros [Hm Hrows] Hrow. split.
  - rewrite length_insert. exact Hm.
  - apply Forall_insert; assumption.
Qed.

Lemma mat_shape_row M m n i row :
  mat_shape M m n -> mat_get M i = Some row -> length row = n.
Proof.
  intros [_ Hrows] Erow. destruct i; [discriminate|]. simpl in Erow.
  exact (Forall_lookup_1 _ _ _ _ Hrows Erow).
Qed.

Lemma mat2_set_shape M i j x M' m n :
  mat2_set M i j x = Some M' -> mat_shape M m n -> mat_shape M' m n.
Proof.
  intros E Hshape. apply mat2_set_inv in E as (row & Erow & Hj & ->).
  apply mat_shape_insert; [assumption|].
  rewrite length_insert. exact (mat_shape_row _ _ _ _ _ Hshape Erow).
Qed.

Lemma mat2_set_get_eq M i j x M' :
  mat2_set M i j x = Some M' -> mat2_get M' i j = Some x.
Proof.
  intros E. apply mat2_set_inv in E as (row & Erow & Hj & ->).
  pose proof (mat_get_Some _ _ _ Erow) as Hi.
  unfold mat2_get. destruct i; [lia|]. destruct j; [lia|]. simpl.
  rewrite !Nat.sub_0_r. rewrite list_lookup_insert_eq by lia. simpl.
  apply list_lookup_insert_eq. lia.
Qed.

Lemma mat2_set_get_ne M i j x M' i' j' :
  mat2_set M i j x = Some M' -> i' <> i \/ j' <> j ->
  mat2_get M' i' j' = mat2_get M i' j'.
Proof.
  intros E Hne. apply mat2_set_inv in E as (row & Erow & Hj & ->).
  pose proof (mat_get_Some _ _ _ Erow) as Hi.
  unfold mat2_get. destruct i' as [|i']; [reflexivity|].
  destruct i as [|i]; [lia|]. simpl in *. rewrite Nat.sub_0_r.
  destruct (decide (i' = i)) as [->|Hi'].
  - rewrite list_lookup_insert_eq by lia. rewrite Erow. simpl.
    destruct j' as [|j']; [reflexivity|]. simpl.
    rewrite list_lookup_insert_ne by lia. reflexivity.
  - rewrite list_lookup_insert_ne by lia. reflexivity.
Qed.

Lemma mat_get_is_Some {A} (v : list A) i : 1 <= i <= length v -> is_Some (mat_get v i).
Proof. intros Hi. destruct i; [lia|]. simpl. apply lookup_lt_is_Some_2. lia. Qed.

Lemma mat2_get_in_range M m n i j :
  mat_shape M m n -> 1 <= i <= m -> 1 <= j <= n -> is_Some (mat2_get M i j).
Proof.
  intros Hshape Hi Hj. unfold mat2_get.
  destruct (mat_get M i) as [row|] eqn:Erow.
  - cbn [mbind option_bind]. pose proof (mat_shape_row _ _ _ _ _ Hshape Erow).
    rewrite mat_get_in_range by lia. eauto.
  - destruct Hshape as [Hm _]. destruct (mat_get_is_Some M i) as [row Hrow]; [lia|].
    congruence.
Qed.

Lemma set_column_1_zeros m n x :
  mat_shape (set_column_1 (zeros m n) x) m (Nat.max n 1) /\
  forall i, 1 <= i <= m -> mat2_get (set_column_1 (zeros m n) x) i 1 = Some x.
Proof.
  unfold set_column_1, zeros, mat_shape. split; [split|].
  - rewrite length_fmap, length_replicate. reflexivity.
  - apply Forall_fmap, Forall_replicate. destruct n; simpl.
    + reflexivity.
    + rewrite length_replicate. lia.
  - intros i Hi. unfold mat2_get. destruct i; [lia|]. simpl.
    rewrite list_lookup_fmap, lookup_replicate_2 by lia. simpl.
    destruct n; reflexivity.
Qed.

End MatrixFacts.

(** What a loop body keeps, the loop keeps. *)
Lemma for_opt_preserves {S} (I : S -> Prop) (l : list nat)
    (body : nat -> S -> option S) :
  (forall i s s', i ∈ l -> I s -> body i s = Some s' -> I s') ->
  forall s s', I s -> for_opt l body s = Some s' -> I s'.
Proof.
  induction l as [|i l IH]; intros Hbody s s' Hs E; simpl in E.
  - injection E as <-. exact Hs.
  - destruct (body i s) as [s1|] eqn:E1; [|discriminate]. simpl in E.
    apply (IH (fun j s2 s3 Hj => Hbody j s2 s3 (list_elem_of_further _ _ _ Hj))
              s1 s'); [|exact E].
    apply (Hbody i s s1); [left | exact Hs | exact E1].
Qed.

Section NumWrapperFacts.
Context {F : Type} `{Arith F} `{Matlab F} `{RungeKutta F}.

(** Lines 56-74 write column [j] only: from the second column on, a pass
    keeps the shape of the matrices and their first column. *)
Lemma NumWrapper_step_keeps methods Dt mu p alpha (phiStock phiVol : list F)
    i j (a a' : nw_paths) samples n S0 sigma0 xi0 :
  NumWrapper_step methods Dt mu p alpha phiStock phiVol i j a = Some a' ->
  2 <= j -> nw_ok samples n S0 sigma0 xi0 a -> nw_ok samples n S0 sigma0 xi0 a'.
Proof.
  unfold NumWrapper_step. intros E Hj ((Hs & Hv & Hx) & Hcol).
  destruct (mat2_get (volPaths a) i (j - 1)) as [volt|]; [|discriminate].
  destruct (mat2_get (xiPaths a) i (j - 1)) as [xit|]; [|discriminate].
  destruct methods as [[fs fv]|]; [|discriminate].
  cbn [mbind option_bind] in E.
  destruct (mat_get phiVol (j - 1)) as [phi|]; [|discriminate].
  cbn [mbind option_bind] in E.
  destruct (mat2_set (volPaths a) i j _) as [vp|] eqn:Ev; [|discriminate].
  destruct (mat2_set (xiPaths a) i j _) as [xp|] eqn:Ex; [|discriminate].
  cbn [mbind option_bind] in E.
  destruct (mat2_get (stockPaths a) i (j - 1)) as [s|]; [|discriminate].
  destruct (mat2_get vp i (j - 1)) as [v|]; [|discriminate].
  destruct (mat_get phiStock (j - 1)) as [phi'|]; [|discriminate].
  cbn [mbind option_bind] in E.
  destruct (mat2_set (stockPaths a) i j _) as [sp|] eqn:Es; [|discriminate].
  injection E as <-. unfold nw_ok. cbn [stockPaths volPaths xiPaths].
  split; [split_and!; eapply mat2_set_shape; eassumption|].
  intros i' Hi'. destruct (Hcol i' Hi') as (Hc1 & Hc2 & Hc3).
  rewrite (mat2_set_get_ne _ _ _ _ _ i' 1 Es), (mat2_set_get_ne _ _ _ _ _ i' 1 Ev),
    (mat2_set_get_ne _ _ _ _ _ i' 1 Ex) by (right; lia).
  auto.
Qed.

(** ... and inside the matrices a pass succeeds when the method is known. *)
Lemma NumWrapper_step_runs fs fv Dt mu p alpha (phiStock phiVol : list F)
    i j (a : nw_paths) samples n S0 sigma0 xi0 :
  nw_ok samples n S0 sigma0 xi0 a -> 1 <= i <= samples -> 2 <= j <= n ->
  j - 1 <= length phiStock -> j - 1 <= length phiVol ->
  is_Some (NumWrapper_step (Some (fs, fv)) Dt mu p alpha phiStock phiVol i j a).
Proof.
  intros ((Hs & Hv & Hx) & _) Hi Hj Hps Hpv. unfold NumWrapper_step.
  assert (length (stockPaths a) = samples) as Hls by apply Hs.
  assert (length (volPaths a) = samples) as Hlv by apply Hv.
  assert (length (xiPaths a) = samples) as Hlx by apply Hx.
  destruct (mat2_get_in_range _ _ _ i (j - 1) Hv) as [volt ->]; [lia..|].
  destruct (mat2_get_in_range _ _ _ i (j - 1) Hx) as [xit ->]; [lia..|].
  cbn [mbind option_bind].
  destruct (mat_get_is_Some phiVol (j - 1)) as [phi ->]; [lia|].
  cbn [mbind option_bind].
  destruct (mat_get_is_Some (volPaths a) i) as [rv Erv]; [lia|].
  pose proof (mat_shape_row _ _ _ _ _ Hv Erv) as Hlrv.
  rewrite (mat2_set_in_range (volPaths a) _ _ _ rv) by (assumption || lia).
  cbn [mbind option_bind].
  destruct (mat_get_is_Some (xiPaths a) i) as [rx Erx]; [lia|].
  pose proof (mat_shape_row _ _ _ _ _ Hx Erx) as Hlrx.
  rewrite (mat2_set_in_range (xiPaths a) _ _ _ rx) by (assumption || lia).
  cbn [mbind option_bind].
  destruct (mat2_get_in_range _ _ _ i (j - 1) Hs) as [s ->]; [lia..|].
  cbn [mbind option_bind].
  destruct (mat2_get_in_range
              (<[(i - 1)%nat := <[(j - 1)%nat := fv volt xit p Dt phi]> rv]>
                 (volPaths a)) samples n i (j - 1)) as [v ->]; [|lia..|].
  { apply mat_shape_insert; [assumption | rewrite length_insert; assumption]. }
  cbn [mbind option_bind].
  destruct (mat_get_is_Some phiStock (j - 1)) as [phi' ->]; [lia|].
  cbn [mbind option_bind].
  destruct (mat_get_is_Some (stockPaths a) i) as [rs Ers]; [lia|].
  pose proof (mat_shape_row _ _ _ _ _ Hs Ers) as Hlrs.
  rewrite (mat2_set_in_range (stockPaths a) _ _ _ rs) by (assumption || lia).
  cbn [mbind option_bind]. eauto.
Qed.

(** Whatever the method name, the matrices that [NumWrapper] returns have
    one row per sample, one column per step (one column if there is no
    step), and the initial values in their first column. *)
Lemma NumWrapper_keeps randstate samples Dt sigma0 S0 xi0 mu p alpha N numMethod
    (a : nw_paths) :
  NumWrapper randstate samples Dt sigma0 S0 xi0 mu p alpha N numMethod = Some a ->
  nw_ok samples (Nat.max N 1) S0 sigma0 xi0 a.
Proof.
  unfold NumWrapper. cbv zeta.
  destruct (for_opt _ _ _) as [[a' g']|] eqn:E; [|discriminate].
  cbn [mbind option_bind fst]. intros [= <-].
  apply (for_opt_preserves
           (fun ag : nw_paths * randn_state =>
              nw_ok samples (Nat.max N 1) S0 sigma0 xi0 ag.1) _ _) in E;
    [exact E | |].
  - intros i [a1 g1] [a2 g2] _ Hok E1. cbn [fst] in *.
    unfold NumWrapper_sample in E1.
    destruct (randn_vec _ g1) as [phiStock g3].
    destruct (randn_vec _ g3) as [phiVol g4].
    destruct (for_opt _ _ a1) as [a3|] eqn:E3; [|discriminate].
    cbn [mbind option_bind] in E1. injection E1 as <- <-.
    apply (for_opt_preserves (nw_ok samples (Nat.max N 1) S0 sigma0 xi0) _ _)
      in E3; [exact E3 | | exact Hok].
    intros j s s' Hj Hs Es. apply elem_of_seq in Hj.
    eapply NumWrapper_step_keeps; [exact Es | lia | exact Hs].
  - unfold nw_ok. cbn [fst stockPaths volPaths xiPaths].
    pose proof (set_column_1_zeros samples N S0) as [? ?].
    pose proof (set_column_1_zeros samples N sigma0) as [? ?].
    pose proof (set_column_1_zeros samples N xi0) as [? ?].
    split_and!; try assumption. intros i Hi. split_and!; auto.
Qed.

(** With one of the three method names, [NumWrapper] runs to its end: every
    read and every write falls inside the matrices and the draw vectors. *)
Lemma NumWrapper_runs randstate samples Dt sigma0 S0 xi0 mu p alpha N numMethod :
  is_Some (select_numMethod numMethod) ->
  is_Some (NumWrapper randstate samples Dt sigma0 S0 xi0 mu p alpha N numMethod).
Proof.
  intros [[fs fv] Hm]. unfold NumWrapper. cbv zeta. rewrite Hm.
  destruct (for_opt_invariant
              (fun _ (ag : nw_paths * randn_state) =>
                 nw_ok samples (Nat.max N 1) S0 sigma0 xi0 ag.1)
              (seq 1 samples)
              (NumWrapper_sample (Some (fs, fv)) Dt mu p alpha N))
    with (s := (NwPaths (set_column_1 (zeros samples N) S0)
                  (set_column_1 (zeros samples N) sigma0)
                  (set_column_1 (zeros samples N) xi0),
                randn_set_state randstate)) as (ag & E & _).
  - intros k i [a1 g1] Hk Hok. apply lookup_seq in Hk as [-> Hk]. cbn [fst] in *.
    unfold NumWrapper_sample.
    pose proof (randn_vec_length ((N - 1) * (N - 1)) g1) as Hl1.
    destruct (randn_vec _ g1) as [phiStock g3].
    pose proof (randn_vec_length ((N - 1) * (N - 1)) g3) as Hl2.
    destruct (randn_vec _ g3) as [phiVol g4]. cbn [fst] in *.
    destruct (for_opt_invariant
                (fun _ => nw_ok samples (Nat.max N 1) S0 sigma0 xi0)
                (seq 2 (N - 1))
                (NumWrapper_step (Some (fs, fv)) Dt mu p alpha
                   ((fun x => fmul x (fsqrt Dt)) <$> phiStock)
                   ((fun x => fmul x (fsqrt Dt)) <$> phiVol) (1 + k)))
      with (s := a1) as (a2 & E2 & Hok2); [|exact Hok|].
    + intros k' j s Hk' Hs. apply lookup_seq in Hk' as [-> Hk'].
      assert (N - 1 <= (N - 1) * (N - 1)) by nia.
      destruct (NumWrapper_step_runs fs fv Dt mu p alpha
                  ((fun x => fmul x (fsqrt Dt)) <$> phiStock)
                  ((fun x => fmul x (fsqrt Dt)) <$> phiVol)
                  (1 + k) (2 + k') s samples (Nat.max N 1) S0 sigma0 xi0)
        as [s' Es']; [assumption | lia | lia | rewrite length_fmap; lia ..|].
      exists s'. split; [exact Es'|].
      eapply NumWrapper_step_keeps; [exact Es' | lia | exact Hs].
    + rewrite E2. cbn [mbind option_bind]. eexists. split; [reflexivity|].
      exact Hok2.
  - unfold nw_ok. cbn [fst stockPaths volPaths xiPaths].
    pose proof (set_column_1_zeros samples N S0) as [? ?].
    pose proof (set_column_1_zeros samples N sigma0) as [? ?].
    pose proof (set_column_1_zeros samples N xi0) as [? ?].
    split_and!; try assumption. intros i Hi. split_and!; auto.
  - rewrite E. cbn [mbind option_bind]. eauto.
Qed.

End NumWrapperFacts.

(* ===================================================================== *)
(** * Comparing two runs of [stockPath] *)
(* ===================================================================== *)

Lemma for_each_sim {S} (R : S -> S -> Prop) (l : list nat)
    (body1 body2 : nat -> S -> mex S) :
  (forall i s1 s2 t, R s1 s2 -> sim R (body1 i s1 t) (body2 i s2 t)) ->
  forall s1 s2 t, R s1 s2 -> sim R (for_each l body1 s1 t) (for_each l body2 s2 t).
Proof.
  intros Hbody. induction l as [|i l IH]; intros s1 s2 t HR; simpl.
  - split; [reflexivity | exact HR].
  - rewrite !mex_bind_unfold. destruct (Hbody i s1 s2 t HR) as [Ht Ho].
    destruct (body1 i s1 t) as [[a1|m1|f1] t1], (body2 i s2 t) as [[a2|m2|f2] t2];
      simpl in *; subst; try contradiction.
    + apply IH. exact Ho.
    + split; reflexivity.
    + split; reflexivity.
Qed.

Lemma sim_mono {S} (R R' : S -> S -> Prop) r1 r2 :
  (forall a b, R a b -> R' a b) -> sim R r1 r2 -> sim R' r1 r2.
Proof.
  intros HR [Ht Ho]. split; [exact Ht|].
  destruct r1.1, r2.1; auto.
Qed.

Section Compare.
Context {F : Type} `{Arith F} `{Gsl F}.

(** What one pass of the loop over [j] does, on buffers of equal length. *)
Lemma stockPath_step_eq (fs fv : step_fn F) Dt mu p alpha j (st : sp_state) L t :
  length (sp_stock st) = L -> length (sp_vol st) = L -> length (sp_xi st) = L ->
  stockPath_step fs fv Dt mu p alpha j st t =
    let idx := sp_index st in
    let gs := gsl_ran_gaussian (sp_rng_stock st) (flit 1) in
    let gv := gsl_ran_gaussian (sp_rng_vol st) (flit 1) in
    let t1 := t ++ [EvDraw StockStream; EvDraw VolStream] in
    match sp_stock st !! (idx - 1), sp_vol st !! (idx - 1), sp_xi st !! (idx - 1) with
    | Some s, Some v, Some x =>
        if decide (1 <= idx < L) then
          (Done (SpState gs.2 gv.2
                   (<[idx := fs s v mu Dt (fmul gs.1 (fsqrt Dt))]> (sp_stock st))
                   (<[idx := fv v x p Dt (fmul gv.1 (fsqrt Dt))]> (sp_vol st))
                   (<[idx := rk4_xi v x Dt alpha]> (sp_xi st)) (S idx)),
           t1 ++ [EvStore StockBuf idx; EvStore VolBuf idx; EvStore XiBuf idx])
        else (Faulted OutOfBounds, t1)
    | _, _, _ => (Faulted OutOfBounds, t1)
    end.
Proof.
  intros Hls Hlv Hlx. unfold stockPath_step, draw, store, load_before, load.
  cbv beta iota zeta delta [mbind mex_bind mret mex_ret emit raise_fault].
  destruct (gsl_ran_gaussian (sp_rng_stock st) (flit 1)) as [g1 rs].
  destruct (gsl_ran_gaussian (sp_rng_vol st) (flit 1)) as [g2 rv]. cbn [fst snd].
  rewrite <- !app_assoc. cbn [app].
  destruct (sp_index st) as [|i] eqn:Eidx.
  { destruct (sp_stock st !! (0 - 1)), (sp_vol st !! (0 - 1)),
      (sp_xi st !! (0 - 1)); reflexivity. }
  replace (S i - 1) with i by lia.
  destruct (sp_stock st !! i) as [s|] eqn:Es; [|reflexivity].
  destruct (sp_vol st !! i) as [v|] eqn:Ev.
  2:{ apply lookup_lt_Some in Es. apply lookup_ge_None in Ev. lia. }
  destruct (sp_xi st !! i) as [x|] eqn:Ex.
  2:{ apply lookup_lt_Some in Es. apply lookup_ge_None in Ex. lia. }
  rewrite Hls, Hlv, Hlx.
  destruct (decide (S i < L)) as [Hlt|Hge].
  - destruct (decide (1 <= S i < L)); [|lia].
    rewrite list_lookup_insert_ne by lia. rewrite Ev.
    rewrite <- !app_assoc. reflexivity.
  - destruct (decide (1 <= S i < L)); [lia|]. reflexivity.
Qed.

(** What one pass of the loop over [i] does, on buffers of equal length. *)
Lemma stockPath_sample_eq (fs fv : step_fn F) Dt sigma_0 S_0 xi_0 mu p alpha N i
    (st : sp_state) L t :
  length (sp_stock st) = L -> length (sp_vol st) = L -> length (sp_xi st) = L ->
  stockPath_sample fs fv Dt sigma_0 S_0 xi_0 mu p alpha N i st t =
    let idx := sp_index st in
    if decide (idx < L) then
      for_each (seq 1 (N - 1)) (stockPath_step fs fv Dt mu p alpha)
        (SpState (sp_rng_stock st) (sp_rng_vol st)
           (<[idx := S_0]> (sp_stock st)) (<[idx := sigma_0]> (sp_vol st))
           (<[idx := xi_0]> (sp_xi st)) (S idx))
        (t ++ [EvStore StockBuf idx; EvStore VolBuf idx; EvStore XiBuf idx])
    else (Faulted OutOfBounds, t).
Proof.
  intros Hls Hlv Hlx. unfold stockPath_sample, store.
  cbv beta iota zeta delta [mbind mex_bind mret mex_ret emit raise_fault].
  rewrite Hls, Hlv, Hlx.
  destruct (decide (sp_index st < L)); [|reflexivity].
  rewrite <- !app_assoc. reflexivity.
Qed.

End Compare.

Import Binary64 Exact.

(** Like [for_each_sim], for a relation that depends on the loop counter. *)
Lemma for_each_sim_from {S} (R : nat -> S -> S -> Prop)
    (body1 body2 : nat -> S -> mex S) n : forall a,
  (forall i s1 s2 t, a <= i < a + n -> R i s1 s2 ->
     sim (R (Datatypes.S i)) (body1 i s1 t) (body2 i s2 t)) ->
  forall s1 s2 t, R a s1 s2 ->
    sim (R (a + n)) (for_each (seq a n) body1 s1 t) (for_each (seq a n) body2 s2 t).
Proof.
  induction n as [|n IH]; intros a Hbody s1 s2 t HR; simpl.
  - rewrite Nat.add_0_r. split; [reflexivity | exact HR].
  - rewrite !mex_bind_unfold.
    destruct (Hbody a s1 s2 t ltac:(lia) HR) as [Ht Ho].
    destruct (body1 a s1 t) as [[a1|m1|f1] t1], (body2 a s2 t) as [[a2|m2|f2] t2];
      simpl in *; subst; try contradiction.
    + replace (a + Datatypes.S n) with (Datatypes.S a + n) by lia.
      apply IH; [|exact Ho]. intros i u1 u2 t' Hi. apply Hbody. lia.
    + split; reflexivity.
    + split; reflexivity.
Qed.

(* ===================================================================== *)
(** * Zeros and NaN in binary64 *)
(* ===================================================================== *)

Lemma Prim2SF_inj (x y : float) : Prim2SF x = Prim2SF y -> x = y.
Proof.
  intros E. rewrite <- (SF2Prim_Prim2SF x), <- (SF2Prim_Prim2SF y), E. reflexivity.
Qed.

(** Goals about the class of a sum, difference or product of doubles:
    expose the operations on [spec_float], then split by the class of an
    operand. *)
Ltac sf_ops :=
  cbn [fadd fsub fmul Binary64.arith];
  unfold double_zero, double_finite, double_nan, zero_or_nan, pos_zero_or_nan in *;
  rewrite ?add_spec, ?sub_spec, ?mul_spec in *.

Ltac sf_cases x :=
  let s := fresh "s" in
  destruct (Prim2SF x) as [s|s| |s ? ?]; try destruct s; try discriminate.

Section DoubleZeros.
Implicit Types a b c : float.
Local Open Scope fl_scope.

Lemma zn_mul_l a b : zero_or_nan a = true -> zero_or_nan (a * b) = true.
Proof. sf_ops. sf_cases a; sf_cases b; reflexivity. Qed.

Lemma zn_mul_r a b : zero_or_nan b = true -> zero_or_nan (a * b) = true.
Proof. sf_ops. sf_cases b; sf_cases a; reflexivity. Qed.

Lemma zn_add a b :
  zero_or_nan a = true -> zero_or_nan b = true -> zero_or_nan (a + b) = true.
Proof. sf_ops. sf_cases a; sf_cases b; reflexivity. Qed.

Lemma pzn_zn a : pos_zero_or_nan a = true -> zero_or_nan a = true.
Proof. sf_ops. sf_cases a; reflexivity. Qed.

(** +0 plus or minus a zero of either sign is +0. *)
Lemma pzn_add a b :
  pos_zero_or_nan a = true -> zero_or_nan b = true -> pos_zero_or_nan (a + b) = true.
Proof. sf_ops. sf_cases a; sf_cases b; reflexivity. Qed.

Lemma pzn_sub a b :
  pos_zero_or_nan a = true -> zero_or_nan b = true -> pos_zero_or_nan (a - b) = true.
Proof. sf_ops. sf_cases a; sf_cases b; reflexivity. Qed.

Lemma nan_add_l a b : double_nan a = true -> double_nan (a + b) = true.
Proof. sf_ops. sf_cases a; sf_cases b; reflexivity. Qed.

Lemma nan_add_r a b : double_nan b = true -> double_nan (a + b) = true.
Proof. sf_ops. sf_cases b; sf_cases a; reflexivity. Qed.

Lemma nan_sub_l a b : double_nan a = true -> double_nan (a - b) = true.
Proof. sf_ops. sf_cases a; sf_cases b; reflexivity. Qed.

Lemma nan_mul_l a b : double_nan a = true -> double_nan (a * b) = true.
Proof. sf_ops. sf_cases a; sf_cases b; reflexivity. Qed.

(** A zero times a finite double is a zero; times an infinity or NaN it is
    NaN. *)
Lemma zero_mul a b :
  double_zero a = true -> double_finite b = true -> double_zero (a * b) = true.
Proof. sf_ops. sf_cases a; sf_cases b; reflexivity. Qed.

Lemma zero_mul_nan a b :
  double_zero a = true -> double_finite b = false -> double_nan (a * b) = true.
Proof. sf_ops. sf_cases a; sf_cases b; reflexivity. Qed.

Lemma nan_eq a b : double_nan a = true -> double_nan b = true -> a = b.
Proof.
  intros Ha Hb. apply Prim2SF_inj. revert Ha Hb. sf_ops.
  sf_cases a; sf_cases b; reflexivity.
Qed.

Lemma pzn_cases a : pos_zero_or_nan a = true -> a = flit 0 \/ double_nan a = true.
Proof.
  intros Ha. destruct (double_nan a) eqn:E; [right; reflexivity | left].
  apply Prim2SF_inj. revert Ha E. sf_ops. sf_cases a; intros; try discriminate.
  reflexivity.
Qed.

(** Adding a zero changes at most the sign of a zero: (-0) + (+0) = +0. *)
Lemma add_zero a c : double_zero c = true -> same_but_zero_sign (a + c) a.
Proof.
  intros Hc. destruct (double_zero a) eqn:Ha.
  - right. split; [|exact Ha]. revert Hc Ha. sf_ops.
    sf_cases a; sf_cases c; reflexivity.
  - left. apply Prim2SF_inj. revert Hc Ha. sf_ops.
    sf_cases a; sf_cases c; reflexivity.
Qed.

Lemma pzn_add_zero a c :
  pos_zero_or_nan a = true -> double_zero c = true -> a + c = a.
Proof.
  intros Ha Hc. apply Prim2SF_inj. revert Ha Hc. sf_ops.
  sf_cases a; sf_cases c; reflexivity.
Qed.

Lemma same_refl a : same_but_zero_sign a a.
Proof. left. reflexivity. Qed.

Lemma same_trans a b c :
  same_but_zero_sign a b -> same_but_zero_sign b c -> same_but_zero_sign a c.
Proof. intros [->|[Ha Hb]] [->|[Hb' Hc]]; [left; reflexivity | right; auto ..]. Qed.

(** Products and sums do not tell zeros of different signs apart, except by
    the sign of a zero. *)
Lemma same_mul a a' b b' :
  same_but_zero_sign a a' -> same_but_zero_sign b b' ->
  same_but_zero_sign (a * b) (a' * b').
Proof.
  intros [->|[Ha Ha']] [->|[Hb Hb']].
  - left; reflexivity.
  - destruct (double_finite a') eqn:Hf.
    + right. revert Hf Hb Hb'. sf_ops.
      sf_cases a'; sf_cases b; sf_cases b'; split; reflexivity.
    + left. apply Prim2SF_inj. revert Hf Hb Hb'. sf_ops.
      sf_cases a'; sf_cases b; sf_cases b'; reflexivity.
  - destruct (double_finite b') eqn:Hf.
    + right. revert Hf Ha Ha'. sf_ops.
      sf_cases b'; sf_cases a; sf_cases a'; split; reflexivity.
    + left. apply Prim2SF_inj. revert Hf Ha Ha'. sf_ops.
      sf_cases b'; sf_cases a; sf_cases a'; reflexivity.
  - right. revert Ha Ha' Hb Hb'. sf_ops.
    sf_cases a; sf_cases a'; sf_cases b; sf_cases b'; split; reflexivity.
Qed.

Lemma same_add a a' b b' :
  same_but_zero_sign a a' -> same_but_zero_sign b b' ->
  same_but_zero_sign (a + b) (a' + b').
Proof.
  intros [->|[Ha Ha']] [->|[Hb Hb']].
  - left; reflexivity.
  - destruct (double_zero a') eqn:Hf.
    + right. revert Hf Hb Hb'. sf_ops.
      sf_cases a'; sf_cases b; sf_cases b'; split; reflexivity.
    + left. apply Prim2SF_inj. revert Hf Hb Hb'. sf_ops.
      sf_cases a'; sf_cases b; sf_cases b'; reflexivity.
  - destruct (double_zero b') eqn:Hf.
    + right. revert Hf Ha Ha'. sf_ops.
      sf_cases b'; sf_cases a; sf_cases a'; split; reflexivity.
    + left. apply Prim2SF_inj. revert Hf Ha Ha'. sf_ops.
      sf_cases b'; sf_cases a; sf_cases a'; reflexivity.
  - right. revert Ha Ha' Hb Hb'. sf_ops.
    sf_cases a; sf_cases a'; sf_cases b; sf_cases b'; split; reflexivity.
Qed.

Lemma same_all (l : list float) : Forall2 same_but_zero_sign l l.
Proof. apply Forall_Forall2_diag, Forall_forall. intros; apply same_refl. Qed.

End DoubleZeros.

(* ===================================================================== *)
(** * The schemes at rest *)
(* ===================================================================== *)

Section SchemesAtRest.
Implicit Types s v x mu Dt phi alpha : float.
Local Open Scope fl_scope.

(** With [p = 0], a volatility that is +0 (or NaN) and a xi that is a zero
    (or NaN), the Euler step of the volatility gives +0 (or NaN) again. *)
Lemma euler_vol_rest v x Dt phi :
  pos_zero_or_nan v = true -> zero_or_nan x = true ->
  pos_zero_or_nan (euler_vol v x (flit 0) Dt phi) = true.
Proof.
  intros Hv Hx. unfold euler_vol.
  apply pzn_add; [apply pzn_sub; [exact Hv|]|].
  - apply zn_mul_l, pzn_zn, pzn_sub; assumption.
  - apply zn_mul_l, zn_mul_r, pzn_zn, Hv.
Qed.

(** ... and the Runge-Kutta update of xi gives a zero (or NaN) again. *)
Lemma rk4_xi_rest v x Dt alpha :
  pos_zero_or_nan v = true -> zero_or_nan x = true ->
  zero_or_nan (rk4_xi v x Dt alpha) = true.
Proof.
  intros Hv Hx. unfold rk4_xi. cbv zeta.
  assert (forall k, zero_or_nan k = true -> forall h,
            zero_or_nan (flit 1 / alpha * (v + h * k - x)) = true) as Hk.
  { intros k Hk h. apply zn_mul_r, pzn_zn, pzn_sub; [|exact Hx].
    apply pzn_add; [exact Hv|]. apply zn_mul_r, Hk. }
  assert (zero_or_nan (flit 1 / alpha * (v - x)) = true) as H1
    by (apply zn_mul_r, pzn_zn, pzn_sub; assumption).
  pose proof (Hk _ H1 (flit 0.5 * Dt)) as H2.
  pose proof (Hk _ H2 (flit 0.5 * Dt)) as H3.
  pose proof (Hk _ H3 Dt) as H4.
  apply zn_add; [exact Hx|]. apply zn_mul_r.
  repeat apply zn_add; try assumption; apply zn_mul_r; assumption.
Qed.

(** There the Milstein correction of the volatility is a zero, or the Euler
    value is NaN already. *)
Lemma milstein_vol_rest v x Dt phi :
  pos_zero_or_nan v = true -> zero_or_nan x = true ->
  double_finite (phi * phi - Dt) = true ->
  milstein_vol v x (flit 0) Dt phi = euler_vol v x (flit 0) Dt phi.
Proof.
  intros Hv Hx Hq. unfold milstein_vol.
  change (v - (v - x) * Dt + flit 0 * v * phi) with (euler_vol v x (flit 0) Dt phi).
  pose proof (euler_vol_rest v x Dt phi Hv Hx) as HE.
  destruct (pzn_cases v Hv) as [->|Hn].
  - apply pzn_add_zero; [exact HE|]. apply zero_mul; [reflexivity | exact Hq].
  - apply nan_eq; [apply nan_add_l|]; unfold euler_vol;
      apply nan_add_l, nan_sub_l, Hn.
Qed.

(** From a volatility of +0, with [p = 0], whatever xi is. *)
Lemma milstein_vol_from_zero x Dt phi :
  double_finite (phi * phi - Dt) = true ->
  milstein_vol (flit 0) x (flit 0) Dt phi = euler_vol (flit 0) x (flit 0) Dt phi.
Proof.
  intros Hq. unfold milstein_vol, euler_vol.
  generalize ((flit 0 - x) * Dt). intros a2.
  assert (double_zero (flit 0.5 * flit 0 * flit 0 * flit 0 * (phi * phi - Dt))%fl
          = true) as Hc by (apply zero_mul; [reflexivity | exact Hq]).
  revert Hc. generalize (flit 0.5 * flit 0 * flit 0 * flit 0 * (phi * phi - Dt)).
  intros c Hc.
  assert (zero_or_nan (flit 0 * flit 0 * phi)%fl = true) as Hb
    by (apply zn_mul_l; reflexivity).
  revert Hb. generalize (flit 0 * flit 0 * phi). intros b Hb.
  apply Prim2SF_inj. revert Hc Hb. sf_ops.
  change (Prim2SF (literal 0)) with (S754_zero false).
  sf_cases a2; sf_cases b; sf_cases c; reflexivity.
Qed.

(** With a volatility of +0 (or NaN) the Milstein correction of the stock
    is a zero, or the Euler value is NaN already. *)
Lemma milstein_stock_rest s v mu Dt phi :
  pos_zero_or_nan v = true -> double_finite (phi * phi - Dt) = true ->
  same_but_zero_sign (milstein_stock s v mu Dt phi) (euler_stock s v mu Dt phi).
Proof.
  intros Hv Hq. unfold milstein_stock.
  change (s + mu * s * Dt + v * s * phi) with (euler_stock s v mu Dt phi).
  assert (double_nan (v * s)%fl = true ->
          same_but_zero_sign
            (euler_stock s v mu Dt phi + flit 0.5 * v * v * s * (phi * phi - Dt))%fl
            (euler_stock s v mu Dt phi)) as Hnan.
  { intros Hn. left. apply nan_eq; [apply nan_add_l|]; unfold euler_stock;
      apply nan_add_r, nan_mul_l, Hn. }
  destruct (pzn_cases v Hv) as [->|Hn]; [|apply Hnan, nan_mul_l, Hn].
  destruct (double_finite s) eqn:Hs.
  - apply add_zero. apply zero_mul; [|exact Hq].
    apply zero_mul; [reflexivity | exact Hs].
  - apply Hnan. apply zero_mul_nan; [reflexivity | exact Hs].
Qed.

Lemma euler_stock_same s s' v mu Dt phi :
  same_but_zero_sign s s' ->
  same_but_zero_sign (euler_stock s v mu Dt phi) (euler_stock s' v mu Dt phi).
Proof.
  intros Hs. unfold euler_stock.
  repeat first [ exact Hs | apply same_refl | apply same_add | apply same_mul ].
Qed.

Lemma stock_rest s s' v mu Dt phi :
  same_but_zero_sign s s' ->
  pos_zero_or_nan v = true -> double_finite (phi * phi - Dt) = true ->
  same_but_zero_sign (milstein_stock s v mu Dt phi) (euler_stock s' v mu Dt phi).
Proof.
  intros Hs Hv Hq. eapply same_trans; [apply milstein_stock_rest; assumption|].
  apply euler_stock_same, Hs.
Qed.

Lemma mat_set_same (v1 v2 : list float) i x1 x2 :
  Forall2 same_but_zero_sign v1 v2 -> same_but_zero_sign x1 x2 ->
  option_Forall2 (Forall2 same_but_zero_sign) (mat_set v1 i x1) (mat_set v2 i x2).
Proof.
  intros Hv Hx. destruct i as [|i]; [constructor|]. simpl.
  rewrite <- (Forall2_length _ _ _ Hv).
  destruct (decide _); constructor.
  - apply Forall2_insert; assumption.
  - apply Forall2_app; [exact Hv|].
    apply Forall2_app; [apply same_all | constructor; [exact Hx | constructor]].
Qed.

(** Lines 32-36 against lines 56-58 of [euler_weak.m]: with [p = 0] and
    [sig(i-1) = +0] the Milstein assignments write what the Euler ones do,
    up to the sign of a zero in [S(i)]. *)
Lemma fine_update_rest dt mu alfa dw dw1 i (a : paths) :
  mat_get (sig a) (i - 1) = Some (flit 0) ->
  double_finite (dw * dw - dt) = true -> double_finite (dw1 * dw1 - dt) = true ->
  option_Forall2 paths_same_but_zero_signs
    (fine_update dt mu (flit 0) alfa dw dw1 i a)
    (coarse_update dt mu (flit 0) alfa dw dw1 i a).
Proof.
  intros Ev Hq Hq1. unfold fine_update, coarse_update. rewrite Ev.
  destruct (mat_get (S_ a) (i - 1)) as [s|]; [|constructor].
  cbn [mbind option_bind].
  change (fadd (fadd (fadd s (fmul (fmul mu s) dt)) (fmul (fmul (flit 0) s) dw)) ?x)
    with (milstein_stock s (flit 0) mu dt dw).
  change (fadd (fadd s (fmul (fmul mu s) dt)) (fmul (fmul (flit 0) s) dw))
    with (euler_stock s (flit 0) mu dt dw).
  pose proof (mat_set_same (S_ a) (S_ a) i _ _ (same_all _)
                (milstein_stock_rest s (flit 0) mu dt dw eq_refl Hq)) as HS.
  destruct HS as [S1 S2 HS|]; [|constructor].
  cbn [mbind option_bind].
  destruct (mat_get (xi a) (i - 1)) as [x|]; [|constructor].
  cbn [mbind option_bind].
  pose proof (milstein_vol_from_zero x dt dw1 Hq1) as E.
  unfold milstein_vol, euler_vol in E. rewrite E.
  destruct (mat_set (sig a) i _) as [sig'|]; [|constructor].
  cbn [mbind option_bind].
  destruct (mat_get sig' (i - 1)) as [v|]; [|constructor].
  cbn [mbind option_bind].
  destruct (mat_set (xi a) i _) as [xi'|]; constructor.
  split_and!; done.
Qed.

End SchemesAtRest.

Section RunsAtRestFacts.
Context `{Gsl float} `{RungeKutta float}.
Variables (rs rv : gsl_rng) (L : nat) (Dt mu alpha : float).

(** One pass of the loop over [j] at rest, driven by the draw number [d]
    of each stream. *)
Lemma step_sim_rest d j (s1 s2 : sp_state) t :
  finite_increment Dt (gsl_variate d rs) = true ->
  finite_increment Dt (gsl_variate d rv) = true ->
  same_at_rest rs rv L d s1 s2 ->
  sim (same_at_rest rs rv L (S d))
    (stockPath_step milstein_stock milstein_vol Dt mu (flit 0) alpha j s1 t)
    (stockPath_step euler_stock euler_vol Dt mu (flit 0) alpha j s2 t).
Proof.
  intros Hfs Hfv (((Hrs & Hrv & Hv & Hx & Hi & Hst) & (Hds & Hdv) & Hls & Hlv & Hlx)
                  & Hv0 & Hx0).
  pose proof (Forall2_length _ _ _ Hst) as Hlen.
  rewrite (stockPath_step_eq _ _ _ _ _ _ _ s1 L),
    (stockPath_step_eq _ _ _ _ _ _ _ s2 L) by congruence.
  cbv zeta. rewrite <- Hrs, <- Hrv, <- Hv, <- Hx, <- Hi.
  destruct (sp_stock s1 !! (sp_index s1 - 1)) as [a1|] eqn:E1.
  2:{ destruct (sp_stock s2 !! (sp_index s1 - 1)) as [a2|] eqn:E2;
        [|split; reflexivity].
      apply lookup_lt_Some in E2. apply lookup_ge_None in E1. lia. }
  destruct (Forall2_lookup_l _ _ _ _ _ Hst E1) as (a2 & E2 & Ha). rewrite E2.
  destruct (sp_vol s1 !! (sp_index s1 - 1)) as [v|] eqn:Ev; [|split; reflexivity].
  destruct (sp_xi s1 !! (sp_index s1 - 1)) as [x|] eqn:Ex; [|split; reflexivity].
  destruct (decide _) as [Hidx|]; [|split; reflexivity].
  pose proof (Hv0 v eq_refl) as Hpv. pose proof (Hx0 x eq_refl) as Hzx.
  split; [reflexivity|]. cbn [fst snd].
  unfold same_at_rest, same_after, same_but_zero_signs.
  cbn [sp_rng_stock sp_rng_vol sp_stock sp_vol sp_xi sp_index].
  rewrite !length_insert.
  replace (S (sp_index s1) - 1) with (sp_index s1) by lia.
  rewrite !list_lookup_insert_eq by lia.
  rewrite Hds, Hdv in *.
  assert (double_finite
            (fmul (gsl_ran_gaussian (gsl_state_after d rs) (flit 1)).1 (fsqrt Dt)
             * fmul (gsl_ran_gaussian (gsl_state_after d rs) (flit 1)).1 (fsqrt Dt)
             - Dt)%fl = true) as Hqs by exact Hfs.
  assert (double_finite
            (fmul (gsl_ran_gaussian (gsl_state_after d rv) (flit 1)).1 (fsqrt Dt)
             * fmul (gsl_ran_gaussian (gsl_state_after d rv) (flit 1)).1 (fsqrt Dt)
             - Dt)%fl = true) as Hqv by exact Hfv.
  rewrite (milstein_vol_rest v x Dt _ Hpv Hzx Hqv).
  split_and!; try done.
  - apply Forall2_insert; [exact Hst|]. apply stock_rest; assumption.
  - intros v' [= <-]. apply euler_vol_rest; assumption.
  - intros x' [= <-]. apply rk4_xi_rest; assumption.
Qed.

Variables (samples N : nat).
Hypothesis increments_finite : forall k, k < samples * (N - 1) ->
  finite_increment Dt (gsl_variate k rs) = true /\
  finite_increment Dt (gsl_variate k rv) = true.

(** One pass of the loop over [i] at rest: the path number [i] uses the
    draws number [i * (N - 1) .. i * (N - 1) + N - 2]. *)
Lemma sample_sim_rest S_0 i (s1 s2 : sp_state) t :
  i < samples ->
  same_after rs rv L (i * (N - 1)) s1 s2 ->
  sim (same_after rs rv L (S i * (N - 1)))
    (stockPath_sample milstein_stock milstein_vol Dt (flit 0) S_0 (flit 0) mu
       (flit 0) alpha N i s1 t)
    (stockPath_sample euler_stock euler_vol Dt (flit 0) S_0 (flit 0) mu
       (flit 0) alpha N i s2 t).
Proof.
  intros Hi ((Hrs & Hrv & Hv & Hx & Hidx & Hst) & (Hds & Hdv) & Hls & Hlv & Hlx).
  pose proof (Forall2_length _ _ _ Hst) as Hlen.
  rewrite (stockPath_sample_eq _ _ _ _ _ _ _ _ _ _ _ s1 L),
    (stockPath_sample_eq _ _ _ _ _ _ _ _ _ _ _ s2 L) by congruence.
  cbv zeta. rewrite <- Hrs, <- Hrv, <- Hv, <- Hx, <- Hidx.
  destruct (decide _); [|split; reflexivity].
  apply (sim_mono (same_at_rest rs rv L (S i * (N - 1))));
    [intros a b [Hab _]; exact Hab|].
  replace (S i * (N - 1)) with (i * (N - 1) + (1 + (N - 1) - 1)) by lia.
  apply (for_each_sim_from (fun j => same_at_rest rs rv L (i * (N - 1) + (j - 1)))).
  - intros j u1 u2 t' Hj Hu.
    replace (i * (N - 1) + (S j - 1)) with (S (i * (N - 1) + (j - 1))) by lia.
    assert (i * (N - 1) + (j - 1) < samples * (N - 1)) as Hd.
    { assert (S i * (N - 1) <= samples * (N - 1)) by (apply Nat.mul_le_mono_r; lia).
      simpl in *. lia. }
    destruct (increments_finite _ Hd) as [Hfs Hfv].
    apply step_sim_rest; assumption.
  - unfold same_at_rest, same_after, same_but_zero_signs.
    cbn [sp_rng_stock sp_rng_vol sp_stock sp_vol sp_xi sp_index].
    rewrite !length_insert.
    replace (S (sp_index s1) - 1) with (sp_index s1) by lia.
    rewrite !list_lookup_insert_eq by lia.
    rewrite Nat.add_0_r.
    split_and!; try done.
    + apply Forall2_insert; [exact Hst | apply same_refl].
    + intros v [= <-]. reflexivity.
    + intros x [= <-]. reflexivity.
Qed.

Lemma stockPath_sim_rest S_0 (sp vp xp : list float) t :
  length sp = L -> length vp = L -> length xp = L ->
  sim same_but_zero_signs
    (stockPath rs rv samples Dt (flit 0) S_0 (flit 0) mu (flit 0) alpha N MILSTEIN
       sp vp xp t)
    (stockPath rs rv samples Dt (flit 0) S_0 (flit 0) mu (flit 0) alpha N EULER
       sp vp xp t).
Proof.
  intros Hls Hlv Hlx. unfold stockPath. rewrite !mex_bind_unfold.
  cbn [select_method mret mex_ret].
  apply (sim_mono (same_after rs rv L (0 + samples * (N - 1))));
    [intros a b [Hab _]; exact Hab|].
  replace (0 + samples * (N - 1)) with ((0 + samples) * (N - 1)) by lia.
  apply (for_each_sim_from (fun i => same_after rs rv L (i * (N - 1)))).
  - intros i u1 u2 t' Hi Hu. apply sample_sim_rest; [lia | exact Hu].
  - unfold same_after, same_but_zero_signs.
    cbn [sp_rng_stock sp_rng_vol sp_stock sp_vol sp_xi sp_index].
    split_and!; try done. apply same_all.
Qed.

End RunsAtRestFacts.

(* ===================================================================== *)
(** * The state of a generator on allocation *)
(* ===================================================================== *)

Lemma for_each_map {S1 S2} (f : S1 -> S2) (l : list nat)
    (body1 : nat -> S1 -> mex S1) (body2 : nat -> S2 -> mex S2) :
  (forall i s t, body2 i (f s) t = outcome_map f (body1 i s t)) ->
  forall s t, for_each l body2 (f s) t = outcome_map f (for_each l body1 s t).
Proof.
  intros Hbody. induction l as [|i l IH]; intros s t; simpl.
  - reflexivity.
  - rewrite !mex_bind_unfold, Hbody.
    destruct (body1 i s t) as [[a|msg|e] t1]; cbn [outcome_map fst snd];
      [apply IH | reflexivity ..].
Qed.

Section Allocation.
Context {F : Type} `{Arith F} {G : Gsl F} `{RungeKutta F}.
Variable r0 : @gsl_rng F G.

(** [stockPath] never allocates: with [allocating G r0] it does what it
    does with [G]. *)
Lemma stockPath_step_alloc fs fv Dt mu p alpha j
    (st : @sp_state F (allocating G r0)) t :
  @stockPath_step F _ G fs fv Dt mu p alpha j (sp_state_of r0 st) t
  = outcome_map (sp_state_of r0)
      (@stockPath_step F _ (allocating G r0) fs fv Dt mu p alpha j st t).
Proof.
  destruct st as [rs rv sp vp xp idx].
  unfold stockPath_step, draw, store, load_before, load, sp_state_of, outcome_map.
  cbv beta iota zeta delta [mbind mex_bind mret mex_ret emit raise_fault].
  cbn [sp_rng_stock sp_rng_vol sp_stock sp_vol sp_xi sp_index fst snd].
  change (@gsl_ran_gaussian F (allocating G r0)) with (@gsl_ran_gaussian F G).
  destruct (@gsl_ran_gaussian F G rs (flit 1)) as [g1 rs'].
  destruct (@gsl_ran_gaussian F G rv (flit 1)) as [g2 rv']. cbn [fst snd].
  destruct idx as [|i]; [reflexivity|].
  destruct (sp !! i) as [s|]; [|reflexivity].
  destruct (vp !! i) as [v|]; [|reflexivity].
  cbn [fst snd].
  destruct (decide (S i < length sp)); [|reflexivity]. cbn [fst snd].
  destruct (xp !! i) as [x|]; [|reflexivity]. cbn [fst snd].
  destruct (decide (S i < length vp)); [|reflexivity]. cbn [fst snd].
  destruct (<[S i:=fv v x p Dt (fmul g2 (fsqrt Dt))]> vp !! i); [|reflexivity].
  cbn [fst snd].
  destruct (decide (S i < length xp)); reflexivity.
Qed.

Lemma stockPath_sample_alloc fs fv Dt sigma_0 S_0 xi_0 mu p alpha N i
    (st : @sp_state F (allocating G r0)) t :
  @stockPath_sample F _ G fs fv Dt sigma_0 S_0 xi_0 mu p alpha N i
    (sp_state_of r0 st) t
  = outcome_map (sp_state_of r0)
      (@stockPath_sample F _ (allocating G r0) fs fv Dt sigma_0 S_0 xi_0 mu p
         alpha N i st t).
Proof.
  destruct st as [rs rv sp vp xp idx].
  unfold stockPath_sample, store.
  cbv beta iota zeta delta [mbind mex_bind mret mex_ret emit raise_fault].
  cbn [sp_rng_stock sp_rng_vol sp_stock sp_vol sp_xi sp_index sp_state_of].
  destruct (decide (idx < length sp)); [|reflexivity].
  destruct (decide (idx < length vp)); [|reflexivity].
  destruct (decide (idx < length xp)); [|reflexivity].
  apply (for_each_map (sp_state_of r0) _
           (@stockPath_step F _ (allocating G r0) fs fv Dt mu p alpha)
           (@stockPath_step F _ G fs fv Dt mu p alpha)
           (stockPath_step_alloc fs fv Dt mu p alpha)
           (@SpState F (allocating G r0) rs rv _ _ _ _)).
Qed.

Lemma stockPath_alloc (rs rv : @gsl_rng F G) samples Dt sigma_0 S_0 xi_0 mu p alpha
    N num_method sp vp xp t :
  @stockPath F _ G _ rs rv samples Dt sigma_0 S_0 xi_0 mu p alpha N num_method
    sp vp xp t
  = outcome_map (sp_state_of r0)
      (@stockPath F _ (allocating G r0) _ rs rv samples Dt sigma_0 S_0 xi_0 mu p
         alpha N num_method sp vp xp t).
Proof.
  unfold stockPath. rewrite !mex_bind_unfold.
  destruct num_method; cbn [select_method mret mex_ret mexErrMsgTxt];
    try reflexivity;
    apply (for_each_map (sp_state_of r0) _ _ _
             (stockPath_sample_alloc _ _ Dt sigma_0 S_0 xi_0 mu p alpha N)
             (@SpState F (allocating G r0) rs rv sp vp xp 0)).
Qed.

(** When seeding resets a generator, whatever state it was allocated in, a
    call does not depend on that state: both generators are seeded (lines
    176-177) before the first draw. *)
Lemma mexFunction_alloc nlhs (prhs : list (mxArray F)) t :
  (forall (r r' : @gsl_rng F G) seed,
     @gsl_rng_set F G r seed = @gsl_rng_set F G r' seed) ->
  @mexFunction F _ (allocating G r0) _ nlhs prhs t = @mexFunction F _ G _ nlhs prhs t.
Proof.
  intros seeding. unfold mexFunction.
  do 11 (destruct prhs as [|? prhs]; [cbv beta iota; reflexivity|]).
  destruct prhs; cbv beta iota; [|reflexivity].
  destruct (decide (nlhs <> 3%Z)); [reflexivity|].
  destruct (_ || _); [reflexivity|].
  rewrite !mex_bind_unfold.
  destruct (mxGetPr _ t) as [[alpha|?|?] t1]; [|reflexivity..].
  destruct (negb (fgt alpha (flit 0))); [reflexivity|].
  destruct (negb _); [reflexivity|].
  repeat (rewrite !mex_bind_unfold;
          match goal with
          | |- context [mxGetPr ?a ?t] =>
              destruct (mxGetPr a t) as [[?|?|?] ?]; [|reflexivity..]
          | |- context [mxCreateDoubleMatrix ?m ?n ?t] =>
              destruct (mxCreateDoubleMatrix m n t) as [[?|?|?] ?]; [|reflexivity..]
          | |- context [mxArrayToString ?a ?t] =>
              destruct (mxArrayToString a t) as [[?|?|?] ?]; [|reflexivity..]
          | |- context [parse_method ?a ?t] =>
              destruct (parse_method a t) as [[?|?|?] ?]; [|reflexivity..]
          | |- context [emit ?e ?t] =>
              change (emit e t) with (Done tt, t ++ [e])
          end; cbv iota beta).
  cbn [gsl_rng_set gsl_rng_alloc allocating].
  rewrite (seeding r0 gsl_rng_alloc), (seeding r0 gsl_rng_alloc _).
  rewrite !mex_bind_unfold.
  rewrite (stockPath_alloc (gsl_rng_set gsl_rng_alloc _)). unfold outcome_map.
  destruct (stockPath _ _ _ _ _ _ _ _ _ _ _ _ _ _ _ _) as [[st|?|?] ?];
    cbn [fst snd]; reflexivity.
Qed.

End Allocation.

(* ===================================================================== *)
(** * What the buffers held before a run *)
(* ===================================================================== *)

Section BufferContents.
Context {F : Type} `{Arith F} `{Gsl F} `{RungeKutta F}.

Lemma step_sim_written (fs fv : step_fn F) Dt mu p alpha L j (s1 s2 : sp_state) t :
  same_written L s1 s2 ->
  sim (same_written L)
    (stockPath_step fs fv Dt mu p alpha j s1 t)
    (stockPath_step fs fv Dt mu p alpha j s2 t).
Proof.
  intros (Hrs & Hrv & Hi & (Hl1 & Hl2 & Hl3) & (Hl4 & Hl5 & Hl6) & Hc).
  rewrite (stockPath_step_eq _ _ _ _ _ _ _ s1 L),
    (stockPath_step_eq _ _ _ _ _ _ _ s2 L) by assumption.
  cbv zeta. rewrite <- Hrs, <- Hrv, <- Hi.
  destruct (decide (1 <= sp_index s1 < L)) as [Hidx|Hidx].
  - destruct (Hc (sp_index s1 - 1) ltac:(lia)) as (<- & <- & <-).
    destruct (sp_stock s1 !! (sp_index s1 - 1)) as [s|]; [|split; reflexivity].
    destruct (sp_vol s1 !! (sp_index s1 - 1)) as [v|]; [|split; reflexivity].
    destruct (sp_xi s1 !! (sp_index s1 - 1)) as [x|]; [|split; reflexivity].
    split; [reflexivity|]. cbn [fst snd]. unfold same_written.
    cbn [sp_rng_stock sp_rng_vol sp_stock sp_vol sp_xi sp_index].
    rewrite !length_insert. split_and!; try done.
    intros c Hlt. destruct (decide (c = sp_index s1)) as [->|Hne].
    + rewrite !list_lookup_insert_eq by lia. done.
    + rewrite !list_lookup_insert_ne by lia. apply Hc. lia.
  - destruct (sp_stock s1 !! (sp_index s1 - 1)), (sp_vol s1 !! (sp_index s1 - 1)),
      (sp_xi s1 !! (sp_index s1 - 1)), (sp_stock s2 !! (sp_index s1 - 1)),
      (sp_vol s2 !! (sp_index s1 - 1)), (sp_xi s2 !! (sp_index s1 - 1));
      split; reflexivity.
Qed.

Lemma sample_sim_written (fs fv : step_fn F) Dt sigma_0 S_0 xi_0 mu p alpha N L i
    (s1 s2 : sp_state) t :
  same_written L s1 s2 ->
  sim (same_written L)
    (stockPath_sample fs fv Dt sigma_0 S_0 xi_0 mu p alpha N i s1 t)
    (stockPath_sample fs fv Dt sigma_0 S_0 xi_0 mu p alpha N i s2 t).
Proof.
  intros (Hrs & Hrv & Hi & (Hl1 & Hl2 & Hl3) & (Hl4 & Hl5 & Hl6) & Hc).
  rewrite (stockPath_sample_eq _ _ _ _ _ _ _ _ _ _ _ s1 L),
    (stockPath_sample_eq _ _ _ _ _ _ _ _ _ _ _ s2 L) by assumption.
  cbv zeta. rewrite <- Hrs, <- Hrv, <- Hi.
  destruct (decide _); [|split; reflexivity].
  apply for_each_sim; [intros; apply step_sim_written; assumption|].
  unfold same_written.
  cbn [sp_rng_stock sp_rng_vol sp_stock sp_vol sp_xi sp_index].
  rewrite !length_insert. split_and!; try done.
  intros c Hlt. destruct (decide (c = sp_index s1)) as [->|Hne].
  - rewrite !list_lookup_insert_eq by lia. done.
  - rewrite !list_lookup_insert_ne by lia. apply Hc. lia.
Qed.

(** [stockPath] writes every cell before it reads it: on buffers of
    samples * N cells the state it ends in does not depend on what the
    buffers held. *)
Lemma stockPath_overwrites (rs rv : gsl_rng) samples Dt sigma_0 S_0 xi_0 mu p alpha
    N num_method (sp vp xp sp' vp' xp' : list F) t :
  num_method <> NO_METHOD -> samples = 0 \/ 1 <= N ->
  length sp = samples * N -> length vp = samples * N -> length xp = samples * N ->
  length sp' = samples * N -> length vp' = samples * N -> length xp' = samples * N ->
  exists st t',
    stockPath rs rv samples Dt sigma_0 S_0 xi_0 mu p alpha N num_method sp vp xp t
      = (Done st, t') /\
    stockPath rs rv samples Dt sigma_0 S_0 xi_0 mu p alpha N num_method sp' vp' xp' t
      = (Done st, t').
Proof.
  intros Hm HN Hls Hlv Hlx Hls' Hlv' Hlx'.
  destruct (stockPath_invariant rs rv samples Dt sigma_0 S_0 xi_0 mu p alpha N
              num_method sp vp xp t Hm HN Hls Hlv Hlx) as (st & t1 & E1 & Hidx & _).
  destruct (stockPath_invariant rs rv samples Dt sigma_0 S_0 xi_0 mu p alpha N
              num_method sp' vp' xp' t Hm HN Hls' Hlv' Hlx') as (st' & t2 & E2 & _).
  exists st, t1. split; [exact E1|]. rewrite E2.
  assert (sim (same_written (samples * N)) (Done st, t1) (Done st', t2)) as [Ht Ho].
  { rewrite <- E1, <- E2. unfold stockPath. rewrite !mex_bind_unfold.
    destruct num_method; cbn [select_method mret mex_ret]; try congruence;
      (apply for_each_sim; [intros; apply sample_sim_written; assumption|]);
      unfold same_written; cbn [sp_rng_stock sp_rng_vol sp_stock sp_vol sp_xi sp_index];
      split_and!; try done; intros c Hc; lia. }
  cbn [fst snd] in Ht, Ho. subst t2. f_equal. f_equal.
  destruct Ho as (Hrs & Hrv & Hi & (Hl1 & Hl2 & Hl3) & (Hl4 & Hl5 & Hl6) & Hc).
  destruct st as [a1 a2 a3 a4 a5 a6], st' as [b1 b2 b3 b4 b5 b6].
  cbn [sp_rng_stock sp_rng_vol sp_stock sp_vol sp_xi sp_index] in *. subst.
  assert (forall l l' : list F,
            length l = samples * N -> length l' = samples * N ->
            (forall c, c < samples * N -> l !! c = l' !! c) -> l = l') as Heq.
  { intros l l' Hl Hl' Hsame. apply list_eq. intros c.
    destruct (decide (c < samples * N)) as [Hlt|Hge]; [apply Hsame, Hlt|].
    rewrite !(proj2 (lookup_ge_None _ _)) by lia. reflexivity. }
  f_equal; apply Heq; try assumption; intros c Hlt;
    destruct (Hc c Hlt) as (? & ? & ?); congruence.
Qed.

End BufferContents.

(* ===================================================================== *)
(** * The claims of the specification *)
(* ===================================================================== *)

Lemma float_neq (x y : float) : Prim2SF x <> Prim2SF y -> x <> y.
Proof. intros Hne E. apply Hne. rewrite E. reflexivity. Qed.

Section UpdateOfXi.
Context {F : Type} `{Arith F}.

(** Lines 32-36 and 56-58 of [euler_weak.m]: whenever the three assignments
    succeed, the new [xi(i)] is the explicit Euler step from [sig(i-1)] and
    [xi(i-1)]. *)
Lemma fine_update_xi dtex mu p alfa dw dw1 i (a a' : paths) :
  fine_update dtex mu p alfa dw dw1 i a = Some a' ->
  exists v x, mat_get (sig a) (i - 1) = Some v /\ mat_get (xi a) (i - 1) = Some x /\
              mat_get (xi a') i = Some (euler_xi v x alfa dtex).
Proof.
  unfold fine_update. intros E.
  destruct (mat_get (S_ a) (i - 1)) as [s|]; [|discriminate].
  destruct (mat_get (sig a) (i - 1)) as [v|] eqn:Ev; [|discriminate].
  cbn [mbind option_bind] in E.
  destruct (mat_set (S_ a) i _) as [S'|]; [|discriminate].
  destruct (mat_get (xi a) (i - 1)) as [x|] eqn:Ex; [|discriminate].
  cbn [mbind option_bind] in E.
  destruct (mat_set (sig a) i _) as [sig'|] eqn:Esig; [|discriminate].
  cbn [mbind option_bind] in E.
  pose proof (mat_get_Some _ _ _ Ev) as Hi.
  rewrite (mat_set_get_ne _ _ _ _ (i - 1) v Esig) in E by (lia || assumption).
  cbn [mbind option_bind] in E.
  destruct (mat_set (xi a) i _) as [xi'|] eqn:Exi; [|discriminate].
  injection E as <-. exists v, x. split_and!; try reflexivity.
  cbn [xi]. exact (mat_set_get_eq _ _ _ _ Exi).
Qed.

Lemma coarse_update_xi dt mu p alfa dw dw1 i (a a' : paths) :
  coarse_update dt mu p alfa dw dw1 i a = Some a' ->
  exists v x, mat_get (sig a) (i - 1) = Some v /\ mat_get (xi a) (i - 1) = Some x /\
              mat_get (xi a') i = Some (euler_xi v x alfa dt).
Proof.
  unfold coarse_update. intros E.
  destruct (mat_get (S_ a) (i - 1)) as [s|]; [|discriminate].
  destruct (mat_get (sig a) (i - 1)) as [v|] eqn:Ev; [|discriminate].
  cbn [mbind option_bind] in E.
  destruct (mat_set (S_ a) i _) as [S'|]; [|discriminate].
  destruct (mat_get (xi a) (i - 1)) as [x|] eqn:Ex; [|discriminate].
  cbn [mbind option_bind] in E.
  destruct (mat_set (sig a) i _) as [sig'|] eqn:Esig; [|discriminate].
  cbn [mbind option_bind] in E.
  pose proof (mat_get_Some _ _ _ Ev) as Hi.
  rewrite (mat_set_get_ne _ _ _ _ (i - 1) v Esig) in E by (lia || assumption).
  cbn [mbind option_bind] in E.
  destruct (mat_set (xi a) i _) as [xi'|] eqn:Exi; [|discriminate].
  injection E as <-. exists v, x. split_and!; try reflexivity.
  cbn [xi]. exact (mat_set_get_eq _ _ _ _ Exi).
Qed.

End UpdateOfXi.

Lemma NumWrapper_step_xi {F} `{Arith F} methods Dt mu p alpha
    (phiStock phiVol : list F) i j (a a' : nw_paths) :
  NumWrapper_step methods Dt mu p alpha phiStock phiVol i j a = Some a' ->
  exists volt xit,
    mat2_get (volPaths a) i (j - 1) = Some volt /\
    mat2_get (xiPaths a) i (j - 1) = Some xit /\
    mat2_get (xiPaths a') i j = Some (rk4_xit volt xit Dt alpha).
Proof.
  unfold NumWrapper_step. intros E.
  destruct (mat2_get (volPaths a) i (j - 1)) as [volt|]; [|discriminate].
  destruct (mat2_get (xiPaths a) i (j - 1)) as [xit|]; [|discriminate].
  destruct methods as [[fs fv]|]; [|discriminate].
  cbn [mbind option_bind] in E.
  destruct (mat_get phiVol (j - 1)) as [phi|]; [|discriminate].
  cbn [mbind option_bind] in E.
  destruct (mat2_set (volPaths a) i j _) as [vp|]; [|discriminate].
  destruct (mat2_set (xiPaths a) i j _) as [xp|] eqn:Ex; [|discriminate].
  cbn [mbind option_bind] in E.
  destruct (mat2_get (stockPaths a) i (j - 1)) as [s|]; [|discriminate].
  destruct (mat2_get vp i (j - 1)) as [v|]; [|discriminate].
  destruct (mat_get phiStock (j - 1)) as [phi'|]; [|discriminate].
  cbn [mbind option_bind] in E.
  destruct (mat2_set (stockPaths a) i j _) as [sp|]; [|discriminate].
  injection E as <-. exists volt, xit. split_and!; try reflexivity.
  cbn [xiPaths]. exact (mat2_set_get_eq _ _ _ _ _ Ex).
Qed.

(** C1, as stated, fails in the convergence script.  In the first
    repetition of [euler_weak.m], with draws equal to 1, the reference loop
    reaches [sig(2) = 0.202], [xi(2) = 0.2] and then writes
    [xi(3) = 0.20000020000000002], the explicit Euler step of line 36; the
    Runge-Kutta formula of section 4.3 gives 0.20000020001000035 there.
    And [stockPath] computes each stage as [1 / alpha * (...)] where
    section 4.3 has the quotient [(...) / alpha]: with [alpha = 3],
    [sigma_0 = 1], [xi_0 = 0] and [Dt = 0.25] it writes
    [xi_paths[1] = 0.086904015560699571], and the formula of section 4.3
    gives 0.086904015560699599. *)
Lemma xi_update_is_not_rk4_step :
  (exists v x y,
     Examples.reference_xi3 = Some (v, x, y) /\
     y = euler_xi v x (flit 1) (flit 0.0001) /\
     y <> rk4_step v x (flit 0.0001) (flit 1)) /\
  (exists st t v x y,
     Examples.relaxation_run = (Done st, t) /\
     sp_vol st !! 0 = Some v /\ sp_xi st !! 0 = Some x /\
     sp_xi st !! 1 = Some y /\
     y <> rk4_step v x 0.25%float 3%float).
Proof.
  split.
  - eexists _, _, _. split_and!.
    + vm_compute. reflexivity.
    + vm_compute. reflexivity.
    + apply float_neq. vm_compute. discriminate.
  - eexists _, _, _, _, _. split_and!.
    + vm_compute. reflexivity.
    + reflexivity.
    + reflexivity.
    + reflexivity.
    + apply float_neq. vm_compute. discriminate.
Qed.

Lemma exact_div_laws : DivLaws Qc.
Proof.
  assert (Q2Qc 0.5 = / Q2Qc 2)%Qc as E2 by (apply Qc_is_canon; reflexivity).
  split; intros; cbn [fmul fdiv flit Exact.arith]; unfold Qcdiv.
  - change (Q2Qc 1) with 1%Qc. ring.
  - rewrite E2. ring.
Qed.

(** C1 (amended).  In the path simulators the relaxation variable is
    advanced at every step by the four stages and the weighted sum of
    section 4.3, with the volatility frozen at the left endpoint, whichever
    scheme is selected, each stage being computed as [1 / alpha * (...)]
    and the half step as [0.5 * Dt] in [stockPath] and as [Dt / 2] in
    [NumWrapper]: [stockPath] runs to completion and every cell [j >= 1] of
    every path of [xi_paths] is that value for the cells [j - 1] of
    [vol_paths] and [xi_paths]; a pass of [NumWrapper] writes it likewise.
    In exact arithmetic ([DivLaws]) both values are [rk4_step], the formula
    of section 4.3 word for word.  In the convergence script [euler_weak.m]
    xi is advanced by the explicit Euler step [euler_xi] instead, in the
    reference loop and in the coarse loops. *)
Theorem xi_update_by_component {F} `{Arith F} `{Gsl F} `{RungeKutta F} :
  (forall (rs rv : gsl_rng) samples Dt sigma_0 S_0 xi_0 mu p alpha N num_method
          (sp vp xp : list F) t0,
     num_method <> NO_METHOD -> samples = 0 \/ 1 <= N ->
     length sp = samples * N -> length vp = samples * N ->
     length xp = samples * N ->
     exists st t',
       stockPath rs rv samples Dt sigma_0 S_0 xi_0 mu p alpha N num_method
         sp vp xp t0 = (Done st, t') /\
       forall s j, s < samples -> 1 <= j < N ->
         exists v x,
           sp_vol st !! (s * N + j - 1) = Some v /\
           sp_xi st !! (s * N + j - 1) = Some x /\
           sp_xi st !! (s * N + j)
             = Some (rk4_stages (fmul (flit 1 / alpha)%fl) (flit 0.5 * Dt)%fl
                       v x Dt)) /\
  (forall methods Dt mu p alpha (phiStock phiVol : list F) i j (a a' : nw_paths),
     NumWrapper_step methods Dt mu p alpha phiStock phiVol i j a = Some a' ->
     exists volt xit,
       mat2_get (volPaths a) i (j - 1) = Some volt /\
       mat2_get (xiPaths a) i (j - 1) = Some xit /\
       mat2_get (xiPaths a') i j
         = Some (rk4_stages (fmul (flit 1 / alpha)%fl) (Dt / flit 2)%fl
                   volt xit Dt)) /\
  (DivLaws F ->
   forall v x Dt alpha : F,
     rk4_stages (fmul (flit 1 / alpha)%fl) (flit 0.5 * Dt)%fl v x Dt
       = rk4_step v x Dt alpha /\
     rk4_stages (fmul (flit 1 / alpha)%fl) (Dt / flit 2)%fl v x Dt
       = rk4_step v x Dt alpha) /\
  (forall dtex mu p alfa (r r1 : list F) i (a a' : paths),
     fine_body dtex mu p alfa r r1 i a = Some a' ->
     exists v x,
       mat_get (sig a) (i - 1) = Some v /\ mat_get (xi a) (i - 1) = Some x /\
       mat_get (xi a') i = Some (euler_xi v x alfa dtex)) /\
  (forall k dtex dt mu p alfa (r r1 : list F) i (a a' : paths),
     coarse_body k dtex dt mu p alfa r r1 i a = Some a' ->
     exists v x,
       mat_get (sig a) (i - 1) = Some v /\ mat_get (xi a) (i - 1) = Some x /\
       mat_get (xi a') i = Some (euler_xi v x alfa dt)).
Proof.
  split_and!.
  - intros rs rv samples Dt sigma_0 S_0 xi_0 mu p alpha N num_method sp vp xp t0
      Hm HN Hls Hlv Hlx.
    destruct (stockPath_invariant rs rv samples Dt sigma_0 S_0 xi_0 mu p alpha N
                num_method sp vp xp t0 Hm HN Hls Hlv Hlx)
      as (st & t' & E & _ & _ & _ & Hrk & _).
    exists st, t'. split; [exact E|]. intros s j Hs Hj.
    replace (s * N + j - 1) with ((s * N + j) - 1) by lia.
    apply Hrk.
    + assert (S s * N <= samples * N) by (apply Nat.mul_le_mono_r; lia).
      simpl in *. lia.
    + replace (s * N + j) with (j + s * N) by lia.
      rewrite Nat.Div0.mod_add, Nat.mod_small by lia. lia.
  - intros. eapply NumWrapper_step_xi. eassumption.
  - intros Hlaws v x Dt alpha. unfold rk4_stages, rk4_step. cbv zeta.
    rewrite !div_2, !mul_inv_l. split; reflexivity.
  - intros dtex mu p alfa r r1 i a a' E. unfold fine_body in E.
    destruct (mat_get r i) as [r_i|]; [|discriminate].
    destruct (mat_get r1 i) as [r1_i|]; [|discriminate].
    exact (fine_update_xi _ _ _ _ _ _ _ _ _ E).
  - intros k dtex dt mu p alfa r r1 i a a' E. unfold coarse_body in E.
    destruct (sum_draws k i r r1) as [[tmp tmp1]|]; [|discriminate].
    exact (coarse_update_xi _ _ _ _ _ _ _ _ _ E).
Qed.

Lemma xi_update_by_component_witness :
  (exists st t',
     Examples.path_run MILSTEIN = (Done st, t') /\
     forall s j, s < 1 -> 1 <= j < 3 ->
       exists v x,
         sp_vol st !! (s * 3 + j - 1) = Some v /\
         sp_xi st !! (s * 3 + j - 1) = Some x /\
         sp_xi st !! (s * 3 + j)
           = Some (rk4_stages (fmul (flit 1 / 1%float)%fl)
                     (flit 0.5 * 0.25%float)%fl v x 0.25%float)) /\
  (forall a', Examples.tiny_pass = Some a' ->
     exists v x,
       mat_get (sig Examples.tiny) (2 - 1) = Some v /\
       mat_get (xi Examples.tiny) (2 - 1) = Some x /\
       mat_get (xi a') 2 = Some (euler_xi v x 1%float 1%float)) /\
  is_Some Examples.tiny_pass /\
  rk4_stages (fmul (flit 1 / Q2Qc 3)%fl) (flit 0.5 * Q2Qc 0.25)%fl
    1%Qc 0%Qc (Q2Qc 0.25)
  = rk4_step 1%Qc 0%Qc (Q2Qc 0.25) (Q2Qc 3).
Proof.
  pose proof (@xi_update_by_component float _ Examples.gsl rk_stand_in)
    as (Hpath & _ & _ & Hfine & _).
  pose proof (@xi_update_by_component Qc _ (scripted_gsl (fun _ => [])) rk_stand_in)
    as (_ & _ & Hexact & _).
  split_and!.
  - apply Hpath; [discriminate | right; lia | reflexivity ..].
  - apply Hfine.
  - vm_compute. eauto.
  - apply (Hexact exact_div_laws).
Defined.

(** C2, as stated, fails on both counts.  With the method name "foo" the
    error is raised, but only after the three output matrices have been
    allocated; and "eulerx", which is not one of the three names, raises no
    error at all, because lines 158-164 compare prefixes.  (One path,
    T / Dt = 3.) *)
Lemma method_check_after_allocation :
  Examples.call 1 0.75 "foo"
    = (MexErr "Only 'euler', 'milstein' and 'rk' are implemented",
       [EvCreateMatrix 3 1; EvCreateMatrix 3 1; EvCreateMatrix 3 1]) /\
  exists r t, Examples.call 1 0.75 "eulerx" = (Done r, t).
Proof.
  split.
  - vm_compute. reflexivity.
  - eexists _, _. vm_compute. reflexivity.
Qed.

(** C2 (amended).  When the method name starts with none of "euler",
    "milstein", "rk" (in a well-typed call with alpha > 0 whose matrices can
    be allocated), [mexFunction] ends with the error message of line 166
    after having allocated the three output matrices and before creating any
    generator: the three allocations are the only events of the call, so no
    generator is created or advanced and no cell is written, and no matrix
    is returned. *)
Theorem unrecognised_method_error {F} `{Arith F} `{Gsl F} `{RungeKutta F}
    (randstate samples_in Dt sigma_0 S_0 xi_0 mu p alpha T : F) name t :
  fgt alpha (flit 0) = true ->
  recognised name = false ->
  (0 <= lround (T / Dt)%fl)%Z -> (0 <= lround samples_in)%Z ->
  mexFunction 3
    (stocksim_args randstate samples_in Dt sigma_0 S_0 xi_0 mu p alpha T name) t
  = (MexErr "Only 'euler', 'milstein' and 'rk' are implemented",
     t ++ [EvCreateMatrix (lround (T / Dt)%fl) (lround samples_in);
           EvCreateMatrix (lround (T / Dt)%fl) (lround samples_in);
           EvCreateMatrix (lround (T / Dt)%fl) (lround samples_in)]).
Proof.
  intros Halpha Hname HN Hs. rewrite mexFunction_on_args, Halpha. cbv zeta.
  destruct (decide _) as [_|Hneg]; [|tauto]. rewrite Hname. reflexivity.
Qed.

Lemma unrecognised_method_error_witness :
  Examples.call 1 0.75 "Euler"
  = (MexErr "Only 'euler', 'milstein' and 'rk' are implemented",
     [] ++ [EvCreateMatrix (lround (0.75 / 0.25)%float) (lround 1%float);
            EvCreateMatrix (lround (0.75 / 0.25)%float) (lround 1%float);
            EvCreateMatrix (lround (0.75 / 0.25)%float) (lround 1%float)]).
Proof.
  refine ((@unrecognised_method_error float _ Examples.gsl rk_stand_in
             42 1 0.25 0 1 1 0 0 1 0.75)%float "Euler" [] _ _ _ _);
    vm_compute; congruence.
Defined.

(** C4, as stated, fails: a call with [sample_count = 0] (and a valid
    method, alpha, Dt and T) is not rejected; it runs to its end and returns
    three matrices without columns. *)
Lemma zero_samples_run :
  Examples.call 0 0.75 "euler"
    = (Done (MxMatrix 3 0 [], MxMatrix 3 0 [], MxMatrix 3 0 []),
       [EvCreateMatrix 3 0; EvCreateMatrix 3 0; EvCreateMatrix 3 0;
        EvRngAlloc; EvRngAlloc; EvRngSet; EvRngSet; EvRngFree; EvRngFree]).
Proof. vm_compute. reflexivity. Qed.

(** C4 (amended).  [mexFunction] ends with an error message exactly in these
    cases: the call has not eleven inputs and three outputs, or one of the
    ten numeric inputs is not a double or the method is not a char array
    (first part: such a call is always rejected, with the trace untouched);
    alpha is not greater than zero; or, once the output matrices are
    allocated, the method name starts with none of "euler", "milstein",
    "rk" (second part: a well-typed call is rejected in these two cases
    only).  Dt, T and the sample count are not checked. *)
Theorem errors_raised_exactly {F} `{Arith F} `{Gsl F} `{RungeKutta F} :
  (forall nlhs (prhs : list (mxArray F)) t,
     nlhs <> 3%Z \/ ~ well_typed prhs ->
     exists msg, mexFunction nlhs prhs t = (MexErr msg, t)) /\
  (forall (randstate samples_in Dt sigma_0 S_0 xi_0 mu p alpha T : F) name t,
     (exists msg t',
        mexFunction 3
          (stocksim_args randstate samples_in Dt sigma_0 S_0 xi_0 mu p alpha T
             name) t = (MexErr msg, t'))
     <-> (fgt alpha (flit 0) = false \/
          (recognised name = false /\
           (0 <= lround (T / Dt)%fl)%Z /\ (0 <= lround samples_in)%Z))).
Proof.
  split; [intros; apply mexFunction_ill_typed; assumption|].
  intros randstate samples_in Dt sigma_0 S_0 xi_0 mu p alpha T name t.
  rewrite mexFunction_on_args. cbv zeta.
  destruct (fgt alpha (flit 0)).
  2:{ split; [auto | intros _; eexists _, _; reflexivity]. }
  destruct (decide _) as [[HN Hs]|Hneg].
  2:{ split; [intros (msg & t' & E); discriminate|].
      intros [E|(_ & HN & Hs)]; [discriminate | tauto]. }
  destruct (recognised name) eqn:Hname.
  2:{ split; [auto | intros _; eexists _, _; reflexivity]. }
  split.
  - intros (msg & t' & E). exfalso.
    destruct (stockPath _ _ _ _ _ _ _ _ _ _ _ _ _ _ _ _) as [[st|msg'|f] t3] eqn:Erun;
      try discriminate.
    exact (quiet_stockPath _ _ _ _ _ _ _ _ _ _ _ _ _ _ _
             (method_of_recognised _ Hname) _ _ _ Erun).
  - intros [E|(E & _)]; discriminate.
Qed.

Lemma errors_raised_exactly_witness :
  (exists msg,
     @mexFunction float _ Examples.gsl rk_stand_in 2
       (stocksim_args 42 1 0.25 0 1 1 0 0 1 0.75 "euler")%float []
     = (MexErr msg, [])) /\
  ((exists msg t', Examples.call 1 0.75 "euler" = (MexErr msg, t')) <->
     (fgt 1%float (flit 0) = false \/
      (recognised "euler" = false /\
       (0 <= lround (0.75 / 0.25)%float)%Z /\ (0 <= lround 1%float)%Z))).
Proof.
  pose proof (@errors_raised_exactly float _ Examples.gsl rk_stand_in) as [Hill Hwell].
  split.
  - apply Hill. left. lia.
  - exact ((Hwell 42 1 0.25 0 1 1 0 0 1 0.75)%float "euler"%string []).
Defined.

(** C5, as stated, fails.  With [sigma_0 = 0] and [p = 0] but [xi_0 = 1]
    (and [S_0 = 1], [mu = 0], [Dt = 0.25], draws equal to 2, so that every
    Wiener increment is 1) the volatility leaves zero at the first step,
    vol = (0, 0.25, ...), and at the second step the Milstein correction
    0.5 * 0.25^2 * 1 * (1 - 0.25) = 0.0234375 separates the two stock paths.
    The formulas that [euler_weak.m] writes inline (lines 32-36 against
    lines 56-58) part at the same point.

    With [xi_0 = 0] as well, the paths still part on doubles in three
    cases.  When [dW * dW] overflows ([Dt = 1e308], draws equal to 2), the
    Milstein corrections are 0 * infinity = NaN: the Milstein stock and
    volatility paths are (1, NaN) and (0, NaN), the Euler paths (1, 1) and
    (0, 0).  From [S_0 = -0] (draws equal to 0.5) the Euler stock path stays
    at -0 while the Milstein correction, a zero of the other sign, makes it
    +0.  And from [sigma_0 = -0], [xi_0 = -0] the same happens to the
    volatility: (-0, +0, +0) against (-0, -0, +0). *)
Lemma milstein_differs_from_euler :
  (exists ms mv mx t ms' mv' mx' t',
     Examples.call 1 0.75 "milstein" = (Done (ms, mv, mx), t) /\
     Examples.call 1 0.75 "euler" = (Done (ms', mv', mx'), t') /\
     mx_pr ms = [1; 1; 1.2734375]%float /\
     mx_pr ms' = [1; 1; 1.25]%float /\
     mx_pr ms <> mx_pr ms') /\
  (exists a a',
     Examples.milstein_passes = Some a /\ Examples.euler_passes = Some a' /\
     S_ a = [1; 1; 1.2734375]%float /\ S_ a' = [1; 1; 1.25]%float /\
     sig a = sig a' /\ S_ a <> S_ a') /\
  (exists ms mv mx t ms' mv' mx' t',
     Examples.call_p0 Examples.gsl 1e308 0 1 0 1.7e308 "milstein"
       = (Done (ms, mv, mx), t) /\
     Examples.call_p0 Examples.gsl 1e308 0 1 0 1.7e308 "euler"
       = (Done (ms', mv', mx'), t') /\
     finite_increment 1e308 2 = false /\
     mx_pr ms = [1%float; nan] /\ mx_pr ms' = [1; 1]%float /\
     mx_pr mv = [0%float; nan] /\ mx_pr mv' = [0; 0]%float /\
     mx_pr ms <> mx_pr ms' /\ mx_pr mv <> mx_pr mv') /\
  (exists ms mv mx t ms' mv' mx' t',
     Examples.call_p0 Examples.gsl_halves 0.25 0 (-0) 0 0.75 "milstein"
       = (Done (ms, mv, mx), t) /\
     Examples.call_p0 Examples.gsl_halves 0.25 0 (-0) 0 0.75 "euler"
       = (Done (ms', mv', mx'), t') /\
     finite_increment 0.25 0.5 = true /\
     mx_pr ms = [-0; 0; 0]%float /\ mx_pr ms' = [-0; -0; -0]%float /\
     mx_pr ms <> mx_pr ms') /\
  (exists ms mv mx t ms' mv' mx' t',
     Examples.call_p0 Examples.gsl_halves 0.25 (-0) 1 (-0) 0.75 "milstein"
       = (Done (ms, mv, mx), t) /\
     Examples.call_p0 Examples.gsl_halves 0.25 (-0) 1 (-0) 0.75 "euler"
       = (Done (ms', mv', mx'), t') /\
     mx_pr mv = [-0; 0; 0]%float /\ mx_pr mv' = [-0; -0; 0]%float /\
     mx_pr mv <> mx_pr mv').
Proof.
  assert (forall (l l' : list float) i,
            Prim2SF (default 0%float (l !! i)) <> Prim2SF (default 0%float (l' !! i)) ->
            l <> l') as Hcell.
  { intros l l' i Hne E. apply Hne. rewrite E. reflexivity. }
  split_and!.
  - eexists _, _, _, _, _, _, _, _. split_and!.
    + vm_compute. reflexivity.
    + vm_compute. reflexivity.
    + reflexivity.
    + reflexivity.
    + cbn [mx_pr]. apply (Hcell _ _ 2). vm_compute. discriminate.
  - eexists _, _. split_and!.
    + vm_compute. reflexivity.
    + vm_compute. reflexivity.
    + reflexivity.
    + reflexivity.
    + reflexivity.
    + cbn [S_]. apply (Hcell _ _ 2). vm_compute. discriminate.
  - eexists _, _, _, _, _, _, _, _. split_and!.
    + vm_compute. reflexivity.
    + vm_compute. reflexivity.
    + vm_compute. reflexivity.
    + reflexivity.
    + reflexivity.
    + reflexivity.
    + reflexivity.
    + cbn [mx_pr]. apply (Hcell _ _ 1). vm_compute. discriminate.
    + cbn [mx_pr]. apply (Hcell _ _ 1). vm_compute. discriminate.
  - eexists _, _, _, _, _, _, _, _. split_and!.
    + vm_compute. reflexivity.
    + vm_compute. reflexivity.
    + vm_compute. reflexivity.
    + reflexivity.
    + reflexivity.
    + cbn [mx_pr]. apply (Hcell _ _ 1). vm_compute. discriminate.
  - eexists _, _, _, _, _, _, _, _. split_and!.
    + vm_compute. reflexivity.
    + vm_compute. reflexivity.
    + reflexivity.
    + reflexivity.
    + cbn [mx_pr]. apply (Hcell _ _ 1). vm_compute. discriminate.
Qed.

(** C5 (amended).  On doubles, for every configuration at rest,
    [sigma_0 = 0], [xi_0 = 0] and [p = 0] (the zero +0), with identical
    random streams whose Wiener increments [dW = g * sqrt(Dt)] have a finite
    [dW * dW - Dt], the Milstein and the Euler scheme end the same way,
    after the same events, and leave the same generator states and
    bit-identical volatility and xi paths; their stock paths hold the same
    double in every cell, except that a cell may hold zeros of different
    signs.  On buffers of samples * N cells both runs complete.  Likewise
    for the formulas that [euler_weak.m] writes inline: with [p = 0], at a
    point where [sig(i-1) = +0], the Milstein assignments of lines 32-36 and
    the Euler assignments of lines 56-58 fail together or write the same
    [sig(i)] and [xi(i)], and the same [S(i)] up to the sign of a zero. *)
Theorem milstein_matches_euler `{Gsl float} `{RungeKutta float} :
  (forall (rs rv : gsl_rng) samples (Dt S_0 mu alpha : float) N
          (sp vp xp : list float) t,
     length vp = length sp -> length xp = length sp ->
     (forall k, k < samples * (N - 1) ->
        finite_increment Dt (gsl_variate k rs) = true /\
        finite_increment Dt (gsl_variate k rv) = true) ->
     sim same_but_zero_signs
       (stockPath rs rv samples Dt (flit 0) S_0 (flit 0) mu (flit 0) alpha N
          MILSTEIN sp vp xp t)
       (stockPath rs rv samples Dt (flit 0) S_0 (flit 0) mu (flit 0) alpha N
          EULER sp vp xp t)) /\
  (forall (rs rv : gsl_rng) samples (Dt S_0 mu alpha : float) N
          (sp vp xp : list float) t,
     samples = 0 \/ 1 <= N ->
     length sp = samples * N -> length vp = samples * N ->
     length xp = samples * N ->
     (forall k, k < samples * (N - 1) ->
        finite_increment Dt (gsl_variate k rs) = true /\
        finite_increment Dt (gsl_variate k rv) = true) ->
     exists st st' t',
       stockPath rs rv samples Dt (flit 0) S_0 (flit 0) mu (flit 0) alpha N
         MILSTEIN sp vp xp t = (Done st, t') /\
       stockPath rs rv samples Dt (flit 0) S_0 (flit 0) mu (flit 0) alpha N
         EULER sp vp xp t = (Done st', t') /\
       sp_vol st = sp_vol st' /\ sp_xi st = sp_xi st' /\
       Forall2 same_but_zero_sign (sp_stock st) (sp_stock st')) /\
  (forall (dt mu alfa dw dw1 : float) i (a : paths),
     mat_get (sig a) (i - 1) = Some (flit 0) ->
     double_finite (dw * dw - dt)%fl = true ->
     double_finite (dw1 * dw1 - dt)%fl = true ->
     option_Forall2 paths_same_but_zero_signs
       (fine_update dt mu (flit 0) alfa dw dw1 i a)
       (coarse_update dt mu (flit 0) alfa dw dw1 i a)).
Proof.
  split_and!.
  - intros rs rv samples Dt S_0 mu alpha N sp vp xp t Hlv Hlx Hfin.
    apply (stockPath_sim_rest rs rv (length sp)); auto.
  - intros rs rv samples Dt S_0 mu alpha N sp vp xp t HN Hls Hlv Hlx Hfin.
    destruct (stockPath_invariant rs rv samples Dt (flit 0) S_0 (flit 0) mu
                (flit 0) alpha N MILSTEIN sp vp xp t ltac:(discriminate) HN
                Hls Hlv Hlx) as (st & t1 & E1 & _).
    destruct (stockPath_invariant rs rv samples Dt (flit 0) S_0 (flit 0) mu
                (flit 0) alpha N EULER sp vp xp t ltac:(discriminate) HN
                Hls Hlv Hlx) as (st' & t2 & E2 & _).
    pose proof (stockPath_sim_rest rs rv (samples * N) Dt mu alpha samples N Hfin
                  S_0 sp vp xp t Hls Hlv Hlx) as [Ht Ho].
    rewrite E1, E2 in Ht, Ho. cbn [fst snd] in Ht, Ho. subst t2.
    destruct Ho as (_ & _ & Hv & Hx & _ & Hs).
    exists st, st', t1. split_and!; done.
  - intros. apply fine_update_rest; assumption.
Qed.

Lemma milstein_matches_euler_witness :
  sim (@same_but_zero_signs Examples.gsl)
    (Examples.rest_run MILSTEIN) (Examples.rest_run EULER) /\
  (exists st st' t',
     Examples.rest_run MILSTEIN = (Done st, t') /\
     Examples.rest_run EULER = (Done st', t') /\
     sp_vol st = sp_vol st' /\ sp_xi st = sp_xi st' /\
     Forall2 same_but_zero_sign (sp_stock st) (sp_stock st')) /\
  option_Forall2 paths_same_but_zero_signs
    (fine_update 0.25%float 0%float (flit 0) 1%float 1%float 1%float 2
       (Paths [1; 0]%float [flit 0; 0%float] [1; 0]%float))
    (coarse_update 0.25%float 0%float (flit 0) 1%float 1%float 1%float 2
       (Paths [1; 0]%float [flit 0; 0%float] [1; 0]%float)).
Proof.
  pose proof (@milstein_matches_euler Examples.gsl rk_stand_in)
    as (Hsim & Hpath & Hinline).
  assert (forall k, k < 1 * (3 - 1) ->
            finite_increment 0.25 (@gsl_variate float _ Examples.gsl k Examples.draws)
              = true /\
            finite_increment 0.25 (@gsl_variate float _ Examples.gsl k Examples.draws)
              = true) as Hfin.
  { intros k Hk. destruct k as [|[|k]]; [split; vm_compute; reflexivity .. |].
    exfalso. simpl in Hk. lia. }
  split_and!.
  - apply Hsim; [reflexivity | reflexivity | exact Hfin].
  - apply Hpath; [right; lia | reflexivity | reflexivity | reflexivity | exact Hfin].
  - apply Hinline; vm_compute; reflexivity.
Defined.

(** C6, as stated, fails for the MEX-file: for one sample and three steps
    it returns matrices of 3 rows and 1 column, not of shape
    [sample_count, N] = [1, 3]. *)
Lemma matrices_are_steps_by_samples :
  exists ms mv mx t,
    Examples.call 1 0.75 "euler" = (Done (ms, mv, mx), t) /\
    (mx_m ms, mx_n ms) = (3, 1)%Z /\ (mx_m ms, mx_n ms) <> (1, 3)%Z.
Proof.
  eexists _, _, _, _. split_and!.
  - vm_compute. reflexivity.
  - reflexivity.
  - discriminate.
Qed.

(** C6 (amended).  A successful call of the MEX-file returns three real
    matrices with N = lround(T / Dt) rows and sample_count columns (one
    column per sample, one row per step, stored column after column), whose
    row 0 holds the initial values.  [NumWrapper] returns three matrices of
    shape [sample_count, N] (for N >= 1), one row per sample and one column
    per step, whose first column holds the initial values. *)
Theorem output_matrices {F} `{Arith F} `{Gsl F} `{Matlab F} `{RungeKutta F} :
  (forall (randstate samples_in Dt sigma_0 S_0 xi_0 mu p alpha T : F) name t
          ms mv mx t',
     mexFunction 3
       (stocksim_args randstate samples_in Dt sigma_0 S_0 xi_0 mu p alpha T name)
       t = (Done (ms, mv, mx), t') ->
     let N := lround (T / Dt)%fl in
     let samples := lround samples_in in
     (0 <= N /\ 0 <= samples)%Z /\
     (mx_m ms = N /\ mx_n ms = samples /\
      length (mx_pr ms) = Z.to_nat (N * samples)) /\
     (mx_m mv = N /\ mx_n mv = samples /\
      length (mx_pr mv) = Z.to_nat (N * samples)) /\
     (mx_m mx = N /\ mx_n mx = samples /\
      length (mx_pr mx) = Z.to_nat (N * samples)) /\
     forall c, c < Z.to_nat samples ->
       mx_pr ms !! (0 + c * Z.to_nat N) = Some S_0 /\
       mx_pr mv !! (0 + c * Z.to_nat N) = Some sigma_0 /\
       mx_pr mx !! (0 + c * Z.to_nat N) = Some xi_0) /\
  (forall (randstate : F) samples (Dt sigma0 S0 xi0 mu p alpha : F) N numMethod
          (a : nw_paths),
     NumWrapper randstate samples Dt sigma0 S0 xi0 mu p alpha N numMethod = Some a ->
     1 <= N ->
     (mat_shape (stockPaths a) samples N /\ mat_shape (volPaths a) samples N /\
      mat_shape (xiPaths a) samples N) /\
     forall i, 1 <= i <= samples ->
       mat2_get (stockPaths a) i 1 = Some S0 /\
       mat2_get (volPaths a) i 1 = Some sigma0 /\
       mat2_get (xiPaths a) i 1 = Some xi0).
Proof.
  split.
  - intros randstate samples_in Dt sigma_0 S_0 xi_0 mu p alpha T name t
      ms mv mx t' E N samples.
    destruct (mexFunction_done_inv _ _ _ _ _ _ _ _ _ _ _ _ _ _ _ _ E)
      as (_ & [HN Hs] & _ & _ & st & tmid & -> & -> & -> & _ & Hinv).
    fold N samples in Hinv, HN, Hs.
    destruct Hinv as (_ & (Hls & Hlv & Hlx) & Hinit & _).
    assert (Z.to_nat (N * samples) = Z.to_nat samples * Z.to_nat N) as ->.
    { rewrite Z.mul_comm. apply Z2Nat.inj_mul; assumption. }
    cbn [mx_m mx_n mx_pr]. split_and!; try done.
    intros c Hc. apply Hinit.
    + assert (S c * Z.to_nat N <= Z.to_nat samples * Z.to_nat N)
        by (apply Nat.mul_le_mono_r; lia).
      assert (Z.to_nat samples = 0 \/ 1 <= Z.to_nat N) as [?|?]
        by (destruct (mexFunction_done_inv _ _ _ _ _ _ _ _ _ _ _ _ _ _ _ _ E)
              as (_ & _ & _ & Hsteps & _); exact Hsteps);
        simpl in *; lia.
    + apply Nat.Div0.mod_mul.
  - intros randstate samples Dt sigma0 S0 xi0 mu p alpha N numMethod a E HN.
    apply NumWrapper_keeps in E. replace (Nat.max N 1) with N in E by lia.
    exact E.
Qed.

Lemma output_matrices_witness :
  (forall ms mv mx t',
     Examples.call 1 0.75 "rk" = (Done (ms, mv, mx), t') ->
     (mx_m ms, mx_n ms) = (lround (0.75 / 0.25)%float, lround 1%float)) /\
  (exists r, Examples.call 1 0.75 "rk" = r /\ exists o t', r = (Done o, t')) /\
  (forall a, Examples.wrapper_run "RK" = Some a ->
     mat_shape (stockPaths a) 2 3) /\
  is_Some (Examples.wrapper_run "RK").
Proof.
  pose proof (@output_matrices float _ Examples.gsl Examples.matlab rk_stand_in)
    as [Hmex Hwrap].
  split_and!.
  - intros ms mv mx t' E.
    destruct ((Hmex 42 1 0.25 0 1 1 0 0 1 0.75)%float "rk"%string [] ms mv mx t' E)
      as (_ & (-> & -> & _) & _).
    reflexivity.
  - eexists. split; [reflexivity|]. vm_compute. eauto.
  - intros a E. apply (Hwrap _ _ _ _ _ _ _ _ _ _ _ _ E). lia.
  - vm_compute. eauto.
Defined.

(** C7, in [NumWrapper.m]: line 9 takes the quotient T / Dt itself for the
    number of steps, where the MEX-file rounds it (line 145).  For T = 2.5
    and Dt = 1 the quotient is 2.5 and its rounding is 3; for T = 0.3 and
    Dt = 0.1 the quotient of the two doubles is 2.9999999999999996 and its
    rounding is 3. *)
Lemma NumWrapper_steps_not_rounded :
  (@NumWrapper_N float _ 2.5 1 = 2.5 /\ lround (2.5 / 1) = 3%Z /\
   @NumWrapper_N float _ (flit 0.3) (flit 0.1) = 2.9999999999999996 /\
   lround (flit 0.3 / flit 0.1) = 3%Z /\
   (2.5 <> 3) /\ (2.9999999999999996 <> 3))%float.
Proof.
  split_and!; try (vm_compute; reflexivity);
    apply float_neq; vm_compute; discriminate.
Qed.

Lemma NumWrapper_step_first_column {F} `{Arith F} methods Dt mu p alpha
    (phiStock phiVol : list F) i j (a a' : nw_paths) i' :
  NumWrapper_step methods Dt mu p alpha phiStock phiVol i j a = Some a' ->
  2 <= j ->
  mat2_get (stockPaths a') i' 1 = mat2_get (stockPaths a) i' 1 /\
  mat2_get (volPaths a') i' 1 = mat2_get (volPaths a) i' 1 /\
  mat2_get (xiPaths a') i' 1 = mat2_get (xiPaths a) i' 1.
Proof.
  unfold NumWrapper_step. intros E Hj.
  destruct (mat2_get (volPaths a) i (j - 1)) as [volt|]; [|discriminate].
  destruct (mat2_get (xiPaths a) i (j - 1)) as [xit|]; [|discriminate].
  destruct methods as [[fs fv]|]; [|discriminate].
  cbn [mbind option_bind] in E.
  destruct (mat_get phiVol (j - 1)) as [phi|]; [|discriminate].
  cbn [mbind option_bind] in E.
  destruct (mat2_set (volPaths a) i j _) as [vp|] eqn:Ev; [|discriminate].
  destruct (mat2_set (xiPaths a) i j _) as [xp|] eqn:Ex; [|discriminate].
  cbn [mbind option_bind] in E.
  destruct (mat2_get (stockPaths a) i (j - 1)) as [s|]; [|discriminate].
  destruct (mat2_get vp i (j - 1)) as [v|]; [|discriminate].
  destruct (mat_get phiStock (j - 1)) as [phi'|]; [|discriminate].
  cbn [mbind option_bind] in E.
  destruct (mat2_set (stockPaths a) i j _) as [sp|] eqn:Es; [|discriminate].
  injection E as <-. cbn [stockPaths volPaths xiPaths].
  rewrite (mat2_set_get_ne _ _ _ _ _ i' 1 Es), (mat2_set_get_ne _ _ _ _ _ i' 1 Ev),
    (mat2_set_get_ne _ _ _ _ _ i' 1 Ex) by (right; lia).
  auto.
Qed.

(** C8.  In a completed simulation the entries at step 0 of every sample are
    the initial values, and no later step overwrites them.  For the
    MEX-file: the cell [s * N] of each returned buffer holds the initial
    value, and the stores of the run into each buffer are the cells
    0, 1, ..., samples * N - 1, each exactly once and in this order, so the
    first store into a cell is the last.  For [NumWrapper]: the first column
    of each returned matrix holds the initial value, and a pass of the loop
    over [j >= 2] leaves the first columns as they are. *)
Theorem initial_values_kept {F} `{Arith F} `{Gsl F} `{Matlab F} `{RungeKutta F} :
  (forall (randstate samples_in Dt sigma_0 S_0 xi_0 mu p alpha T : F) name t
          ms mv mx t',
     mexFunction 3
       (stocksim_args randstate samples_in Dt sigma_0 S_0 xi_0 mu p alpha T name)
       t = (Done (ms, mv, mx), t') ->
     let N := Z.to_nat (lround (T / Dt)%fl) in
     let samples := Z.to_nat (lround samples_in) in
     (forall s, s < samples ->
        mx_pr ms !! (s * N) = Some S_0 /\ mx_pr mv !! (s * N) = Some sigma_0 /\
        mx_pr mx !! (s * N) = Some xi_0) /\
     (forall b, stores b t' = stores b t ++ seq 0 (samples * N))) /\
  (forall (randstate : F) samples (Dt sigma0 S0 xi0 mu p alpha : F) N numMethod
          (a : nw_paths),
     NumWrapper randstate samples Dt sigma0 S0 xi0 mu p alpha N numMethod = Some a ->
     forall i, 1 <= i <= samples ->
       mat2_get (stockPaths a) i 1 = Some S0 /\
       mat2_get (volPaths a) i 1 = Some sigma0 /\
       mat2_get (xiPaths a) i 1 = Some xi0) /\
  (forall methods (Dt mu p alpha : F) (phiStock phiVol : list F) i j
          (a a' : nw_paths) i',
     NumWrapper_step methods Dt mu p alpha phiStock phiVol i j a = Some a' ->
     2 <= j ->
     mat2_get (stockPaths a') i' 1 = mat2_get (stockPaths a) i' 1 /\
     mat2_get (volPaths a') i' 1 = mat2_get (volPaths a) i' 1 /\
     mat2_get (xiPaths a') i' 1 = mat2_get (xiPaths a) i' 1).
Proof.
  split_and!.
  - intros randstate samples_in Dt sigma_0 S_0 xi_0 mu p alpha T name t
      ms mv mx t' E N samples.
    destruct (mexFunction_done_inv _ _ _ _ _ _ _ _ _ _ _ _ _ _ _ _ E)
      as (_ & _ & _ & Hsteps & st & tmid & -> & -> & -> & -> & Hinv).
    fold N samples in Hinv, Hsteps.
    destruct Hinv as (_ & _ & Hinit & _ & Hstores).
    cbn [mx_pr]. split.
    + intros s Hs. apply Hinit; [|apply Nat.Div0.mod_mul].
      assert (S s * N <= samples * N) by (apply Nat.mul_le_mono_r; lia).
      simpl in *. lia.
    + intros b. rewrite stores_app, Hstores, stores_app.
      change (stores b [EvRngFree; EvRngFree]) with (@nil nat).
      match goal with |- context [stores b [?e1; ?e2; ?e3; ?e4; ?e5; ?e6; ?e7]] =>
        change (stores b [e1; e2; e3; e4; e5; e6; e7]) with (@nil nat)
      end.
      rewrite !app_nil_r. reflexivity.
  - intros randstate samples Dt sigma0 S0 xi0 mu p alpha N numMethod a E.
    apply NumWrapper_keeps in E. apply E.
  - intros. eapply NumWrapper_step_first_column; eassumption.
Qed.

Lemma initial_values_kept_witness :
  (forall ms mv mx t',
     Examples.call 2 0.75 "milstein" = (Done (ms, mv, mx), t') ->
     (forall s, s < 2 ->
        mx_pr ms !! (s * 3) = Some 1%float /\ mx_pr mv !! (s * 3) = Some 0%float /\
        mx_pr mx !! (s * 3) = Some 1%float) /\
     (forall b, stores b t' = stores b [] ++ seq 0 (2 * 3))) /\
  (exists o t', Examples.call 2 0.75 "milstein" = (Done o, t')) /\
  (forall a, Examples.wrapper_run "Milstein" = Some a ->
     forall i, 1 <= i <= 2 ->
       mat2_get (stockPaths a) i 1 = Some 1%float /\
       mat2_get (volPaths a) i 1 = Some 0%float /\
       mat2_get (xiPaths a) i 1 = Some 1%float) /\
  is_Some (Examples.wrapper_run "Milstein").
Proof.
  pose proof (@initial_values_kept float _ Examples.gsl Examples.matlab rk_stand_in)
    as (Hmex & Hwrap & _).
  split_and!.
  - intros ms mv mx t' E.
    exact ((Hmex 42 2 0.25 0 1 1 0 0 1 0.75)%float "milstein"%string [] ms mv mx t' E).
  - vm_compute. eauto.
  - intros a E. exact (Hwrap _ _ _ _ _ _ _ _ _ _ _ _ E).
  - vm_compute. eauto.
Defined.

(** C9.  For a fixed configuration and seed (the arguments of the call),
    two invocations of the simulator give the same outcome, the same three
    matrices element for element, and make the same events: whatever
    happened before each of them, and, when seeding resets a generator (as
    [gsl_rng_set] does), whatever state the generator library hands out on
    allocation.  The outcome is a function of the arguments alone.  Nor does
    the worker routine depend on what its output buffers held: on buffers
    of samples * N cells [stockPath] writes every cell before it reads it,
    and ends in the same state whatever the buffers held. *)
Theorem simulate_deterministic {F} `{Arith F} {G : Gsl F} `{RungeKutta F} :
  (forall nlhs (prhs : list (mxArray F)),
     exists o evs,
       (forall t, mexFunction nlhs prhs t = (o, t ++ evs)) /\
       ((forall (r r' : gsl_rng) seed, gsl_rng_set r seed = gsl_rng_set r' seed) ->
        forall (r0 : gsl_rng) t,
          @mexFunction F _ (allocating G r0) _ nlhs prhs t = (o, t ++ evs))) /\
  (forall (rs rv : gsl_rng) samples Dt sigma_0 S_0 xi_0 mu p alpha N num_method
          (sp vp xp sp' vp' xp' : list F) t,
     num_method <> NO_METHOD -> samples = 0 \/ 1 <= N ->
     length sp = samples * N -> length vp = samples * N ->
     length xp = samples * N ->
     length sp' = samples * N -> length vp' = samples * N ->
     length xp' = samples * N ->
     exists st t',
       stockPath rs rv samples Dt sigma_0 S_0 xi_0 mu p alpha N num_method
         sp vp xp t = (Done st, t') /\
       stockPath rs rv samples Dt sigma_0 S_0 xi_0 mu p alpha N num_method
         sp' vp' xp' t = (Done st, t')).
Proof.
  split.
  - intros nlhs prhs.
    destruct (oblivious_mexFunction nlhs prhs) as (o & evs & Hrun).
    exists o, evs. split; [exact Hrun|].
    intros Hseed r0 t. rewrite mexFunction_alloc by exact Hseed. apply Hrun.
  - intros. apply stockPath_overwrites; assumption.
Qed.

Lemma simulate_deterministic_witness :
  (exists o evs,
     (forall t,
        @mexFunction float _ Examples.gsl rk_stand_in 3
          (stocksim_args 42 2 0.25 0 1 1 0 0 1 0.75 "milstein")%float t
        = (o, t ++ evs)) /\
     forall (r0 : list float) t,
       @mexFunction float _ (allocating Examples.gsl r0) rk_stand_in 3
         (stocksim_args 42 2 0.25 0 1 1 0 0 1 0.75 "milstein")%float t
       = (o, t ++ evs)) /\
  (exists st t',
     Examples.path_run MILSTEIN = (Done st, t') /\
     @stockPath float _ Examples.gsl rk_stand_in Examples.draws Examples.draws
       1 0.25%float 0%float 1%float 1%float 0%float 0%float 1%float 3 MILSTEIN
       (replicate 3 7%float) (replicate 3 8%float) (replicate 3 9%float) []
     = (Done st, t')).
Proof.
  pose proof (@simulate_deterministic float _ Examples.gsl rk_stand_in)
    as [Hcall Hpath].
  split.
  - destruct (Hcall 3%Z
                (stocksim_args 42 2 0.25 0 1 1 0 0 1 0.75 "milstein")%float)
      as (o & evs & Hrun & Halloc).
    exists o, evs. split; [exact Hrun|]. apply Halloc. reflexivity.
  - apply Hpath; [discriminate | right; lia | reflexivity ..].
Defined.

Section Aggregation.
Context {F : Type} `{Arith F}.

(** Two increment functions that agree give the same weak-error curve. *)
Lemma weak_error_ext (inc1 inc2 : list F -> nat -> nat -> F) reps :
  (forall r k i, inc1 r k i = inc2 r k i) ->
  weak_error inc1 reps = weak_error inc2 reps.
Proof.
  intros Hinc. unfold weak_error. apply list_fmap_ext.
  intros _ [[k n] dt] _. do 4 f_equal. apply list_fmap_ext.
  intros _ rr _. unfold coarse_terminal. do 2 f_equal.
  apply run_scheme_ext. intros j [[s v] x] _. unfold scheme_step.
  rewrite !Hinc. reflexivity.
Qed.

(** In exact arithmetic [sqrt(dtex)] times the sum of the draws of a group
    is the sum of the fine increments of the group. *)
Lemma coarse_increment_aggregates `{!SumLaws F} dtex (r : list F) k i :
  coarse_increment dtex r k i = aggregated_increment dtex r k i.
Proof.
  unfold coarse_increment, aggregated_increment, group_sum.
  rewrite <- (mul_zero (fsqrt dtex)) at 2.
  generalize (flit 0.0) as acc. generalize (seq (k * i - k + 1) k) as l.
  induction l as [|j l IH]; intros acc; [reflexivity|].
  cbn [fmap list_fmap foldl]. rewrite IH, mul_add_distr_l. reflexivity.
Qed.

(** The coarse step to the point [i >= 2] reads no draw of the first group. *)
Lemma sum_draws_skip k i (r r1 r' r1' : list F) :
  2 <= i ->
  (forall j, k < j -> mat_get r j = mat_get r' j /\ mat_get r1 j = mat_get r1' j) ->
  sum_draws k i r r1 = sum_draws k i r' r1'.
Proof.
  intros Hi Hsame. unfold sum_draws. apply for_opt_ext.
  intros z [tmp tmp1] Hz. apply elem_of_seq in Hz.
  assert (k * 2 <= k * i) by (apply Nat.mul_le_mono_l; lia).
  destruct (Hsame (k * i - (k - z))) as [-> ->]; [lia | reflexivity].
Qed.

End Aggregation.

Lemma exact_sum_laws : SumLaws Qc.
Proof.
  assert (Q2Qc 0.0 = 0%Qc) as E by (apply Qc_is_canon; reflexivity).
  split; intros; cbn [fmul fadd flit Exact.arith]; rewrite ?E; ring.
Qed.

(** C3.  In every repetition, for each coarsening factor [k] the coarse
    Wiener increments are made of consecutive groups of [k] of the draws
    that drove the reference (Milstein) path (every index of a group is the
    index of a reference step, 2..32000): the increment is [sqrt(dtex)]
    times the sum of the group's draws, which in exact arithmetic
    ([SumLaws]) is the sum of the group's fine increments
    [sqrt(dtex) * r(j)]; the Euler scheme is run on the coarse grid with
    these increments; and the reported error for [k] is
    |mean/nsample - meanew32000/nsample|, the distance between the means of
    the terminal coarse and reference stock values over all repetitions:
    the script computes [weak_error]. *)
Theorem weak_error_of_script {F} `{Arith F} `{Matlab F} (g : randn_state) :
  euler_weak g
    = Some (weak_error (coarse_increment ew_dtex) (repetition_draws 10000 g)) /\
  (forall k n dt i j,
     (k, n, dt) ∈ ew_levels -> 2 <= i <= n -> j ∈ seq (k * i - k + 1) k ->
     2 <= j <= 32000) /\
  (SumLaws F ->
   (forall (r : list F) k i,
      coarse_increment ew_dtex r k i = aggregated_increment ew_dtex r k i) /\
   euler_weak g
     = Some (weak_error (aggregated_increment ew_dtex) (repetition_draws 10000 g))).
Proof.
  split_and!.
  - apply euler_weak_spec.
  - intros k n dt i j Hlevel Hi Hj. apply elem_of_seq in Hj.
    pose proof big_32000 as B. remember 32000 as L eqn:EL. clear EL.
    unfold ew_levels in Hlevel.
    repeat (apply elem_of_cons in Hlevel as [Hlevel|Hlevel];
            [injection Hlevel as -> -> ->; lia|]).
    apply elem_of_nil in Hlevel. contradiction.
  - intros Hlaws. split.
    + intros r k i. apply coarse_increment_aggregates.
    + rewrite euler_weak_spec. f_equal. apply weak_error_ext.
      intros r k i. apply coarse_increment_aggregates.
Qed.

Lemma weak_error_of_script_witness :
  @euler_weak Qc _ Examples.exact_matlab []
    = Some (weak_error (aggregated_increment ew_dtex)
              (@repetition_draws Qc Examples.exact_matlab 10000 [])).
Proof.
  apply (@weak_error_of_script Qc _ Examples.exact_matlab []).
  exact exact_sum_laws.
Defined.

(** C10.  In a coarse run with factor [k], the sums of the coarse step to
    the point [i] are the sums of the draws number [k*i-k+1 .. k*i] of the
    repetition's draw vectors, and the step uses [sqrt(dtex)] times these
    sums as its increments; for [i >= 2] these indices all exceed [k], so
    the draws number 2 .. k, which drive the reference steps to the points
    2 .. k, enter no coarse increment: a coarse run does not depend on the
    draws up to [k].  The reference step to the point [i] is driven by the
    draws number [i]. *)
Theorem coarse_increments_skip_first_group {F} `{Arith F} :
  (forall k dtex dt mu p alfa (r r1 : list F) i (a : paths),
     1 <= i -> k * i <= length r -> k * i <= length r1 ->
     sum_draws k i r r1
       = Some (foldl fadd (flit 0.0) (vec_at r <$> seq (k * i - k + 1) k),
               foldl fadd (flit 0.0) (vec_at r1 <$> seq (k * i - k + 1) k)) /\
     coarse_body k dtex dt mu p alfa r r1 i a
       = coarse_update dt mu p alfa
           (fmul (fsqrt dtex)
              (foldl fadd (flit 0.0) (vec_at r <$> seq (k * i - k + 1) k)))
           (fmul (fsqrt dtex)
              (foldl fadd (flit 0.0) (vec_at r1 <$> seq (k * i - k + 1) k)))
           i a) /\
  (forall k i z, 2 <= i -> 1 <= z <= k -> k < k * i - (k - z) <= k * i) /\
  (forall k n dtex dt mu p alfa (r r1 r' r1' : list F) (a : paths),
     (forall j, k < j ->
        mat_get r j = mat_get r' j /\ mat_get r1 j = mat_get r1' j) ->
     for_opt (seq 2 (n - 1)) (coarse_body k dtex dt mu p alfa r r1) a
     = for_opt (seq 2 (n - 1)) (coarse_body k dtex dt mu p alfa r' r1') a) /\
  (forall dtex mu p alfa (r r1 : list F) i (a : paths) r_i r1_i,
     mat_get r i = Some r_i -> mat_get r1 i = Some r1_i ->
     fine_body dtex mu p alfa r r1 i a
     = fine_update dtex mu p alfa (fmul (fsqrt dtex) r_i) (fmul (fsqrt dtex) r1_i)
         i a).
Proof.
  split_and!.
  - intros k dtex dt mu p alfa r r1 i a Hi Hr Hr1.
    pose proof (sum_draws_in_range k i r r1 Hi Hr Hr1) as E.
    unfold group_sum in E. split; [exact E|].
    unfold coarse_body. rewrite E. reflexivity.
  - intros k i z Hi Hz.
    assert (k * 2 <= k * i) by (apply Nat.mul_le_mono_l; lia). lia.
  - intros k n dtex dt mu p alfa r r1 r' r1' a Hsame. apply for_opt_ext.
    intros i a' Hi. apply elem_of_seq in Hi. unfold coarse_body.
    rewrite (sum_draws_skip k i r r1 r' r1') by (lia || assumption).
    reflexivity.
  - intros dtex mu p alfa r r1 i a r_i r1_i Er Er1. unfold fine_body.
    rewrite Er, Er1. reflexivity.
Qed.

Lemma coarse_increments_skip_first_group_witness :
  sum_draws 2 3 Examples.eleven Examples.eleven = Some (9, 9)%float /\
  2 < 2 * 3 - (2 - 1) <= 2 * 3 /\
  for_opt (seq 2 (3 - 1))
    (coarse_body 2 1%float 2%float 0%float 0%float 1%float
       Examples.eleven Examples.eleven) Examples.tiny
  = for_opt (seq 2 (3 - 1))
      (coarse_body 2 1%float 2%float 0%float 0%float 1%float
         (0%float :: 0%float :: drop 2 Examples.eleven)
         (0%float :: 0%float :: drop 2 Examples.eleven)) Examples.tiny.
Proof.
  pose proof (@coarse_increments_skip_first_group float _)
    as (Hsum & Hidx & Hskip & _).
  split; [|split].
  - destruct (Hsum 2 1%float 2%float 0%float 0%float 1%float Examples.eleven
                Examples.eleven 3 Examples.tiny) as [E _];
      [lia | vm_compute; lia | vm_compute; lia |].
    rewrite E. vm_compute. reflexivity.
  - apply (Hidx 2 3 1); lia.
  - apply Hskip. intros j Hj. do 3 (destruct j as [|j]; [lia|]).
    split; reflexivity.
Defined.

(* ===================================================================== *)
(** * Further properties of [stockPath] and [mexFunction] *)
(* ===================================================================== *)

(** A cell of the flat buffers belongs to one path and one step. *)
Lemma cell_unique N s j i j' : j < N -> j' < N -> s * N + j = i * N + j' -> s = i /\ j = j'.
Proof.
  intros Hj Hj' E.
  destruct (lt_eq_lt_dec s i) as [[Hlt | ->] | Hgt].
  - assert (S s * N <= i * N) by (apply Nat.mul_le_mono_r; lia). simpl in *. lia.
  - lia.
  - assert (S i * N <= s * N) by (apply Nat.mul_le_mono_r; lia). simpl in *. lia.
Qed.

Section StockPathRun.
Context {F : Type} `{Arith F} `{Gsl F} `{RungeKutta F}.
Variables (fs fv : step_fn F) (Dt sigma_0 S_0 xi_0 mu p alpha : F).
Variables (rs rv : gsl_rng) (N L : nat) (t0 : list event).

Abbreviation rinv := (run_inv fs fv Dt mu p rs rv N L t0).

Lemma step_run i k evs st t :
  rinv (i * N + 1 + k) (i * (N - 1) + k) evs st t ->
  1 + k < N -> S i * N <= L ->
  exists st' ,
    stockPath_step fs fv Dt mu p alpha (1 + k) st t
      = (Done st', t ++ step_events (i * N + 1 + k)) /\
    rinv (i * N + 1 + S k) (i * (N - 1) + S k) (evs ++ step_events (i * N + 1 + k))
      st' (t ++ step_events (i * N + 1 + k)).
Proof.
  intros (Hidx & (Hls & Hlv & Hlx) & (Hrs & Hrv) & Ht & Hcells) Hk HL.
  simpl in HL.
  rewrite (stockPath_step_eq _ _ _ _ _ _ _ st L) by assumption. cbv zeta.
  rewrite Hidx.
  destruct (lookup_lt_is_Some_2 (sp_stock st) (i * N + 1 + k - 1)) as [s_prev Hs]; [lia|].
  destruct (lookup_lt_is_Some_2 (sp_vol st) (i * N + 1 + k - 1)) as [v_prev Hv]; [lia|].
  destruct (lookup_lt_is_Some_2 (sp_xi st) (i * N + 1 + k - 1)) as [x_prev Hx]; [lia|].
  rewrite Hs, Hv, Hx. destruct (decide _) as [_|Hno]; [|lia].
  eexists. split.
  { rewrite <- app_assoc. reflexivity. }
  unfold run_inv. cbn [sp_index sp_stock sp_vol sp_xi sp_rng_stock sp_rng_vol].
  rewrite !length_insert. split_and!; try done.
  - rewrite Hrs. replace (i * (N - 1) + S k) with (S (i * (N - 1) + k)) by lia.
    reflexivity.
  - rewrite Hrv. replace (i * (N - 1) + S k) with (S (i * (N - 1) + k)) by lia.
    reflexivity.
  - rewrite Ht, <- app_assoc. reflexivity.
  - intros s j Hj Hlt.
    destruct (decide (s * N + j = i * N + 1 + k)) as [E|Hne].
    + destruct (cell_unique N s j i (1 + k) ltac:(lia) ltac:(lia) ltac:(lia)) as [-> ->].
      exists s_prev, v_prev, x_prev.
      replace (i * N + (1 + k)) with (i * N + 1 + k) by lia.
      rewrite !list_lookup_insert_ne by lia.
      rewrite !list_lookup_insert_eq by lia.
      rewrite Hrs, Hrv.
      replace (i * (N - 1) + (1 + k) - 1) with (i * (N - 1) + k)
        by (generalize (i * (N - 1)); lia).
      unfold gsl_variate. split_and!; done.
    + destruct (Hcells s j Hj) as (s' & v' & x' & Ha & Hb & Hc & Hd & He); [lia|].
      exists s', v', x'. rewrite !list_lookup_insert_ne by lia. split_and!; done.
Qed.


Lemma sample_run i evs st t :
  rinv (i * N) (i * (N - 1)) evs st t -> 1 <= N -> S i * N <= L ->
  exists st',
    stockPath_sample fs fv Dt sigma_0 S_0 xi_0 mu p alpha N i st t
      = (Done st', t ++ sample_events N i) /\
    rinv (S i * N) (S i * (N - 1)) (evs ++ sample_events N i) st'
      (t ++ sample_events N i).
Proof.
  intros (Hidx & (Hls & Hlv & Hlx) & (Hrs & Hrv) & Ht & Hcells) HN HL.
  simpl in HL.
  rewrite (stockPath_sample_eq _ _ _ _ _ _ _ _ _ _ _ st L) by assumption. cbv zeta.
  rewrite Hidx. destruct (decide _) as [_|Hno]; [|lia].
  set (start := [EvStore StockBuf (i * N); EvStore VolBuf (i * N);
                 EvStore XiBuf (i * N)]).
  destruct (for_each_invariant
              (fun k => rinv (i * N + 1 + k) (i * (N - 1) + k)
                          (evs ++ start
                             ++ flat_map (fun j => step_events (i * N + j)) (seq 1 k)))
              (seq 1 (N - 1)) (stockPath_step fs fv Dt mu p alpha))
    with (s := SpState (sp_rng_stock st) (sp_rng_vol st)
                 (<[i * N := S_0]> (sp_stock st)) (<[i * N := sigma_0]> (sp_vol st))
                 (<[i * N := xi_0]> (sp_xi st)) (S (i * N)))
         (t := t ++ start) as (st' & t' & E & Hinv').
  - intros k j s2 t2 Hk Hinv. apply lookup_seq in Hk as [-> Hk].
    destruct (step_run i k _ s2 t2 Hinv) as (s3 & E3 & Hinv3); [lia | simpl; lia |].
    exists s3, (t2 ++ step_events (i * N + 1 + k)). split; [exact E3|].
    rewrite seq_S, flat_map_app. cbn [flat_map]. rewrite app_nil_r.
    rewrite Nat.add_assoc, <- !app_assoc in *. exact Hinv3.
  - unfold run_inv. cbn [sp_index sp_stock sp_vol sp_xi sp_rng_stock sp_rng_vol].
    rewrite !length_insert, !Nat.add_0_r. cbn [seq flat_map]. rewrite app_nil_r.
    split_and!; try done; try lia.
    + rewrite Ht, <- app_assoc. reflexivity.
    + intros s j Hj Hlt.
      assert (s * N + j <> i * N) as Hne.
      { intros E. destruct (cell_unique N s j i 0 ltac:(lia) ltac:(lia) ltac:(lia)).
        lia. }
      destruct (Hcells s j Hj) as (s' & v' & x' & Ha & Hb & Hc & Hd & He); [lia|].
      exists s', v', x'. rewrite !list_lookup_insert_ne by lia. split_and!; done.
  - rewrite length_seq in Hinv'.
    assert (t' = t ++ sample_events N i) as ->.
    { destruct Hinv' as (_ & _ & _ & -> & _). rewrite Ht, <- !app_assoc. reflexivity. }
    exists st'. split; [exact E|].
    replace (S i * N) with (i * N + 1 + (N - 1)) by (simpl; lia).
    replace (S i * (N - 1)) with (i * (N - 1) + (N - 1)) by (simpl; lia).
    exact Hinv'.
Qed.

Lemma samples_run samples (sp vp xp : list F) :
  samples = 0 \/ 1 <= N -> L = samples * N ->
  length sp = L -> length vp = L -> length xp = L ->
  exists st',
    for_each (seq 0 samples)
      (stockPath_sample fs fv Dt sigma_0 S_0 xi_0 mu p alpha N)
      (SpState rs rv sp vp xp 0) t0
      = (Done st', t0 ++ stockPath_events samples N) /\
    rinv (samples * N) (samples * (N - 1)) (stockPath_events samples N) st'
      (t0 ++ stockPath_events samples N).
Proof.
  intros HN HL Hls Hlv Hlx.
  destruct (for_each_invariant
              (fun k => rinv (k * N) (k * (N - 1)) (stockPath_events k N))
              (seq 0 samples)
              (stockPath_sample fs fv Dt sigma_0 S_0 xi_0 mu p alpha N))
    with (s := SpState rs rv sp vp xp 0) (t := t0) as (st' & t' & E & Hinv').
  - intros k i s t Hk Hinv. apply lookup_seq in Hk as [-> Hk]. simpl in Hinv.
    destruct (sample_run k _ s t Hinv) as (s' & E' & Hinv'); [lia | |].
    { rewrite HL. apply Nat.mul_le_mono_r. lia. }
    exists s', (t ++ sample_events N k). split; [exact E'|].
    unfold stockPath_events. rewrite seq_S, flat_map_app. cbn [flat_map].
    rewrite app_nil_r. exact Hinv'.
  - unfold run_inv, stockPath_events.
    cbn [sp_index sp_stock sp_vol sp_xi sp_rng_stock sp_rng_vol seq flat_map].
    rewrite app_nil_r. split_and!; try done. intros s j Hj Hlt. lia.
  - rewrite length_seq in Hinv'.
    assert (t' = t0 ++ stockPath_events samples N) as -> by apply Hinv'.
    exists st'. split; [exact E | exact Hinv'].
Qed.

End StockPathRun.


Lemma draw_count_app s t1 t2 :
  draw_count s (t1 ++ t2) = draw_count s t1 + draw_count s t2.
Proof. unfold draw_count. rewrite filter_app, length_app. reflexivity. Qed.

Lemma draw_count_steps s (f : nat -> nat) (l : list nat) :
  draw_count s (flat_map (fun j => step_events (f j)) l) = length l.
Proof.
  induction l as [|j l IH]; [reflexivity|].
  cbn [flat_map length]. rewrite draw_count_app, IH. destruct s; reflexivity.
Qed.

Lemma draw_count_events s samples N :
  draw_count s (stockPath_events samples N) = samples * (N - 1).
Proof.
  unfold stockPath_events. induction samples as [|n IH]; [reflexivity|].
  rewrite seq_S, flat_map_app, draw_count_app, IH. cbn [flat_map].
  rewrite app_nil_r. unfold sample_events.
  rewrite draw_count_app, draw_count_steps, length_seq. simpl.
  generalize (N - 1). intros. lia.
Qed.


Section StockPathTheorems.
Context {F : Type} `{Arith F} `{Gsl F} `{RungeKutta F}.

Lemma select_method_any num_method (fs fv : step_fn F) t :
  select_method num_method [] = (Done (fs, fv), []) ->
  select_method num_method t = (Done (fs, fv), t).
Proof. destruct num_method; intros [= <- <-]; reflexivity. Qed.

(** X1.  On buffers of [samples * N] cells [stockPath] runs to its end, and
    every cell [j >= 1] of every path of [stock_paths] and [vol_paths] is the
    step of the selected scheme from the cells [j - 1], driven by a variate
    of its own generator times [sqrt(Dt)]: the path number [s] uses the
    draws number [s * (N - 1) .. s * (N - 1) + N - 2] of each stream, so the
    paths of a run continue the same two streams one after the other. *)
Theorem stockPath_follows_scheme (rs rv : gsl_rng) samples
    (Dt sigma_0 S_0 xi_0 mu p alpha : F) N num_method (fs fv : step_fn F)
    (sp vp xp : list F) t0 :
  select_method num_method [] = (Done (fs, fv), []) ->
  samples = 0 \/ 1 <= N ->
  length sp = samples * N -> length vp = samples * N -> length xp = samples * N ->
  exists st t',
    stockPath rs rv samples Dt sigma_0 S_0 xi_0 mu p alpha N num_method sp vp xp t0
      = (Done st, t') /\
    forall s j, s < samples -> 1 <= j < N ->
      exists s_prev v_prev x_prev,
        sp_stock st !! (s * N + j - 1) = Some s_prev /\
        sp_vol st !! (s * N + j - 1) = Some v_prev /\
        sp_xi st !! (s * N + j - 1) = Some x_prev /\
        sp_stock st !! (s * N + j)
          = Some (fs s_prev v_prev mu Dt
                    (fmul (gsl_variate (s * (N - 1) + j - 1) rs) (fsqrt Dt))) /\
        sp_vol st !! (s * N + j)
          = Some (fv v_prev x_prev p Dt
                    (fmul (gsl_variate (s * (N - 1) + j - 1) rv) (fsqrt Dt))).
Proof.
  intros Hm HN Hls Hlv Hlx. unfold stockPath.
  rewrite (bind_done _ _ _ _ _ (select_method_any _ _ _ t0 Hm)).
  destruct (samples_run fs fv Dt sigma_0 S_0 xi_0 mu p alpha rs rv N (samples * N) t0
              samples sp vp xp HN eq_refl Hls Hlv Hlx) as (st & E & Hinv).
  exists st, (t0 ++ stockPath_events samples N). split; [exact E|].
  intros s j Hs Hj. apply Hinv; [exact Hj|].
  assert (S s * N <= samples * N) by (apply Nat.mul_le_mono_r; lia).
  simpl in *. lia.
Qed.

(** What a run of [stockPath] adds to the trace, and where it leaves the
    two generators. *)
Lemma stockPath_run_events (rs rv : gsl_rng) samples
    (Dt sigma_0 S_0 xi_0 mu p alpha : F) N num_method (sp vp xp : list F) t0 :
  num_method <> NO_METHOD ->
  samples = 0 \/ 1 <= N ->
  length sp = samples * N -> length vp = samples * N -> length xp = samples * N ->
  exists st,
    stockPath rs rv samples Dt sigma_0 S_0 xi_0 mu p alpha N num_method sp vp xp t0
      = (Done st, t0 ++ stockPath_events samples N) /\
    sp_rng_stock st = gsl_state_after (samples * (N - 1)) rs /\
    sp_rng_vol st = gsl_state_after (samples * (N - 1)) rv.
Proof.
  intros Hm HN Hls Hlv Hlx. unfold stockPath.
  assert (exists fs fv, select_method num_method t0 = (Done (fs, fv), t0))
    as (fs & fv & Esel).
  { destruct num_method; [eexists _, _; reflexivity .. | congruence]. }
  rewrite (bind_done _ _ _ _ _ Esel).
  destruct (samples_run fs fv Dt sigma_0 S_0 xi_0 mu p alpha rs rv N (samples * N) t0
              samples sp vp xp HN eq_refl Hls Hlv Hlx)
    as (st & E & _ & _ & (Hrs & Hrv) & _).
  exists st. split_and!; done.
Qed.

(** X2.  A run of [stockPath] adds exactly the events [stockPath_events]:
    for every path three stores of the initial values and then, for every
    further cell, a draw from the stock generator, a draw from the volatility
    generator and the three stores of the cell.  So each generator is drawn
    [samples * (N - 1)] times and is left in the state that many draws
    after its initial state. *)
Theorem stockPath_draws (rs rv : gsl_rng) samples
    (Dt sigma_0 S_0 xi_0 mu p alpha : F) N num_method (sp vp xp : list F) t0 :
  num_method <> NO_METHOD ->
  samples = 0 \/ 1 <= N ->
  length sp = samples * N -> length vp = samples * N -> length xp = samples * N ->
  exists st t',
    stockPath rs rv samples Dt sigma_0 S_0 xi_0 mu p alpha N num_method sp vp xp t0
      = (Done st, t') /\
    t' = t0 ++ stockPath_events samples N /\
    sp_rng_stock st = gsl_state_after (samples * (N - 1)) rs /\
    sp_rng_vol st = gsl_state_after (samples * (N - 1)) rv /\
    forall s, draw_count s t' = draw_count s t0 + samples * (N - 1).
Proof.
  intros Hm HN Hls Hlv Hlx.
  destruct (stockPath_run_events rs rv samples Dt sigma_0 S_0 xi_0 mu p alpha N
              num_method sp vp xp t0 Hm HN Hls Hlv Hlx) as (st & E & Hrs & Hrv).
  exists st, (t0 ++ stockPath_events samples N). split_and!; try done.
  intros s. rewrite draw_count_app, draw_count_events. reflexivity.
Qed.

End StockPathTheorems.


Lemma stockPath_follows_scheme_witness :
  exists st t',
    Examples.path_run MILSTEIN = (Done st, t') /\
    forall s j, s < 1 -> 1 <= j < 3 ->
      exists s_prev v_prev x_prev,
        sp_stock st !! (s * 3 + j - 1) = Some s_prev /\
        sp_vol st !! (s * 3 + j - 1) = Some v_prev /\
        sp_xi st !! (s * 3 + j - 1) = Some x_prev /\
        sp_stock st !! (s * 3 + j)
          = Some (milstein_stock s_prev v_prev 0%float 0.25%float
                    (fmul (@gsl_variate float _ Examples.gsl (s * (3 - 1) + j - 1)
                             Examples.draws) (fsqrt 0.25%float))) /\
        sp_vol st !! (s * 3 + j)
          = Some (milstein_vol v_prev x_prev 0%float 0.25%float
                    (fmul (@gsl_variate float _ Examples.gsl (s * (3 - 1) + j - 1)
                             Examples.draws) (fsqrt 0.25%float))).
Proof.
  apply (@stockPath_follows_scheme float _ Examples.gsl rk_stand_in);
    [reflexivity | right; lia | reflexivity ..].
Defined.

Lemma stockPath_draws_witness :
  exists st t',
    Examples.path_run EULER = (Done st, t') /\
    t' = [] ++ stockPath_events 1 3 /\
    sp_rng_stock st = @gsl_state_after float _ Examples.gsl (1 * (3 - 1)) Examples.draws /\
    sp_rng_vol st = @gsl_state_after float _ Examples.gsl (1 * (3 - 1)) Examples.draws /\
    forall s, draw_count s t' = draw_count s [] + 1 * (3 - 1).
Proof.
  apply (@stockPath_draws float _ Examples.gsl rk_stand_in);
    [discriminate | right; lia | reflexivity ..].
Defined.

Lemma well_typed_dec {F} (prhs : list (mxArray F)) : well_typed prhs \/ ~ well_typed prhs.
Proof.
  destruct prhs as [|a0 [|a1 [|a2 [|a3 [|a4 [|a5 [|a6 [|a7 [|a8 [|a9 [|a10 [|a11 rest]]]]]]]]]]]];
    try (right; intros (?&?&?&?&?&?&?&?&?&?&?&E); discriminate E).
  destruct a0; [|right; intros (?&?&?&?&?&?&?&?&?&?&?&E); discriminate E ..].
  destruct a1; [|right; intros (?&?&?&?&?&?&?&?&?&?&?&E); discriminate E ..].
  destruct a2; [|right; intros (?&?&?&?&?&?&?&?&?&?&?&E); discriminate E ..].
  destruct a3; [|right; intros (?&?&?&?&?&?&?&?&?&?&?&E); discriminate E ..].
  destruct a4; [|right; intros (?&?&?&?&?&?&?&?&?&?&?&E); discriminate E ..].
  destruct a5; [|right; intros (?&?&?&?&?&?&?&?&?&?&?&E); discriminate E ..].
  destruct a6; [|right; intros (?&?&?&?&?&?&?&?&?&?&?&E); discriminate E ..].
  destruct a7; [|right; intros (?&?&?&?&?&?&?&?&?&?&?&E); discriminate E ..].
  destruct a8; [|right; intros (?&?&?&?&?&?&?&?&?&?&?&E); discriminate E ..].
  destruct a9; [|right; intros (?&?&?&?&?&?&?&?&?&?&?&E); discriminate E ..].
  destruct a10; [right; intros (?&?&?&?&?&?&?&?&?&?&?&E); discriminate E | |
                 right; intros (?&?&?&?&?&?&?&?&?&?&?&E); discriminate E].
  left. unfold well_typed, stocksim_args. repeat eexists.
Qed.

Section GatewayTheorems.
Context {F : Type} `{Arith F} `{Gsl F} `{RungeKutta F}.

(** X3.  A well-typed call with alpha > 0, a recognised method name and
    non-negative step and sample counts either has a path to write into its
    buffers (no sample, or at least one step) and then completes, with
    exactly these events: three allocations, two generators created and
    seeded, the events of [stockPath], two generators freed; or it has at
    least one sample and no step (T / Dt rounds to 0), and then the first
    store of line 72 falls outside the empty buffer, after both generators
    have been created. *)
Theorem mexFunction_completes randstate samples_in Dt sigma_0 S_0 xi_0 mu p alpha T
    name t :
  fgt alpha (flit 0) = true -> recognised name = true ->
  (0 <= lround (T / Dt)%fl)%Z -> (0 <= lround samples_in)%Z ->
  let N := lround (T / Dt)%fl in
  let samples := lround samples_in in
  let t2 := t ++ [EvCreateMatrix N samples; EvCreateMatrix N samples;
                  EvCreateMatrix N samples; EvRngAlloc; EvRngAlloc;
                  EvRngSet; EvRngSet] in
  let call :=
    mexFunction 3
      (stocksim_args randstate samples_in Dt sigma_0 S_0 xi_0 mu p alpha T name) t in
  ((samples = 0 \/ 1 <= N)%Z ->
   exists r,
     call = (Done r, t2 ++ stockPath_events (Z.to_nat samples) (Z.to_nat N)
                        ++ [EvRngFree; EvRngFree])) /\
  (N = 0%Z -> (1 <= samples)%Z -> call = (Faulted OutOfBounds, t2)).
Proof.
  intros Halpha Hname HN Hs N samples t2 call. subst call.
  rewrite mexFunction_on_args, Halpha, Hname. cbv zeta. fold N samples.
  destruct (decide _) as [_|Hneg]; [|tauto].
  rewrite <- app_assoc. cbn [app]. fold t2.
  assert (Z.to_nat (N * samples) = Z.to_nat samples * Z.to_nat N) as ->.
  { rewrite Z.mul_comm. apply Z2Nat.inj_mul; assumption. }
  pose proof (method_of_recognised _ Hname) as Hm.
  split.
  - intros Hsteps.
    destruct (stockPath_run_events (gsl_rng_set gsl_rng_alloc randstate)
                (gsl_rng_set gsl_rng_alloc (randstate + flit 1)%fl)
                (Z.to_nat samples) Dt sigma_0 S_0 xi_0 mu p alpha (Z.to_nat N)
                (method_of name)
                (replicate (Z.to_nat samples * Z.to_nat N) (flit 0))
                (replicate (Z.to_nat samples * Z.to_nat N) (flit 0))
                (replicate (Z.to_nat samples * Z.to_nat N) (flit 0)) t2)
      as (st & E & _); [assumption | lia | apply length_replicate .. |].
    rewrite E. eexists. rewrite <- app_assoc. reflexivity.
  - intros HN0 Hs1. rewrite HN0. change (Z.to_nat 0) with 0.
    rewrite Nat.mul_0_r. cbn [replicate].
    rewrite stockPath_no_steps by (assumption || lia). reflexivity.
Qed.

(** X4.  Whatever the arguments, a call that ends with an error message has
    created no generator, drawn no variate and written no cell: it has
    added no event at all, or exactly the three allocations of the output
    matrices.  In particular the check of lines 64-66 in [stockPath] is
    never the one that fails, and no generator is left allocated by
    [mexErrMsgTxt]. *)
Theorem errors_precede_generators nlhs (prhs : list (mxArray F)) t msg t' :
  mexFunction nlhs prhs t = (MexErr msg, t') ->
  t' = t \/
  exists m n, t' = t ++ [EvCreateMatrix m n; EvCreateMatrix m n; EvCreateMatrix m n].
Proof.
  intros E.
  destruct (decide (nlhs = 3%Z)) as [->|Hn].
  2:{ destruct (mexFunction_ill_typed nlhs prhs t (or_introl Hn)) as [msg' E'].
      left. congruence. }
  destruct (well_typed_dec prhs) as [Hwt|Hnwt].
  2:{ destruct (mexFunction_ill_typed 3 prhs t (or_intror Hnwt)) as [msg' E'].
      left. congruence. }
  destruct Hwt as (randstate & samples & Dt & sigma_0 & S_0 & xi_0 & mu & p & alpha
                   & T & name & ->).
  rewrite mexFunction_on_args in E. cbv zeta in E.
  destruct (fgt alpha (flit 0)); [|left; congruence].
  destruct (decide _); [|discriminate].
  destruct (recognised name) eqn:Hname.
  2:{ right. eexists _, _. injection E as _ <-. reflexivity. }
  exfalso.
  destruct (stockPath _ _ _ _ _ _ _ _ _ _ _ _ _ _ _ _) as [[st|msg'|f] t3] eqn:Erun;
    try discriminate.
  exact (quiet_stockPath _ _ _ _ _ _ _ _ _ _ _ _ _ _ _
           (method_of_recognised _ Hname) _ _ _ Erun).
Qed.

End GatewayTheorems.

Section GatewayRun.
Context {F : Type} `{Arith F} `{Gsl F} `{RungeKutta F}.

(** X5.  In the matrices that a completed call returns, every entry
    [j >= 1] of every path is the step of the scheme that the method name
    selects from the entries [j - 1], where the stock is driven by the
    generator seeded with [randstate] and the volatility by the generator
    seeded with [randstate + 1]. *)
Theorem returned_paths_follow_scheme
    (randstate samples_in Dt sigma_0 S_0 xi_0 mu p alpha T : F) name t
    ms mv mx t' (fs fv : step_fn F) :
  mexFunction 3
    (stocksim_args randstate samples_in Dt sigma_0 S_0 xi_0 mu p alpha T name) t
    = (Done (ms, mv, mx), t') ->
  select_method (method_of name) [] = (Done (fs, fv), []) ->
  let N := Z.to_nat (lround (T / Dt)%fl) in
  let samples := Z.to_nat (lround samples_in) in
  let rs := gsl_rng_set gsl_rng_alloc randstate in
  let rv := gsl_rng_set gsl_rng_alloc (randstate + flit 1)%fl in
  forall s j, s < samples -> 1 <= j < N ->
    exists s_prev v_prev x_prev,
      mx_pr ms !! (s * N + j - 1) = Some s_prev /\
      mx_pr mv !! (s * N + j - 1) = Some v_prev /\
      mx_pr mx !! (s * N + j - 1) = Some x_prev /\
      mx_pr ms !! (s * N + j)
        = Some (fs s_prev v_prev mu Dt
                  (fmul (gsl_variate (s * (N - 1) + j - 1) rs) (fsqrt Dt))) /\
      mx_pr mv !! (s * N + j)
        = Some (fv v_prev x_prev p Dt
                  (fmul (gsl_variate (s * (N - 1) + j - 1) rv) (fsqrt Dt))).
Proof.
  intros Hrun Hm N samples rs rv s j Hs Hj.
  rewrite mexFunction_on_args in Hrun.
  destruct (fgt alpha (flit 0)); [|discriminate].
  cbv zeta in Hrun.
  destruct (decide _) as [[HN Hsn]|]; [|discriminate].
  destruct (recognised name); [|discriminate].
  rewrite <- app_assoc in Hrun. cbn [app] in Hrun.
  assert (Z.to_nat (lround (T / Dt)%fl * lround samples_in) = samples * N) as Hlen.
  { rewrite Z.mul_comm. apply Z2Nat.inj_mul; assumption. }
  rewrite Hlen in Hrun. fold N samples rs rv in Hrun.
  unfold stockPath in Hrun.
  rewrite (bind_done _ _ _ _ _ (select_method_any _ _ _ _ Hm)) in Hrun.
  match type of Hrun with context [for_each _ _ _ ?t2] =>
    destruct (samples_run fs fv Dt sigma_0 S_0 xi_0 mu p alpha rs rv N (samples * N) t2
                samples (replicate (samples * N) (flit 0))
                (replicate (samples * N) (flit 0))
                (replicate (samples * N) (flit 0)))
      as (st & E & Hinv); [lia | reflexivity | apply length_replicate .. |]
  end.
  rewrite E in Hrun. injection Hrun as <- <- <- _. cbn [mx_pr].
  apply Hinv; [exact Hj|].
  assert (S s * N <= samples * N) by (apply Nat.mul_le_mono_r; lia).
  simpl in *. lia.
Qed.

End GatewayRun.

Lemma mexFunction_completes_witness :
  (exists r,
     Examples.call 1 0.75 "rk"
     = (Done r,
        ([] ++ [EvCreateMatrix (lround (0.75 / 0.25)%float) (lround 1%float);
                EvCreateMatrix (lround (0.75 / 0.25)%float) (lround 1%float);
                EvCreateMatrix (lround (0.75 / 0.25)%float) (lround 1%float);
                EvRngAlloc; EvRngAlloc; EvRngSet; EvRngSet])
        ++ stockPath_events (Z.to_nat (lround 1%float))
             (Z.to_nat (lround (0.75 / 0.25)%float))
        ++ [EvRngFree; EvRngFree])) /\
  Examples.call 1 0.1 "rk"
  = (Faulted OutOfBounds,
     [] ++ [EvCreateMatrix (lround (0.1 / 0.25)%float) (lround 1%float);
            EvCreateMatrix (lround (0.1 / 0.25)%float) (lround 1%float);
            EvCreateMatrix (lround (0.1 / 0.25)%float) (lround 1%float);
            EvRngAlloc; EvRngAlloc; EvRngSet; EvRngSet]).
Proof.
  split.
  - refine (proj1 ((@mexFunction_completes float _ Examples.gsl rk_stand_in
                      42 1 0.25 0 1 1 0 0 1 0.75)%float "rk"%string [] _ _ _ _) _);
      vm_compute; (reflexivity || (right; congruence) || congruence).
  - refine (proj2 ((@mexFunction_completes float _ Examples.gsl rk_stand_in
                      42 1 0.25 0 1 1 0 0 1 0.1)%float "rk"%string [] _ _ _ _) _ _);
      vm_compute; (reflexivity || congruence).
Defined.

Lemma errors_precede_generators_witness :
  [EvCreateMatrix 3 1; EvCreateMatrix 3 1; EvCreateMatrix 3 1] = [] \/
  exists m n,
    [EvCreateMatrix 3 1; EvCreateMatrix 3 1; EvCreateMatrix 3 1]
    = [] ++ [EvCreateMatrix m n; EvCreateMatrix m n; EvCreateMatrix m n].
Proof.
  apply (@errors_precede_generators float _ Examples.gsl rk_stand_in 3
           (stocksim_args 42 1 0.25 0 1 1 0 0 1 0.75 "foo")%float []
           "Only 'euler', 'milstein' and 'rk' are implemented").
  vm_compute. reflexivity.
Defined.

Lemma returned_paths_follow_scheme_witness :
  (forall ms mv mx t',
     Examples.call 2 0.75 "milstein" = (Done (ms, mv, mx), t') ->
     forall s j, s < Z.to_nat (lround 2%float) ->
       1 <= j < Z.to_nat (lround (0.75 / 0.25)%float) ->
       exists s_prev v_prev x_prev,
         mx_pr ms !! (s * Z.to_nat (lround (0.75 / 0.25)%float) + j - 1) = Some s_prev /\
         mx_pr mv !! (s * Z.to_nat (lround (0.75 / 0.25)%float) + j - 1) = Some v_prev /\
         mx_pr mx !! (s * Z.to_nat (lround (0.75 / 0.25)%float) + j - 1) = Some x_prev /\
         mx_pr ms !! (s * Z.to_nat (lround (0.75 / 0.25)%float) + j)
           = Some (milstein_stock s_prev v_prev 0%float 0.25%float
                     (fmul (@gsl_variate float _ Examples.gsl
                              (s * (Z.to_nat (lround (0.75 / 0.25)%float) - 1) + j - 1)
                              (gsl_rng_set gsl_rng_alloc 42%float))
                        (fsqrt 0.25%float))) /\
         mx_pr mv !! (s * Z.to_nat (lround (0.75 / 0.25)%float) + j)
           = Some (milstein_vol v_prev x_prev 0%float 0.25%float
                     (fmul (@gsl_variate float _ Examples.gsl
                              (s * (Z.to_nat (lround (0.75 / 0.25)%float) - 1) + j - 1)
                              (gsl_rng_set gsl_rng_alloc (42 + flit 1)%float))
                        (fsqrt 0.25%float)))) /\
  exists o t', Examples.call 2 0.75 "milstein" = (Done o, t').
Proof.
  split.
  - intros ms mv mx t' E.
    exact ((@returned_paths_follow_scheme float _ Examples.gsl rk_stand_in
              42 2 0.25 0 1 1 0 0 1 0.75)%float "milstein"%string [] ms mv mx t'
             milstein_stock milstein_vol E eq_refl).
  - vm_compute. eauto.
Defined.

Section VolSide.
Context {F : Type} `{Arith F} `{Gsl F} `{RungeKutta F}.

Lemma step_sim_vol_side L (fs fs' fv : step_fn F) Dt mu mu' p alpha j
    (s1 s2 : sp_state) t :
  same_vol_side L s1 s2 ->
  sim (same_vol_side L)
    (stockPath_step fs fv Dt mu p alpha j s1 t)
    (stockPath_step fs' fv Dt mu' p alpha j s2 t).
Proof.
  intros (Hrv & Hv & Hx & Hi & Hl1 & Hl2 & Hlv & Hlx).
  rewrite (stockPath_step_eq _ _ _ _ _ _ _ s1 L),
    (stockPath_step_eq _ _ _ _ _ _ _ s2 L) by congruence.
  cbv zeta. rewrite <- Hrv, <- Hv, <- Hx, <- Hi.
  destruct (sp_stock s1 !! (sp_index s1 - 1)) as [a1|] eqn:E1,
    (sp_stock s2 !! (sp_index s1 - 1)) as [a2|] eqn:E2.
  2:{ apply lookup_lt_Some in E1. apply lookup_ge_None in E2. lia. }
  2:{ apply lookup_lt_Some in E2. apply lookup_ge_None in E1. lia. }
  2:{ split; reflexivity. }
  destruct (sp_vol s1 !! (sp_index s1 - 1)) as [v|]; [|split; reflexivity].
  destruct (sp_xi s1 !! (sp_index s1 - 1)) as [x|]; [|split; reflexivity].
  destruct (decide _); [|split; reflexivity].
  split; [reflexivity|]. cbn [fst snd]. unfold same_vol_side.
  cbn [sp_rng_stock sp_rng_vol sp_stock sp_vol sp_xi sp_index].
  rewrite !length_insert. split_and!; done.
Qed.

Lemma sample_sim_vol_side L (fs fs' fv : step_fn F) Dt sigma_0 S_0 S_0' xi_0 mu mu'
    p alpha N i (s1 s2 : sp_state) t :
  same_vol_side L s1 s2 ->
  sim (same_vol_side L)
    (stockPath_sample fs fv Dt sigma_0 S_0 xi_0 mu p alpha N i s1 t)
    (stockPath_sample fs' fv Dt sigma_0 S_0' xi_0 mu' p alpha N i s2 t).
Proof.
  intros (Hrv & Hv & Hx & Hi & Hl1 & Hl2 & Hlv & Hlx).
  rewrite (stockPath_sample_eq _ _ _ _ _ _ _ _ _ _ _ s1 L),
    (stockPath_sample_eq _ _ _ _ _ _ _ _ _ _ _ s2 L) by congruence.
  cbv zeta. rewrite <- Hrv, <- Hv, <- Hx, <- Hi.
  destruct (decide _); [|split; reflexivity].
  apply for_each_sim; [intros; apply step_sim_vol_side; assumption|].
  unfold same_vol_side.
  cbn [sp_rng_stock sp_rng_vol sp_stock sp_vol sp_xi sp_index].
  rewrite !length_insert. split_and!; done.
Qed.

(** X6.  The volatility side of [stockPath] does not depend on the stock
    side: two runs that differ in [S_0], [mu], the stock generator and the
    content of the stock buffer end the same way, add the same events and
    leave the same volatility and xi buffers and the same volatility
    generator. *)
Theorem vol_paths_ignore_stock (rs rs' rv : gsl_rng) samples
    (Dt sigma_0 S_0 S_0' xi_0 mu mu' p alpha : F) N num_method
    (sp sp' vp xp : list F) t :
  length sp' = length sp -> length vp = length sp -> length xp = length sp ->
  sim (same_vol_side (length sp))
    (stockPath rs rv samples Dt sigma_0 S_0 xi_0 mu p alpha N num_method sp vp xp t)
    (stockPath rs' rv samples Dt sigma_0 S_0' xi_0 mu' p alpha N num_method
       sp' vp xp t).
Proof.
  intros Hl' Hlv Hlx. unfold stockPath. rewrite !mex_bind_unfold.
  destruct num_method; cbn [select_method mret mex_ret mexErrMsgTxt];
    try (apply for_each_sim; [intros; apply sample_sim_vol_side; assumption|];
         unfold same_vol_side;
         cbn [sp_rng_stock sp_rng_vol sp_stock sp_vol sp_xi sp_index];
         split_and!; done).
  split; reflexivity.
Qed.

End VolSide.


Lemma vol_paths_ignore_stock_witness :
  sim (@same_vol_side float Examples.gsl (length (replicate 3 0%float)))
    (Examples.path_run MILSTEIN) (Runs.other_stock_run MILSTEIN).
Proof.
  apply (@vol_paths_ignore_stock float _ Examples.gsl rk_stand_in); reflexivity.
Defined.

(* ===================================================================== *)
(** * Further properties of [NumWrapper.m] *)
(* ===================================================================== *)

Section NumWrapperTheorems.
Context {F : Type} `{Arith F} `{Matlab F} `{RungeKutta F}.

Lemma NumWrapper_step_no_method (Dt mu p alpha : F) phiStock phiVol i j (a : nw_paths) :
  NumWrapper_step None Dt mu p alpha phiStock phiVol i j a = None.
Proof.
  unfold NumWrapper_step.
  destruct (mat2_get (volPaths a) i (j - 1)); [|reflexivity].
  destruct (mat2_get (xiPaths a) i (j - 1)); reflexivity.
Qed.

Lemma select_numMethod_names numMethod :
  is_Some (@select_numMethod F _ _ numMethod) <->
  numMethod = "Euler"%string \/ numMethod = "Milstein"%string \/ numMethod = "RK"%string.
Proof.
  unfold select_numMethod.
  destruct (String.eqb numMethod "Euler") eqn:E1.
  { apply String.eqb_eq in E1. split; eauto. }
  destruct (String.eqb numMethod "Milstein") eqn:E2.
  { apply String.eqb_eq in E2. split; eauto. }
  destruct (String.eqb numMethod "RK") eqn:E3.
  { apply String.eqb_eq in E3. split; eauto. }
  apply String.eqb_neq in E1, E2, E3. split.
  - intros [x Hx]. discriminate.
  - intros [?|[?|?]]; congruence.
Qed.

Lemma NumWrapper_sample_no_method (Dt mu p alpha : F) N i ag :
  2 <= N -> NumWrapper_sample None Dt mu p alpha N i ag = None.
Proof.
  intros HN. unfold NumWrapper_sample. destruct ag as [a g].
  destruct (randn_vec _ g) as [phiStock g1].
  destruct (randn_vec _ g1) as [phiVol g2].
  replace (N - 1) with (S (N - 2)) by lia.
  cbn [seq for_opt]. rewrite NumWrapper_step_no_method. reflexivity.
Qed.

Lemma NumWrapper_sample_no_steps methods (Dt mu p alpha : F) N i a g :
  N <= 1 -> NumWrapper_sample methods Dt mu p alpha N i (a, g) = Some (a, g).
Proof.
  intros HN. unfold NumWrapper_sample. replace (N - 1) with 0 by lia. reflexivity.
Qed.

(** X8.  [NumWrapper] runs to its end exactly when the method name is one
    of "Euler", "Milstein", "RK", or there is nothing to simulate (no
    sample, or at most one step): lines 12-27 have no [else] branch, so any
    other name fails only at the first use of the undefined handle in line
    59.  With at most one step the result is the matrices as lines 30-43
    set them, whatever the name. *)
Theorem NumWrapper_runs_iff randstate samples (Dt sigma0 S0 xi0 mu p alpha : F) N
    numMethod :
  (is_Some (NumWrapper randstate samples Dt sigma0 S0 xi0 mu p alpha N numMethod) <->
   (numMethod = "Euler"%string \/ numMethod = "Milstein"%string
    \/ numMethod = "RK"%string) \/ samples = 0 \/ N <= 1) /\
  (N <= 1 ->
   NumWrapper randstate samples Dt sigma0 S0 xi0 mu p alpha N numMethod
   = Some (NwPaths (set_column_1 (zeros samples N) S0)
             (set_column_1 (zeros samples N) sigma0)
             (set_column_1 (zeros samples N) xi0))).
Proof.
  assert (N <= 1 ->
          NumWrapper randstate samples Dt sigma0 S0 xi0 mu p alpha N numMethod
          = Some (NwPaths (set_column_1 (zeros samples N) S0)
                    (set_column_1 (zeros samples N) sigma0)
                    (set_column_1 (zeros samples N) xi0))) as Hflat.
  { intros HN. unfold NumWrapper. cbv zeta.
    assert (forall l ag, for_opt l
              (NumWrapper_sample (select_numMethod numMethod) Dt mu p alpha N) ag
              = Some ag) as Hloop.
    { induction l as [|i l IH]; intros [a g]; [reflexivity|].
      cbn [for_opt]. rewrite NumWrapper_sample_no_steps by assumption.
      apply IH. }
    rewrite Hloop. reflexivity. }
  split; [|exact Hflat].
  rewrite <- select_numMethod_names. split.
  - intros Hrun.
    destruct (select_numMethod numMethod) as [m|] eqn:Hm; [left; eauto|]. right.
    destruct samples as [|n]; [left; reflexivity|]. right.
    destruct (decide (N <= 1)) as [|HN]; [assumption|]. exfalso.
    unfold NumWrapper in Hrun. cbv zeta in Hrun. rewrite Hm in Hrun.
    cbn [seq for_opt] in Hrun.
    rewrite NumWrapper_sample_no_method in Hrun by lia.
    destruct Hrun as [x Hx]. discriminate.
  - intros [Hm | [-> | HN]].
    + apply NumWrapper_runs. exact Hm.
    + unfold NumWrapper. cbn. eauto.
    + rewrite Hflat by assumption. eauto.
Qed.

End NumWrapperTheorems.

Section Names.
Context {F : Type} `{Arith F} `{Gsl F} `{Matlab F} `{RungeKutta F}.

(** X7.  The two simulators accept no method name in common.  A name that
    [mexFunction] recognises ("euler", "milstein", "rk" and what starts
    with one of them) makes [NumWrapper] fail as soon as it has a step to
    simulate; a name that [NumWrapper] knows ("Euler", "Milstein", "RK")
    makes [mexFunction] end with the error message of line 166. *)
Theorem no_common_method_name :
  (forall name randstate samples (Dt sigma0 S0 xi0 mu p alpha : F) N,
     recognised name = true -> 1 <= samples -> 2 <= N ->
     NumWrapper randstate samples Dt sigma0 S0 xi0 mu p alpha N name = None) /\
  (forall name (randstate samples_in Dt sigma_0 S_0 xi_0 mu p alpha T : F) t,
     is_Some (@select_numMethod F _ _ name) ->
     fgt alpha (flit 0) = true ->
     (0 <= lround (T / Dt)%fl)%Z -> (0 <= lround samples_in)%Z ->
     exists t',
       mexFunction 3
         (stocksim_args randstate samples_in Dt sigma_0 S_0 xi_0 mu p alpha T name) t
       = (MexErr "Only 'euler', 'milstein' and 'rk' are implemented", t')).
Proof.
  assert (forall name, is_Some (@select_numMethod F _ _ name) ->
                       recognised name = false) as Hdis.
  { intros name Hm. apply select_numMethod_names in Hm as [-> | [-> | ->]];
      reflexivity. }
  split.
  - intros name randstate samples Dt sigma0 S0 xi0 mu p alpha N Hrec Hs HN.
    destruct (NumWrapper _ _ _ _ _ _ _ _ _ _ _) as [a|] eqn:E; [|reflexivity].
    exfalso.
    assert (is_Some (select_numMethod name)) as Hm.
    { destruct (select_numMethod name) as [m|] eqn:Hm; [eauto|].
      unfold NumWrapper in E. cbv zeta in E. rewrite Hm in E.
      destruct samples as [|n]; [lia|]. cbn [seq for_opt] in E.
      rewrite NumWrapper_sample_no_method in E by lia. discriminate. }
    apply Hdis in Hm. congruence.
  - intros name randstate samples_in Dt sigma_0 S_0 xi_0 mu p alpha T t Hm Halpha HN Hs.
    rewrite mexFunction_on_args, Halpha, (Hdis _ Hm). cbv zeta.
    destruct (decide _); [|tauto]. eauto.
Qed.

End Names.

Lemma no_common_method_name_witness :
  Examples.wrapper_run "euler" = None /\
  exists t',
    Examples.call 1 0.75 "Euler"
    = (MexErr "Only 'euler', 'milstein' and 'rk' are implemented", t').
Proof.
  pose proof (@no_common_method_name float _ Examples.gsl Examples.matlab rk_stand_in)
    as [Hnw Hmex].
  split.
  - apply Hnw; [reflexivity | lia | lia].
  - refine ((Hmex "Euler"%string 42 1 0.25 0 1 1 0 0 1 0.75)%float [] _ _ _ _);
      vm_compute; (eauto || congruence).
Defined.

Section MatlabStreamFacts.
Context {F : Type} `{Matlab F}.

Lemma randn_vec_variates n (g : randn_state) :
  randn_vec n g = ((fun k => randn_variate k g) <$> seq 0 n, randn_state_after n g).
Proof.
  revert g. induction n as [|n IH]; intros g; [reflexivity|].
  cbn [randn_vec]. destruct (randn g) as [x g1] eqn:Eg. rewrite IH.
  assert (g1 = randn_next g) as -> by (unfold randn_next; rewrite Eg; reflexivity).
  f_equal.
  - cbn [seq fmap list_fmap]. f_equal.
    + unfold randn_variate. simpl. rewrite Eg. reflexivity.
    + rewrite <- fmap_S_seq, <- list_fmap_compose. apply list_fmap_ext.
      intros _ k _. unfold compose, randn_variate, randn_state_after.
      rewrite Nat.iter_succ_r. reflexivity.
  - unfold randn_state_after. rewrite Nat.iter_succ_r. reflexivity.
Qed.

Lemma randn_state_after_add m n (g : randn_state) :
  randn_state_after n (randn_state_after m g) = randn_state_after (m + n) g.
Proof.
  unfold randn_state_after. rewrite Nat.add_comm. symmetry. apply Nat.iter_add.
Qed.

Lemma randn_variate_add m k (g : randn_state) :
  randn_variate k (randn_state_after m g) = randn_variate (m + k) g.
Proof. unfold randn_variate. rewrite randn_state_after_add. reflexivity. Qed.

End MatlabStreamFacts.

Section NumWrapperCells.
Context {F : Type} `{Arith F} `{Matlab F} `{RungeKutta F}.

Lemma NumWrapper_step_cells fs fv Dt mu p alpha (phiStock phiVol : list F) i j
    (a a' : nw_paths) :
  NumWrapper_step (Some (fs, fv)) Dt mu p alpha phiStock phiVol i j a = Some a' ->
  exists dW dW1,
    mat_get phiStock (j - 1) = Some dW /\ mat_get phiVol (j - 1) = Some dW1 /\
    nw_cell fs fv Dt mu p alpha a' i j dW dW1 /\ nw_same_but i j a a'.
Proof.
  unfold NumWrapper_step. intros E.
  destruct (mat2_get (volPaths a) i (j - 1)) as [volt|] eqn:Evolt; [|discriminate].
  destruct (mat2_get (xiPaths a) i (j - 1)) as [xit|] eqn:Exit; [|discriminate].
  cbn [mbind option_bind] in E.
  destruct (mat_get phiVol (j - 1)) as [phi|] eqn:Ephi; [|discriminate].
  cbn [mbind option_bind] in E.
  destruct (mat2_set (volPaths a) i j _) as [vp|] eqn:Ev; [|discriminate].
  destruct (mat2_set (xiPaths a) i j _) as [xp|] eqn:Ex; [|discriminate].
  cbn [mbind option_bind] in E.
  destruct (mat2_get (stockPaths a) i (j - 1)) as [s|] eqn:Es0; [|discriminate].
  destruct (mat2_get vp i (j - 1)) as [v|] eqn:Ev0; [|discriminate].
  destruct (mat_get phiStock (j - 1)) as [phi'|] eqn:Ephi'; [|discriminate].
  cbn [mbind option_bind] in E.
  destruct (mat2_set (stockPaths a) i j _) as [sp|] eqn:Es; [|discriminate].
  injection E as <-.
  assert (1 <= j) as Hj.
  { apply mat2_set_inv in Es as (row & _ & Hj & _). lia. }
  assert (v = volt) as ->.
  { rewrite (mat2_set_get_ne _ _ _ _ _ i (j - 1) Ev) in Ev0 by (right; lia).
    congruence. }
  exists phi', phi. split_and!; try reflexivity.
  - exists s, volt, xit. cbn [stockPaths volPaths xiPaths].
    rewrite (mat2_set_get_ne _ _ _ _ _ i (j - 1) Es),
      (mat2_set_get_ne _ _ _ _ _ i (j - 1) Ev),
      (mat2_set_get_ne _ _ _ _ _ i (j - 1) Ex) by (right; lia).
    rewrite (mat2_set_get_eq _ _ _ _ _ Es), (mat2_set_get_eq _ _ _ _ _ Ev),
      (mat2_set_get_eq _ _ _ _ _ Ex).
    split_and!; done.
  - intros i' j' Hne. cbn [stockPaths volPaths xiPaths].
    rewrite (mat2_set_get_ne _ _ _ _ _ i' j' Es), (mat2_set_get_ne _ _ _ _ _ i' j' Ev),
      (mat2_set_get_ne _ _ _ _ _ i' j' Ex) by assumption.
    auto.
Qed.

Lemma nw_cell_same_but fs fv Dt mu p alpha (a a' : nw_paths) i j i0 j0 dW dW1 :
  nw_same_but i0 j0 a a' -> i <> i0 \/ (j <> j0 /\ j - 1 <> j0) ->
  nw_cell fs fv Dt mu p alpha a i j dW dW1 -> nw_cell fs fv Dt mu p alpha a' i j dW dW1.
Proof.
  intros Hsame Hne (s & v & x & Ha & Hb & Hc & Hd & He & Hf).
  destruct (Hsame i (j - 1)) as (E1 & E2 & E3); [lia|].
  destruct (Hsame i j) as (E4 & E5 & E6); [lia|].
  exists s, v, x. rewrite E1, E2, E3, E4, E5, E6. split_and!; assumption.
Qed.


Lemma nw_cell_other_row fs fv Dt mu p alpha (a a' : nw_paths) i j dW dW1 :
  (forall j', mat2_get (stockPaths a') i j' = mat2_get (stockPaths a) i j' /\
              mat2_get (volPaths a') i j' = mat2_get (volPaths a) i j' /\
              mat2_get (xiPaths a') i j' = mat2_get (xiPaths a) i j') ->
  nw_cell fs fv Dt mu p alpha a i j dW dW1 -> nw_cell fs fv Dt mu p alpha a' i j dW dW1.
Proof.
  intros Hsame (s & v & x & Ha & Hb & Hc & Hd & He & Hf).
  destruct (Hsame (j - 1)) as (E1 & E2 & E3). destruct (Hsame j) as (E4 & E5 & E6).
  exists s, v, x. rewrite E1, E2, E3, E4, E5, E6. split_and!; assumption.
Qed.

(** Lines 46-75 for the path number [i]: the pass draws 2 (N-1)^2 variates,
    writes the cells 2 .. N of row [i] from the first N-1 variates of each
    half, and leaves the other rows alone. *)
Lemma NumWrapper_sample_cells fs fv Dt mu p alpha N i (a : nw_paths) g
    samples S0 sigma0 xi0 :
  nw_ok samples (Nat.max N 1) S0 sigma0 xi0 a -> 1 <= i <= samples ->
  exists a',
    NumWrapper_sample (Some (fs, fv)) Dt mu p alpha N i (a, g)
      = Some (a', randn_state_after (2 * ((N - 1) * (N - 1))) g) /\
    nw_ok samples (Nat.max N 1) S0 sigma0 xi0 a' /\
    (forall j, 2 <= j <= N ->
       nw_cell fs fv Dt mu p alpha a' i j
         (fmul (randn_variate (j - 2) g) (fsqrt Dt))
         (fmul (randn_variate ((N - 1) * (N - 1) + (j - 2)) g) (fsqrt Dt))) /\
    forall i' j', i' <> i ->
      mat2_get (stockPaths a') i' j' = mat2_get (stockPaths a) i' j' /\
      mat2_get (volPaths a') i' j' = mat2_get (volPaths a) i' j' /\
      mat2_get (xiPaths a') i' j' = mat2_get (xiPaths a) i' j'.
Proof.
  intros Hok Hi. unfold NumWrapper_sample.
  set (q := (N - 1) * (N - 1)).
  rewrite (randn_vec_variates q g), (randn_vec_variates q (randn_state_after q g)).
  rewrite randn_state_after_add. replace (q + q) with (2 * q) by lia.
  set (phiStock := (fun x => fmul x (fsqrt Dt)) <$> _).
  set (phiVol := (fun x => fmul x (fsqrt Dt)) <$> _).
  assert (N - 1 <= q) as Hq by (subst q; nia).
  assert (forall j, 2 <= j <= N ->
            mat_get phiStock (j - 1) = Some (fmul (randn_variate (j - 2) g) (fsqrt Dt)) /\
            mat_get phiVol (j - 1)
              = Some (fmul (randn_variate (q + (j - 2)) g) (fsqrt Dt))) as Hphi.
  { intros j Hj. subst phiStock phiVol.
    replace (j - 1) with (S (j - 2)) by lia. cbn [mat_get].
    rewrite !list_lookup_fmap, !lookup_seq_lt by lia. cbn [fmap option_fmap option_map].
    rewrite randn_variate_add. split; reflexivity. }
  destruct (for_opt_invariant
              (fun k a' =>
                 nw_ok samples (Nat.max N 1) S0 sigma0 xi0 a' /\
                 (forall j, 2 <= j <= 1 + k ->
                    nw_cell fs fv Dt mu p alpha a' i j
                      (fmul (randn_variate (j - 2) g) (fsqrt Dt))
                      (fmul (randn_variate (q + (j - 2)) g) (fsqrt Dt))) /\
                 forall i' j', i' <> i ->
                   mat2_get (stockPaths a') i' j' = mat2_get (stockPaths a) i' j' /\
                   mat2_get (volPaths a') i' j' = mat2_get (volPaths a) i' j' /\
                   mat2_get (xiPaths a') i' j' = mat2_get (xiPaths a) i' j')
              (seq 2 (N - 1))
              (NumWrapper_step (Some (fs, fv)) Dt mu p alpha phiStock phiVol i))
    with (s := a) as (a' & E & Hok' & Hcells & Hframe).
  - intros k j a1 Hk (Hok1 & Hcells1 & Hframe1). apply lookup_seq in Hk as [-> Hk].
    destruct (NumWrapper_step_runs fs fv Dt mu p alpha phiStock phiVol i (2 + k) a1
                samples (Nat.max N 1) S0 sigma0 xi0) as [a2 E2];
      [assumption | lia | lia | | |].
    1,2: subst phiStock phiVol; rewrite length_fmap, length_fmap, length_seq; lia.
    exists a2. split; [exact E2|].
    destruct (NumWrapper_step_cells _ _ _ _ _ _ _ _ _ _ _ _ E2)
      as (dW & dW1 & EdW & EdW1 & Hcell & Hsame).
    destruct (Hphi (2 + k) ltac:(lia)) as [EdW' EdW1'].
    rewrite EdW' in EdW. rewrite EdW1' in EdW1.
    injection EdW as <-. injection EdW1 as <-.
    split_and!.
    + eapply NumWrapper_step_keeps; [exact E2 | lia | exact Hok1].
    + intros j Hj. destruct (decide (j = 2 + k)) as [->|Hne]; [exact Hcell|].
      apply (nw_cell_same_but _ _ _ _ _ _ a1 a2 i j i (2 + k)); [assumption | lia |].
      apply Hcells1. lia.
    + intros i' j' Hi'. destruct (Hsame i' j') as (E1 & E3 & E4); [lia|].
      rewrite E1, E3, E4. apply Hframe1. exact Hi'.
  - split_and!; [assumption | intros; lia | auto].
  - rewrite E. cbn [mbind option_bind]. exists a'. rewrite length_seq in Hcells.
    split_and!; try done. intros j Hj. apply Hcells. lia.
Qed.

(** X9.  With one of its three method names [NumWrapper] runs to its end,
    and every cell [(i, j)], [j >= 2], of its matrices is the step from the
    cell [(i, j - 1)]: the selected scheme for the stock and the volatility
    (the stock step reads the volatility of column [j - 1]) and [rk4_xit]
    for xi.  The path number [i] draws 2 (N-1)^2 variates, because
    [randn(N - 1)] is a square matrix, and uses the first [N - 1] of the first
    half for the stock and the first [N - 1] of the second half for the
    volatility. *)
Theorem NumWrapper_follows_scheme randstate samples (Dt sigma0 S0 xi0 mu p alpha : F)
    N numMethod (fs fv : step_fn F) :
  select_numMethod numMethod = Some (fs, fv) ->
  exists a,
    NumWrapper randstate samples Dt sigma0 S0 xi0 mu p alpha N numMethod = Some a /\
    forall i j, 1 <= i <= samples -> 2 <= j <= N ->
      let g := randn_set_state randstate in
      let q := (N - 1) * (N - 1) in
      nw_cell fs fv Dt mu p alpha a i j
        (fmul (randn_variate ((i - 1) * (2 * q) + (j - 2)) g) (fsqrt Dt))
        (fmul (randn_variate ((i - 1) * (2 * q) + q + (j - 2)) g) (fsqrt Dt)).
Proof.
  intros Hm. unfold NumWrapper. cbv zeta. rewrite Hm.
  set (q := (N - 1) * (N - 1)). set (g := randn_set_state randstate).
  destruct (for_opt_invariant
              (fun k (ag : nw_paths * randn_state) =>
                 nw_ok samples (Nat.max N 1) S0 sigma0 xi0 ag.1 /\
                 ag.2 = randn_state_after (k * (2 * q)) g /\
                 forall i j, 1 <= i <= k -> 2 <= j <= N ->
                   nw_cell fs fv Dt mu p alpha ag.1 i j
                     (fmul (randn_variate ((i - 1) * (2 * q) + (j - 2)) g) (fsqrt Dt))
                     (fmul (randn_variate ((i - 1) * (2 * q) + q + (j - 2)) g)
                        (fsqrt Dt)))
              (seq 1 samples)
              (NumWrapper_sample (Some (fs, fv)) Dt mu p alpha N))
    with (s := (NwPaths (set_column_1 (zeros samples N) S0)
                  (set_column_1 (zeros samples N) sigma0)
                  (set_column_1 (zeros samples N) xi0), g))
    as ([a' g'] & E & _ & _ & Hcells).
  - intros k i [a1 g1] Hk (Hok & Hg & Hcells). apply lookup_seq in Hk as [-> Hk].
    cbn [fst snd] in *. subst g1.
    destruct (NumWrapper_sample_cells fs fv Dt mu p alpha N (1 + k) a1
                (randn_state_after (k * (2 * q)) g) samples S0 sigma0 xi0 Hok)
      as (a2 & E2 & Hok2 & Hrow & Hframe); [lia|].
    fold q in E2, Hrow.
    eexists. split; [exact E2|]. cbn [fst snd]. split_and!.
    + exact Hok2.
    + rewrite randn_state_after_add. f_equal. lia.
    + intros i j Hi Hj. destruct (decide (i = 1 + k)) as [->|Hne].
      * specialize (Hrow j Hj). rewrite !randn_variate_add in Hrow.
        replace (1 + k - 1) with k by lia.
        replace (k * (2 * q) + q + (j - 2)) with (k * (2 * q) + (q + (j - 2))) by lia.
        exact Hrow.
      * apply (nw_cell_other_row _ _ _ _ _ _ a1 a2).
        { intros j'. apply Hframe. exact Hne. }
        apply Hcells; lia.
  - cbn [fst snd]. split_and!.
    + pose proof (set_column_1_zeros samples N S0) as [? ?].
      pose proof (set_column_1_zeros samples N sigma0) as [? ?].
      pose proof (set_column_1_zeros samples N xi0) as [? ?].
      unfold nw_ok. cbn [stockPaths volPaths xiPaths].
      split_and!; try assumption. intros i Hi. split_and!; auto.
    + reflexivity.
    + intros; lia.
  - rewrite E. cbn [mbind option_bind fst]. exists a'. split; [reflexivity|].
    rewrite length_seq in Hcells. cbn [fst] in Hcells. exact Hcells.
Qed.

End NumWrapperCells.

Lemma NumWrapper_follows_scheme_witness :
  exists a,
    Examples.wrapper_run "Euler" = Some a /\
    forall i j, 1 <= i <= 2 -> 2 <= j <= 3 ->
      nw_cell euler_stock euler_vol 0.25%float 0%float 0%float 1%float a i j
        (fmul (@randn_variate float Examples.matlab
                 ((i - 1) * (2 * ((3 - 1) * (3 - 1))) + (j - 2))
                 (randn_set_state 42%float)) (fsqrt 0.25%float))
        (fmul (@randn_variate float Examples.matlab
                 ((i - 1) * (2 * ((3 - 1) * (3 - 1))) + (3 - 1) * (3 - 1) + (j - 2))
                 (randn_set_state 42%float)) (fsqrt 0.25%float)).
Proof.
  apply (@NumWrapper_follows_scheme float _ Examples.matlab rk_stand_in).
  reflexivity.
Defined.

Section AveragesFacts.
Context {F : Type} `{Arith F} `{MatlabSum F}.

Lemma mat2_sum_columns (M : list (list F)) m n :
  mat_shape M m n -> 2 <= m ->
  mat2_sum M = (fun j => sum_elements (mat2_column M j)) <$> seq 1 n.
Proof.
  intros [Hm Hrows] H2. destruct M as [|r1 [|r2 M]]; simpl in Hm; try lia.
  cbn [mat2_sum hd]. rewrite (Forall_inv Hrows). reflexivity.
Qed.

Lemma mat2_column_length (M : list (list F)) m n j :
  mat_shape M m n -> 1 <= j <= n -> length (mat2_column M j) = m.
Proof.
  intros [<- Hrows] Hj. unfold mat2_column.
  induction Hrows as [|row M Hrow Hrows IH]; [reflexivity|].
  cbn [omap list_omap]. rewrite mat_get_in_range by lia. cbn [length].
  f_equal. exact IH.
Qed.


Lemma averaged_shape (M : list (list F)) samples n :
  mat_shape M samples n ->
  averaged samples n M
    ((fun x => fdiv x (flit (inject_Z (Z.of_nat samples)))) <$> mat2_sum M).
Proof.
  intros Hshape. split.
  - intros ->. destruct Hshape as [Hm Hrows].
    destruct M as [|row [|row' M]]; try discriminate Hm.
    exists row. split_and!; [reflexivity | exact (Forall_inv Hrows) | reflexivity].
  - intros H2. rewrite (mat2_sum_columns M samples n Hshape H2).
    rewrite length_fmap, length_fmap, length_seq. split; [reflexivity|].
    intros j Hj. split; [exact (mat2_column_length M samples n j Hshape Hj)|].
    destruct j as [|j]; [lia|]. cbn [mat_get].
    rewrite !list_lookup_fmap, lookup_seq_lt by lia. reflexivity.
Qed.

End AveragesFacts.

Section AveragesTheorem.
Context {F : Type} `{Arith F} `{Matlab F} `{RungeKutta F} `{MatlabSum F}.

(** X10.  The averages of lines 78-80.  With two or more samples each of
    [stockAvg], [volAvg], [xiAvg] has one entry per step, the sum of the
    column over [samples].  With a single sample the matrices are row
    vectors, [sum] adds along the row, and each "average" is one number:
    the sum of the path over its steps. *)
Theorem NumWrapper_averages_collapse randstate samples
    (Dt sigma0 S0 xi0 mu p alpha : F) N numMethod (a : nw_paths) :
  NumWrapper randstate samples Dt sigma0 S0 xi0 mu p alpha N numMethod = Some a ->
  1 <= N ->
  let '(stockAvg, volAvg, xiAvg) := NumWrapper_averages samples a in
  averaged samples N (stockPaths a) stockAvg /\
  averaged samples N (volPaths a) volAvg /\
  averaged samples N (xiPaths a) xiAvg.
Proof.
  intros E HN. apply NumWrapper_keeps in E.
  replace (Nat.max N 1) with N in E by lia.
  destruct E as ((Hs & Hv & Hx) & _). unfold NumWrapper_averages. cbv zeta.
  split_and!; apply averaged_shape; assumption.
Qed.

End AveragesTheorem.

Lemma NumWrapper_averages_collapse_witness :
  (forall a,
     @NumWrapper float _ Examples.matlab rk_stand_in
       42%float 1 0.25%float 0%float 1%float 1%float 0%float 0%float 1%float 3 "RK"
     = Some a ->
     let '(stockAvg, volAvg, xiAvg) := @NumWrapper_averages float _ Runs.left_sum 1 a in
     @averaged float _ Runs.left_sum 1 3 (stockPaths a) stockAvg /\
     @averaged float _ Runs.left_sum 1 3 (volPaths a) volAvg /\
     @averaged float _ Runs.left_sum 1 3 (xiPaths a) xiAvg) /\
  is_Some (@NumWrapper float _ Examples.matlab rk_stand_in
             42%float 1 0.25%float 0%float 1%float 1%float 0%float 0%float 1%float 3
             "RK").
Proof.
  split.
  - intros a E.
    apply (@NumWrapper_averages_collapse float _ Examples.matlab rk_stand_in
             Runs.left_sum _ _ _ _ _ _ _ _ _ _ _ a E).
    lia.
  - vm_compute. eauto.
Defined.

(* ===================================================================== *)
(** * Further properties of [euler_weak.m] *)
(* ===================================================================== *)

Section Overwrite.
Context {F : Type} `{Arith F}.

(** A loop that writes the points [2 .. 1 + count] one after the other
    determines all of them from the first. *)
Lemma scheme_loop_all (body : nat -> paths -> option paths)
    (step : nat -> F * F * F -> F * F * F) L count (a : paths) init :
  (forall i a, 2 <= i <= 1 + count -> vec_lengths a L ->
     exists a', body i a = Some a' /\ vec_lengths a' L /\
                triple_at a' i = step i (triple_at a (i - 1)) /\
                forall j, j <> i -> triple_at a' j = triple_at a j) ->
  1 + count <= L -> vec_lengths a L -> triple_at a 1 = init ->
  exists a',
    for_opt (seq 2 count) body a = Some a' /\ vec_lengths a' L /\
    forall c, 1 <= c <= 1 + count -> triple_at a' c = run_scheme step 2 (c - 1) init.
Proof.
  intros Hbody HL Hlen Hinit.
  destruct (for_opt_invariant
              (fun k a' => vec_lengths a' L /\
                           forall c, 1 <= c <= 1 + k ->
                             triple_at a' c = run_scheme step 2 (c - 1) init)
              (seq 2 count) body) with (s := a) as (a' & E & Hl & Hall).
  - intros k i a1 Hk (Hl1 & Hall1). apply lookup_seq in Hk as [-> Hk].
    destruct (Hbody (2 + k) a1) as (a2 & E2 & Hl2 & Hi & Hother); [lia | assumption |].
    exists a2. split_and!; try assumption.
    intros c Hc. destruct (decide (c = 2 + k)) as [->|Hne].
    + rewrite Hi. replace (2 + k - 1) with (1 + k) by lia.
      rewrite Hall1 by lia. replace (1 + k - 1) with k by lia.
      symmetry. apply run_scheme_snoc.
    + rewrite Hother by assumption. apply Hall1. lia.
  - split; [assumption|]. intros c Hc. replace c with 1 by lia. exact Hinit.
  - rewrite length_seq in Hall. exists a'. split_and!; assumption.
Qed.

Lemma vec_at_ext (v w : list F) L :
  length v = L -> length w = L ->
  (forall c, 1 <= c <= L -> vec_at v c = vec_at w c) -> v = w.
Proof.
  intros Hv Hw Hext. apply list_eq. intros k.
  destruct (decide (k < L)) as [Hk|Hk].
  - specialize (Hext (S k) ltac:(lia)). unfold vec_at in Hext. simpl in Hext.
    destruct (lookup_lt_is_Some_2 v k) as [x Ex]; [lia|].
    destruct (lookup_lt_is_Some_2 w k) as [y Ey]; [lia|].
    rewrite Ex, Ey in *. simpl in Hext. congruence.
  - rewrite !lookup_ge_None_2 by lia. reflexivity.
Qed.

Lemma paths_ext (a b : paths) L :
  vec_lengths a L -> vec_lengths b L ->
  (forall c, 1 <= c <= L -> triple_at a c = triple_at b c) -> a = b.
Proof.
  intros (Ha1 & Ha2 & Ha3) (Hb1 & Hb2 & Hb3) Hext.
  destruct a as [s1 v1 x1], b as [s2 v2 x2]. cbn [S_ sig xi] in *.
  f_equal; eapply vec_at_ext; try eassumption; intros c Hc;
    specialize (Hext c Hc); unfold triple_at in Hext; cbn [S_ sig xi] in Hext;
    congruence.
Qed.

End Overwrite.

Section Repetition.
Context {F : Type} `{Arith F} `{Matlab F}.

(** X11.  A repetition of [euler_weak.m] does not depend on what the
    repetition before it left in the work vectors [S], [sig], [xi]: lines
    22-24 reset the first point and the reference loop rewrites all the
    others, so two states that differ in the work vectors only give the same
    state (or the same failure) after the repetition. *)
Theorem repetition_ignores_old_paths timestep j (st1 st2 : ew_state) :
  vec_lengths (ew_paths st1) 32000 -> vec_lengths (ew_paths st2) 32000 ->
  ew_mean st1 = ew_mean st2 -> ew_meanew32000 st1 = ew_meanew32000 st2 ->
  ew_gen st1 = ew_gen st2 ->
  repetition timestep j st1 = repetition timestep j st2.
Proof.
  intros Hl1 Hl2 Hmean Hsum Hgen. unfold repetition. cbv zeta.
  rewrite Hmean, Hsum, Hgen.
  pose proof big_31999 as B'. pose proof big_32000 as B.
  remember 32000 as L eqn:EL. remember 31999 as count eqn:Ecount. clear EL Ecount.
  pose proof (randn_vec_length L (ew_gen st2)) as Hr.
  destruct (randn_vec L (ew_gen st2)) as [r g1]. cbn [fst snd] in *.
  pose proof (randn_vec_length L g1) as Hr1.
  destruct (randn_vec L g1) as [r1 g2]. cbn [fst snd] in *.
  destruct Hl1 as (HS1 & Hsig1 & Hxi1), Hl2 as (HS2 & Hsig2 & Hxi2).
  rewrite !(mat_set_in_range _ 1) by lia. cbn [mbind option_bind].
  set (step := scheme_step milstein_stock milstein_vol (flit 0.0001) (flit 0.1)
                 (flit 1) (flit 1)
                 (fine_increment (flit 0.0001) r) (fine_increment (flit 0.0001) r1)).
  assert (forall a : paths, vec_lengths a L ->
            triple_at a 1 = (flit 50.0, flit 0.2, flit 0.2) ->
            exists a', for_opt (seq 2 count)
                         (fine_body (flit 0.0001) (flit 0.1) (flit 1) (flit 1) r r1) a
                       = Some a' /\ vec_lengths a' L /\
                       forall c, 1 <= c <= L ->
                         triple_at a' c
                         = run_scheme step 2 (c - 1) (flit 50.0, flit 0.2, flit 0.2))
    as Hfine.
  { intros a Hlen Hinit.
    destruct (scheme_loop_all
                (fine_body (flit 0.0001) (flit 0.1) (flit 1) (flit 1) r r1)
                step L count a (flit 50.0, flit 0.2, flit 0.2))
      as (a' & E & Hlen' & Hall); try assumption; [|lia|].
    { intros i a0 Hi Hl. apply fine_body_step; [assumption | lia ..]. }
    exists a'. split_and!; try assumption. intros c Hc. apply Hall. lia. }
  match goal with |- (for_opt _ _ ?p1 ≫= _) = (for_opt _ _ ?p2 ≫= _) =>
    destruct (Hfine p1) as (a1 & E1 & Hlen1 & Hall1);
    [ | | destruct (Hfine p2) as (a2 & E2 & Hlen2 & Hall2) ]
  end.
  1,3: unfold vec_lengths; cbn [S_ sig xi]; rewrite !length_insert; done.
  1,2: unfold triple_at; cbn [S_ sig xi]; rewrite !vec_at_insert_eq by lia;
       reflexivity.
  rewrite E1, E2.
  assert (a1 = a2) as ->; [|reflexivity].
  apply (paths_ext _ _ L); try assumption.
  intros c Hc. rewrite Hall1, Hall2 by assumption. reflexivity.
Qed.

End Repetition.

Section CoarseRun.
Context {F : Type} `{Arith F}.

(** X12.  A coarse run of [euler_weak.m] reads nothing of the work vectors
    but their first point, and keeps it: whatever the reference loop and
    the coarse runs before it left in [S(2..)], [sig(2..)], [xi(2..)], the
    run succeeds and leaves the same sums in [mean]. *)
Theorem coarse_run_ignores_old_paths timestep lvl k n dtex mu p alfa (r r1 : list F)
    (a1 a2 : paths) mean L dt :
  mat_get timestep lvl = Some dt -> 1 <= lvl <= length mean -> 1 <= n <= L ->
  k * n <= length r -> k * n <= length r1 ->
  vec_lengths a1 L -> vec_lengths a2 L -> triple_at a1 1 = triple_at a2 1 ->
  exists a1' a2' mean',
    coarse_run timestep lvl k n dtex mu p alfa r r1 (a1, mean) = Some (a1', mean') /\
    coarse_run timestep lvl k n dtex mu p alfa r r1 (a2, mean) = Some (a2', mean') /\
    triple_at a1' 1 = triple_at a1 1 /\ triple_at a2' 1 = triple_at a2 1.
Proof.
  intros Hdt Hlvl Hn Hr Hr1 Hl1 Hl2 Hinit.
  destruct (coarse_run_spec timestep lvl k n dtex mu p alfa r r1 a1 mean L dt
              (triple_at a1 1) Hdt Hlvl Hn Hr Hr1 Hl1 eq_refl) as (a1' & E1 & _ & K1).
  destruct (coarse_run_spec timestep lvl k n dtex mu p alfa r r1 a2 mean L dt
              (triple_at a1 1) Hdt Hlvl Hn Hr Hr1 Hl2 (eq_sym Hinit))
    as (a2' & E2 & _ & K2).
  eexists _, _, _. split_and!; [exact E1 | exact E2 | exact K1 | congruence].
Qed.

End CoarseRun.

Lemma repetition_ignores_old_paths_witness :
  repetition [flit 0.0032; flit 0.0064; flit 0.0128; flit 0.0256] 1 (Runs.before 0)
  = repetition [flit 0.0032; flit 0.0064; flit 0.0128; flit 0.0256] 1 (Runs.before 1).
Proof.
  apply (@repetition_ignores_old_paths Qc _ Examples.exact_matlab);
    try reflexivity;
    unfold vec_lengths, Runs.before; cbn [ew_paths S_ sig xi];
    rewrite !length_replicate; done.
Defined.

Lemma coarse_run_ignores_old_paths_witness :
  exists a1' a2' mean',
    @coarse_run float _ [2%float] 1 2 4 1%float 0%float 0%float 1%float
      Runs.eight Runs.eight (Runs.tiny4 0, [0%float]) = Some (a1', mean') /\
    @coarse_run float _ [2%float] 1 2 4 1%float 0%float 0%float 1%float
      Runs.eight Runs.eight (Runs.tiny4 9, [0%float]) = Some (a2', mean') /\
    triple_at a1' 1 = triple_at (Runs.tiny4 0) 1 /\
    triple_at a2' 1 = triple_at (Runs.tiny4 9) 1.
Proof.
  apply (@coarse_run_ignores_old_paths float _ [2%float] 1 2 4 1%float
           0%float 0%float 1%float Runs.eight Runs.eight (Runs.tiny4 0) (Runs.tiny4 9)
           [0%float] 4 2%float);
    try reflexivity; try (vm_compute; lia); repeat split.
Defined.

